(** * feedcast: the script pipeline of [rss_podcast.podcast]

    A shallow embedding of the text pipeline of the podcast generator:
    the script assembler and segment parser of [script_generator.py],
    the sanitizer, artifact detector and pronunciation normaliser of
    [text_normalizer.py], and the chunker of [tts_engine.py].

    Python strings are sequences of Unicode code points; they are
    modelled as lists of code points.  The regular expressions of the
    source are kept as data (a small abstract syntax) and run by a
    backtracking matcher that follows the semantics of Python's [re]
    module for the constructs the source uses.  The products with
    [0.7] and [0.3] are computed in doubles, with their rounding, and
    a call that can raise gives a [fallible] value. *)

From Stdlib Require Import Ascii String.
From Stdlib Require Import List Bool Arith NArith ZArith Lia.
From Stdlib Require Import Sorted Permutation.
Import ListNotations.

Set Implicit Arguments.

(** ** Python strings *)

Definition char := N.
Definition str := list char.

Module Utf8.

(** Source literals are written as UTF-8 text; [decode] yields the code
    points a Python [str] literal holds. *)

Definition cont (b : N) : N := N.land b 63.

Fixpoint decode_bytes (fuel : nat) (bs : list N) : str :=
  match fuel with
  | O => []
  | S fuel' =>
    match bs with
    | [] => []
    | b0 :: t0 =>
      if (b0 <? 128)%N then b0 :: decode_bytes fuel' t0
      else if (b0 <? 224)%N then
        match t0 with
        | b1 :: t1 =>
          (N.land b0 31 * 64 + cont b1)%N :: decode_bytes fuel' t1
        | _ => []
        end
      else if (b0 <? 240)%N then
        match t0 with
        | b1 :: b2 :: t2 =>
          (N.land b0 15 * 4096 + cont b1 * 64 + cont b2)%N
            :: decode_bytes fuel' t2
        | _ => []
        end
      else
        match t0 with
        | b1 :: b2 :: b3 :: t3 =>
          (N.land b0 7 * 262144 + cont b1 * 4096 + cont b2 * 64 + cont b3)%N
            :: decode_bytes fuel' t3
        | _ => []
        end
    end
  end.

Fixpoint bytes_of (s : string) : list N :=
  match s with
  | EmptyString => []
  | String a s' => N_of_ascii a :: bytes_of s'
  end.

Definition decode (s : string) : str :=
  let bs := bytes_of s in decode_bytes (length bs) bs.

End Utf8.

(** [u "text"] is the Python string literal ['text']. *)
Definition u (s : string) : str := Utf8.decode s.

Definition LF : char := 10%N.
Definition SP : char := 32%N.

(** [len(s)] as a Python integer. *)
Definition len (s : str) : Z := Z.of_nat (length s).

(** [str.isspace] on one code point, which is also the class [\s] of [re]
    for [str] patterns: the code points CPython lists as white space. *)
Definition isspace (c : char) : bool :=
  ((9 <=? c) && (c <=? 13) || (28 <=? c) && (c <=? 32)
   || (c =? 133) || (c =? 160) || (c =? 5760)
   || (8192 <=? c) && (c <=? 8202)
   || (c =? 8232) || (c =? 8233) || (c =? 8239) || (c =? 8287)
   || (c =? 12288))%N.

(** The queries on the Unicode character database that the source makes
    through [str] methods and [re] flags.  The development is parametric
    in them; [py_unicode] below tabulates them for Latin text. *)
Class UnicodeDB := {
  isalnum : char -> bool;          (* [str.isalnum] on one code point *)
  isdecimal : char -> bool;        (* category Nd, the class [\d] *)
  tolower : char -> char;          (* simple lower-case mapping *)
  casefix : char -> list char;     (* the other lower-case characters that
                                      [re] takes for a lower-case character *)
  str_lower : str -> str;          (* [str.lower()] *)
  str_upper : str -> str;          (* [str.upper()] *)
  str_isupper : str -> bool;       (* [str.isupper()] *)
  str_capitalize : str -> str      (* [str.capitalize()] *)
}.

(** ** String methods *)

Fixpoint lstrip (s : str) : str :=
  match s with
  | c :: t => if isspace c then lstrip t else s
  | [] => []
  end.

Definition rstrip (s : str) : str := rev (lstrip (rev s)).

(** [s.strip()] *)
Definition strip (s : str) : str := rstrip (lstrip s).

Fixpoint startswith (p s : str) : bool :=
  match p, s with
  | [], _ => true
  | a :: p', b :: s' => (a =? b)%N && startswith p' s'
  | _ :: _, [] => false
  end.

(** [s.endswith(p)] *)
Definition endswith (p s : str) : bool := startswith (rev p) (rev s).

(** [needle in s] *)
Fixpoint contains (needle s : str) : bool :=
  startswith needle s ||
  match s with
  | [] => false
  | _ :: t => contains needle t
  end.

(** [s[:n]] and [s[n:]] for any Python integer [n]: a negative index
    counts from the end, and both ends are clamped. *)
Definition slice_to (s : str) (n : Z) : str :=
  if (0 <=? n)%Z then firstn (Z.to_nat n) s
  else firstn (Z.to_nat (len s + n)) s.

Definition slice_from (s : str) (n : Z) : str :=
  if (0 <=? n)%Z then skipn (Z.to_nat n) s
  else skipn (Z.to_nat (len s + n)) s.

(** [s.rfind(c)] for a one-character needle: the last index, or -1. *)
Fixpoint rfind_from (c : char) (s : str) (i : Z) (found : Z) : Z :=
  match s with
  | [] => found
  | x :: t => rfind_from c t (i + 1) (if (x =? c)%N then i else found)
  end.

Definition rfind (c : char) (s : str) : Z := rfind_from c s 0 (-1).

(** [s.split()]: the maximal runs of non-space characters. *)
Fixpoint split_ws_go (s : str) (cur : str) : list str :=
  match s with
  | [] => match cur with [] => [] | _ => [rev cur] end
  | c :: t =>
    if isspace c then
      match cur with
      | [] => split_ws_go t []
      | _ => rev cur :: split_ws_go t []
      end
    else split_ws_go t (c :: cur)
  end.

Definition split_ws (s : str) : list str := split_ws_go s [].

(** [s.split(sep)] for a non-empty separator. *)
Fixpoint split_on_go (fuel : nat) (sep s cur : str) : list str :=
  match fuel with
  | O => [rev cur]
  | S fuel' =>
    match s with
    | [] => [rev cur]
    | c :: t =>
      if startswith sep s
      then rev cur :: split_on_go fuel' sep (skipn (length sep) s) []
      else split_on_go fuel' sep t (c :: cur)
    end
  end.

Definition split_on (sep s : str) : list str :=
  split_on_go (S (length s)) sep s [].

(** [sep.join(parts)] *)
Fixpoint join (sep : str) (parts : list str) : str :=
  match parts with
  | [] => []
  | [p] => p
  | p :: rest => p ++ sep ++ join sep rest
  end.

(** ** Calls that can raise

    What a call gives that can end in an exception: the value it
    returns, or [Err] when an exception leaves the function.  The
    exceptions met here are those of [re] for a replacement template
    it cannot read ([re.error], and [IndexError] for the name of a
    group that the pattern does not have); the source catches none of
    them, and they are not told apart. *)
Inductive fallible (A : Type) : Type :=
| Ok (a : A)
| Err.

Arguments Ok {A} a.
Arguments Err {A}.

(** ** Python floats

    A [float] is an IEEE 754 double.  A finite one is a whole number
    of at most 53 bits times a power of two; it is kept as that pair.
    The operations below are those the source applies to the lengths
    of texts and to its limits; they round to the nearest double, a
    tie to the one with an even last bit.  The size of the exponent
    is not limited here: the doubles of the source are products of
    such lengths and limits with a constant below one. *)

Module PyFloat.

Record float := { num : Z; exp : Z }.

(** The double nearest to [m * 2^e]. *)
Definition round (m e : Z) : float :=
  let a := Z.abs m in
  let excess := (Z.log2 a + 1 - 53)%Z in
  if (excess <=? 0)%Z then {| num := m; exp := e |}
  else
    let q := Z.shiftr a excess in
    let r := (a - Z.shiftl q excess)%Z in
    let half := Z.shiftl 1 (excess - 1) in
    let q' := if (half <? r)%Z || ((r =? half)%Z && Z.odd q) then (q + 1)%Z else q in
    {| num := (Z.sgn m * q')%Z; exp := (e + excess)%Z |}.

(** The conversion of an [int] that takes part in float arithmetic. *)
Definition of_int (n : Z) : float := round n 0.

(** [a * b] *)
Definition mul (a b : float) : float := round (num a * num b) (exp a + exp b).

(** [k > f] for an [int] k: Python compares the two numbers exactly. *)
Definition int_gt (k : Z) (f : float) : bool :=
  if (0 <=? exp f)%Z then (num f * 2 ^ exp f <? k)%Z
  else (num f <? k * 2 ^ (- exp f))%Z.

(** [int(f)]: the whole part, towards zero. *)
Definition to_int (f : float) : Z :=
  if (0 <=? exp f)%Z then (num f * 2 ^ exp f)%Z
  else Z.quot (num f) (2 ^ (- exp f)).

(** The literals [0.7] and [0.3]: the doubles nearest to them. *)
Definition f0_7 : float := {| num := 3152519739159347; exp := -52 |}.
Definition f0_3 : float := {| num := 5404319552844595; exp := -54 |}.

End PyFloat.

(** ** Regular expressions

    The constructs of Python's [re] that the source uses.  A pattern is
    matched by backtracking; [rmatch] lists the ways a pattern can match
    at a position in the order the backtracking matcher tries them, so
    the head of the list is the match [re] reports. *)

Module Re.

Record flags := { ignorecase : bool; multiline : bool; dotall : bool }.

Definition no_flags := {| ignorecase := false; multiline := false; dotall := false |}.
Definition DOTALL := {| ignorecase := false; multiline := false; dotall := true |}.
Definition MULTILINE := {| ignorecase := false; multiline := true; dotall := false |}.
Definition IGNORECASE := {| ignorecase := true; multiline := false; dotall := false |}.

(** [a | b] on flags *)
Definition flag_or (a b : flags) : flags :=
  {| ignorecase := ignorecase a || ignorecase b;
     multiline := multiline a || multiline b;
     dotall := dotall a || dotall b |}.

(** The items of a bracketed set. *)
Inductive citem :=
| CChar (c : char)
| CRange (lo hi : char)
| CSpace                      (* \s *)
| CDigit                      (* \d *)
| CWord.                      (* \w *)

Inductive regex :=
| Eps
| Lit (c : char)
| CSet (negated : bool) (items : list citem)
| Dot
| Seq (a b : regex)
| Alt (a b : regex)
| Rep (lo : nat) (hi : option nat) (greedy : bool) (a : regex)
| Group (n : nat) (a : regex)
| Backref (n : nat)
| Ahead (a : regex)                 (* (?=a) *)
| NotBehind (items : list citem)    (* (?<![items]) *)
| Bol                               (* ^ *)
| Eol                               (* $ *)
| EndZ                              (* \Z *)
| WordB.                            (* \b *)

(** A position in the subject: the character before it, the text
    after it, and the groups captured so far. *)
Record mstate := { prev : option char; rest : str; caps : list (nat * str) }.

Fixpoint cap_lookup (n : nat) (cs : list (nat * str)) : option str :=
  match cs with
  | [] => None
  | (k, v) :: t => if Nat.eqb k n then Some v else cap_lookup n t
  end.

Definition advance (st : mstate) (c : char) (t : str) : mstate :=
  {| prev := Some c; rest := t; caps := caps st |}.

Definition consumed (st st' : mstate) : str :=
  firstn (length (rest st) - length (rest st')) (rest st).

Definition set_cap (n : nat) (st st' : mstate) : mstate :=
  {| prev := prev st'; rest := rest st'; caps := (n, consumed st st') :: caps st' |}.

(** A repetition [a{lo,hi}]: [again] runs the body once more, [stop]
    leaves the loop.  An iteration that consumes nothing is only kept
    while iterations are still owed. *)
Fixpoint rep_go (body : mstate -> list mstate) (greedy : bool) (fuel : nat)
         (lo : nat) (hi : option nat) (st : mstate) : list mstate :=
  match fuel with
  | O => []
  | S fuel' =>
    let again :=
      match hi with
      | Some O => []
      | _ =>
        flat_map
          (fun st' =>
             if (length (rest st') <? length (rest st)) || (0 <? lo)
             then rep_go body greedy fuel' (pred lo) (option_map pred hi) st'
             else [])
          (body st)
      end in
    let stop := if lo =? 0 then [st] else [] in
    if greedy then again ++ stop else stop ++ again
  end.

Section Matcher.
Context {U : UnicodeDB}.

(** The class [\w]. *)
Definition isword (c : char) : bool := isalnum c || (c =? 95)%N.

Definition item_match (it : citem) (c : char) : bool :=
  match it with
  | CChar x => (c =? x)%N
  | CRange lo hi => ((lo <=? c) && (c <=? hi))%N
  | CSpace => isspace c
  | CDigit => isdecimal c
  | CWord => isword c
  end.

(** Under IGNORECASE the character [c] matches the literal [x] when
    its lower case is that of [x], or one of the characters [re] takes
    for it. *)
Definition ic_eq_lower (lc x : char) : bool :=
  let lx := tolower x in (lc =? lx)%N || existsb (N.eqb lc) (casefix lx).

Definition ic_eq (c x : char) : bool := ic_eq_lower (tolower c) x.

Definition lit_match (fl : flags) (x c : char) : bool :=
  if ignorecase fl then ic_eq c x else (c =? x)%N.

(** The characters from [lo] to [hi]. *)
Definition char_range (lo hi : char) : list char :=
  map (fun i => (lo + N.of_nat i)%N) (List.seq 0 (N.to_nat (hi + 1 - lo))).

(** Under IGNORECASE a set holds the characters that match one of its
    literals or a character of one of its ranges. *)
Definition item_match_ic (it : citem) (c : char) : bool :=
  match it with
  | CChar x => ic_eq c x
  | CRange lo hi => let lc := tolower c in existsb (ic_eq_lower lc) (char_range lo hi)
  | _ => item_match it c
  end.

Definition set_match (fl : flags) (items : list citem) (c : char) : bool :=
  existsb (fun it => if ignorecase fl then item_match_ic it c else item_match it c)
          items.

(** A backreference compares character by character, in lower case
    under IGNORECASE. *)
Definition same_char (fl : flags) (x c : char) : bool :=
  if ignorecase fl then (tolower c =? tolower x)%N else (c =? x)%N.

Fixpoint prefix_match (fl : flags) (g s : str) : option (option char * str) :=
  match g with
  | [] => Some (None, s)
  | x :: g' =>
    match s with
    | [] => None
    | c :: s' =>
      if same_char fl x c then
        match prefix_match fl g' s' with
        | Some (None, r) => Some (Some c, r)
        | other => other
        end
      else None
    end
  end.

Definition opt_word (o : option char) : bool :=
  match o with Some c => isword c | None => false end.

Definition at_bol (fl : flags) (st : mstate) : bool :=
  match prev st with
  | None => true
  | Some p => multiline fl && (p =? LF)%N
  end.

Definition at_eol (fl : flags) (st : mstate) : bool :=
  match rest st with
  | [] => true
  | c :: t =>
    (c =? LF)%N && (multiline fl || match t with [] => true | _ => false end)
  end.

Definition one (st : mstate) (ok : char -> bool) : list mstate :=
  match rest st with
  | c :: t => if ok c then [advance st c t] else []
  | [] => []
  end.

Fixpoint rmatch (fl : flags) (r : regex) (st : mstate) : list mstate :=
  match r with
  | Eps => [st]
  | Lit x => one st (lit_match fl x)
  | CSet neg items => one st (fun c => xorb neg (set_match fl items c))
  | Dot => one st (fun c => dotall fl || negb (c =? LF)%N)
  | Seq a b => flat_map (rmatch fl b) (rmatch fl a st)
  | Alt a b => rmatch fl a st ++ rmatch fl b st
  | Rep lo hi greedy a =>
    rep_go (rmatch fl a) greedy (S (lo + length (rest st))) lo hi st
  | Group n a => map (set_cap n st) (rmatch fl a st)
  | Backref n =>
    match cap_lookup n (caps st) with
    | None => []
    | Some g =>
      match prefix_match fl g (rest st) with
      | Some (Some c, r) => [{| prev := Some c; rest := r; caps := caps st |}]
      | Some (None, _) => [st]
      | None => []
      end
    end
  | Ahead a =>
    match rmatch fl a st with
    | [] => []
    | st1 :: _ => [{| prev := prev st; rest := rest st; caps := caps st1 |}]
    end
  | NotBehind items =>
    match prev st with
    | Some p => if set_match fl items p then [] else [st]
    | None => [st]
    end
  | Bol => if at_bol fl st then [st] else []
  | Eol => if at_eol fl st then [st] else []
  | EndZ => match rest st with [] => [st] | _ => [] end
  | WordB =>
    if xorb (opt_word (prev st)) (opt_word (hd_error (rest st))) then [st] else []
  end.

(** One match found by a scan of the subject. *)
Record rmatch_t := { m_start : nat; m_text : str; m_caps : list (nat * str) }.

Definition m_end (m : rmatch_t) : nat := m_start m + length (m_text m).

(** [m.group(n)], with the empty string for a group that took no part. *)
Definition group (m : rmatch_t) (n : nat) : str :=
  match cap_lookup n (m_caps m) with Some g => g | None => [] end.

(** [m.group(0)] *)
Definition group0 (m : rmatch_t) : str := m_text m.

Inductive piece := Gap (c : char) | Hit (m : rmatch_t).

(** The match at a position: the first way to match, or when the
    previous match was empty at this very position, the first way
    that consumes something. *)
Definition match_here (fl : flags) (r : regex) (p : option char) (s : str)
           (must_advance : bool) : option mstate :=
  let st := {| prev := p; rest := s; caps := [] |} in
  hd_error
    (filter (fun st' => negb must_advance || (length (rest st') <? length s))
            (rmatch fl r st)).

(** The scan that [re.sub], [re.findall], [re.finditer] and
    [re.search] share: successive non-overlapping matches, leftmost
    first, with the characters between them. *)
Fixpoint scan (fuel : nat) (fl : flags) (r : regex) (p : option char) (s : str)
         (pos : nat) (must_advance : bool) : list piece :=
  match fuel with
  | O => []
  | S fuel' =>
    match match_here fl r p s must_advance with
    | Some st' =>
      let n := length s - length (rest st') in
      Hit {| m_start := pos; m_text := firstn n s; m_caps := caps st' |}
          :: (if n =? 0 then scan fuel' fl r p s pos true
              else scan fuel' fl r (prev st') (rest st') (pos + n) false)
    | None =>
      match s with
      | [] => []
      | c :: t => Gap c :: scan fuel' fl r (Some c) t (S pos) false
      end
    end
  end.

Definition pieces (fl : flags) (r : regex) (s : str) : list piece :=
  scan (2 * length s + 2) fl r None s 0 false.

Fixpoint hits (ps : list piece) : list rmatch_t :=
  match ps with
  | [] => []
  | Gap _ :: t => hits t
  | Hit m :: t => m :: hits t
  end.

(** [list(re.finditer(r, s, fl))] *)
Definition finditer (fl : flags) (r : regex) (s : str) : list rmatch_t :=
  hits (pieces fl r s).

(** [re.search(r, s, fl)] as a truth value *)
Definition search (fl : flags) (r : regex) (s : str) : bool :=
  match finditer fl r s with [] => false | _ => true end.

(** [re.sub(r, repl, s, flags=fl)]; [repl] gives the replacement of
    each match (a template or a callable). *)
Definition sub (fl : flags) (r : regex) (repl : rmatch_t -> str) (s : str) : str :=
  flat_map (fun p => match p with Gap c => [c] | Hit m => repl m end)
           (pieces fl r s).

End Matcher.

(** Patterns built from parts. *)
Fixpoint lits (s : str) : regex :=
  match s with
  | [] => Eps
  | [c] => Lit c
  | c :: t => Seq (Lit c) (lits t)
  end.

(** [re.escape(term)] followed by compilation: the term, literally. *)
Definition escape (s : str) : regex := lits s.

Fixpoint seq (rs : list regex) : regex :=
  match rs with
  | [] => Eps
  | [r] => r
  | r :: t => Seq r (seq t)
  end.

(** A pattern that matches nothing. *)
Definition never : regex := CSet false [].

(** The least number of characters a match of the pattern holds. *)
Fixpoint min_len (r : regex) : nat :=
  match r with
  | Lit _ | CSet _ _ | Dot => 1
  | Seq a b => min_len a + min_len b
  | Alt a b => Nat.min (min_len a) (min_len b)
  | Rep lo _ _ a => lo * min_len a
  | Group _ a => min_len a
  | _ => 0
  end.

(** No lookahead: the groups of a match lie inside the match. *)
Fixpoint ahead_free (r : regex) : bool :=
  match r with
  | Seq a b | Alt a b => ahead_free a && ahead_free b
  | Rep _ _ _ a | Group _ a => ahead_free a
  | Ahead _ => false
  | _ => true
  end.

(** *** Pattern strings

    The parser of the pattern syntax, so that the patterns of the
    source can be quoted as they are written there. *)

Definition digit_val (c : char) : option nat :=
  if ((48 <=? c) && (c <=? 57))%N then Some (N.to_nat (c - 48)) else None.

Fixpoint p_digits (s : str) (acc : nat) : nat * str :=
  match s with
  | c :: t =>
    match digit_val c with
    | Some d => p_digits t (10 * acc + d)
    | None => (acc, s)
    end
  | [] => (acc, s)
  end.

Definition starts_digit (s : str) : bool :=
  match s with
  | c :: _ => match digit_val c with Some _ => true | None => false end
  | [] => false
  end.

(** An escape inside a bracketed set. *)
Definition class_escape (c : char) : citem :=
  if (c =? 115)%N then CSpace            (* \s *)
  else if (c =? 100)%N then CDigit       (* \d *)
  else if (c =? 119)%N then CWord        (* \w *)
  else if (c =? 116)%N then CChar 9%N      (* \t *)
  else if (c =? 110)%N then CChar 10%N     (* \n *)
  else CChar c.

(** The items of a set, up to the closing bracket. *)
Fixpoint p_class (fuel : nat) (s : str) : option (list citem * str) :=
  match fuel with
  | O => None
  | S fuel' =>
    match s with
    | [] => None
    | 93%N :: t => Some ([], t)                              (* ] *)
    | 92%N :: c :: t =>                                      (* \c *)
      match p_class fuel' t with
      | Some (items, r) => Some (class_escape c :: items, r)
      | None => None
      end
    | lo :: 45%N :: hi :: t =>                               (* lo-hi *)
      if (hi =? 93)%N then
        match p_class fuel' (45%N :: hi :: t) with
        | Some (items, r) => Some (CChar lo :: items, r)
        | None => None
        end
      else
        match p_class fuel' t with
        | Some (items, r) => Some (CRange lo hi :: items, r)
        | None => None
        end
    | c :: t =>
      match p_class fuel' t with
      | Some (items, r) => Some (CChar c :: items, r)
      | None => None
      end
    end
  end.

(** A quantifier after an atom, if there is one. *)
Definition p_quant (s : str) : option (nat * option nat * str) :=
  match s with
  | 42%N :: t => Some (0, None, t)                           (* * *)
  | 43%N :: t => Some (1, None, t)                           (* + *)
  | 63%N :: t => Some (0, Some 1, t)                         (* ? *)
  | 123%N :: t =>                                            (* {m}, {m,}, {m,n} *)
    if starts_digit t then
      let '(m, t1) := p_digits t 0 in
      match t1 with
      | 125%N :: t2 => Some (m, Some m, t2)
      | 44%N :: 125%N :: t2 => Some (m, None, t2)
      | 44%N :: t2 =>
        if starts_digit t2 then
          let '(n, t3) := p_digits t2 0 in
          match t3 with
          | 125%N :: t4 => Some (m, Some n, t4)
          | _ => None
          end
        else None
      | _ => None
      end
    else None
  | _ => None
  end.

Definition quantified (a : regex) (s : str) : regex * str :=
  match p_quant s with
  | Some (lo, hi, 63%N :: t) => (Rep lo hi false a, t)       (* lazy *)
  | Some (lo, hi, t) => (Rep lo hi true a, t)
  | None => (a, s)
  end.

(** An escape outside a set. *)
Definition atom_escape (c : char) : regex :=
  if (c =? 115)%N then CSet false [CSpace]        (* \s *)
  else if (c =? 83)%N then CSet true [CSpace]     (* \S *)
  else if (c =? 100)%N then CSet false [CDigit]   (* \d *)
  else if (c =? 119)%N then CSet false [CWord]    (* \w *)
  else if (c =? 98)%N then WordB                  (* \b *)
  else if (c =? 90)%N then EndZ                   (* \Z *)
  else if (c =? 110)%N then Lit 10%N                (* \n *)
  else if (c =? 116)%N then Lit 9%N                 (* \t *)
  else match digit_val c with
       | Some n => Backref n
       | None => Lit c
       end.

Definition seq2 (a b : regex) : regex :=
  match a, b with
  | Eps, _ => b
  | _, Eps => a
  | _, _ => Seq a b
  end.

(** [p_alt] reads alternatives up to a closing parenthesis or the end
    of the pattern, [p_seq] one alternative; [g] is the number of the
    next capturing group. *)
Fixpoint p_alt (fuel : nat) (s : str) (g : nat) : option (regex * str * nat) :=
  match fuel with
  | O => None
  | S fuel' =>
    match p_seq fuel' s g with
    | Some (a, 124%N :: t, g1) =>                            (* | *)
      match p_alt fuel' t g1 with
      | Some (b, r, g2) => Some (Alt a b, r, g2)
      | None => None
      end
    | other => other
    end
  end
with p_seq (fuel : nat) (s : str) (g : nat) : option (regex * str * nat) :=
  match fuel with
  | O => None
  | S fuel' =>
    match s with
    | [] => Some (Eps, s, g)
    | 124%N :: _ => Some (Eps, s, g)                         (* | *)
    | 41%N :: _ => Some (Eps, s, g)                          (* ) *)
    | _ =>
      match p_atom fuel' s g with
      | Some (a, t, g1) =>
        let '(a', t') := quantified a t in
        match p_seq fuel' t' g1 with
        | Some (b, r, g2) => Some (seq2 a' b, r, g2)
        | None => None
        end
      | None => None
      end
    end
  end
with p_atom (fuel : nat) (s : str) (g : nat) : option (regex * str * nat) :=
  match fuel with
  | O => None
  | S fuel' =>
    match s with
    | [] => None
    | 40%N :: 63%N :: 58%N :: t =>                           (* (?: *)
      match p_alt fuel' t g with
      | Some (a, 41%N :: r, g1) => Some (a, r, g1)
      | _ => None
      end
    | 40%N :: 63%N :: 61%N :: t =>                           (* (?= *)
      match p_alt fuel' t g with
      | Some (a, 41%N :: r, g1) => Some (Ahead a, r, g1)
      | _ => None
      end
    | 40%N :: 63%N :: 60%N :: 33%N :: t =>                   (* (?<! *)
      match p_alt fuel' t g with
      | Some (CSet false items, 41%N :: r, g1) => Some (NotBehind items, r, g1)
      | _ => None
      end
    | 40%N :: t =>                                           (* ( *)
      match p_alt fuel' t (S g) with
      | Some (a, 41%N :: r, g1) => Some (Group g a, r, g1)
      | _ => None
      end
    | 91%N :: 94%N :: t =>                                   (* [^ *)
      match p_class fuel' t with
      | Some (items, r) => Some (CSet true items, r, g)
      | None => None
      end
    | 91%N :: t =>                                           (* [ *)
      match p_class fuel' t with
      | Some (items, r) => Some (CSet false items, r, g)
      | None => None
      end
    | 92%N :: c :: t => Some (atom_escape c, t, g)           (* \c *)
    | 46%N :: t => Some (Dot, t, g)                          (* . *)
    | 94%N :: t => Some (Bol, t, g)                          (* ^ *)
    | 36%N :: t => Some (Eol, t, g)                          (* $ *)
    | c :: t => Some (Lit c, t, g)
    end
  end.

(** [re.compile] of a pattern held in a [str]. *)
Definition compile_str (p : str) : regex :=
  match p_alt (3 * length p + 3) p 1 with
  | Some (r, [], _) => r
  | _ => never
  end.

(** [re.compile(r'...')] *)
Definition compile (p : string) : regex := compile_str (u p).

(** The pattern is read to its end. *)
Definition parses (p : str) : bool :=
  match p_alt (3 * length p + 3) p 1 with
  | Some (_, [], _) => true
  | _ => false
  end.

(** A one-character literal. *)
Definition chr (s : string) : char := hd 0%N (u s).

(** *** Replacement templates

    [re.sub] takes a replacement that is a string for a template.  A
    string without a backslash stands for itself.  In one with a
    backslash the escapes are read: a reference to a group is put for
    what the group matched, and a template that cannot be read raises
    [re.error], whether the pattern matches or not. *)

Inductive template_item :=
| Literal (s : str)
| GroupRef (n : nat).

Definition template := list template_item.

(** [match.expand]: group 0 is the match itself. *)
Definition expand_template (t : template) (m : rmatch_t) : str :=
  flat_map (fun item => match item with
                        | Literal s => s
                        | GroupRef O => m_text m
                        | GroupRef n => group m n
                        end) t.

(** The number of groups of a pattern. *)
Fixpoint groups (r : regex) : nat :=
  match r with
  | Seq a b | Alt a b => Nat.max (groups a) (groups b)
  | Rep _ _ _ a | Ahead a => groups a
  | Group n a => Nat.max n (groups a)
  | _ => 0
  end.

(** The reading of a template that holds a backslash is the work of
    the library; the development is parametric in it, and
    [py_parse_template] below gives the reading of CPython. *)
Class Templates := {
  parse_template : str -> nat -> fallible template
}.

Definition backslash : char := 92%N.

Section Substitution.
Context {U : UnicodeDB} {T : Templates}.

(** What a replacement string puts for a match. *)
Definition replacement (repl : str) (n_groups : nat)
  : fallible (rmatch_t -> str) :=
  if existsb (N.eqb backslash) repl then
    match parse_template repl n_groups with
    | Ok t => Ok (expand_template t)
    | Err => Err
    end
  else Ok (fun _ => repl).

(** [re.sub(r, repl, s, flags=fl)] for a replacement [repl] that is a
    string. *)
Definition sub_template (fl : flags) (r : regex) (repl : str) (s : str)
  : fallible str :=
  match replacement repl (groups r) with
  | Ok f => Ok (sub fl r f s)
  | Err => Err
  end.

End Substitution.

(** **** The templates of CPython

    The replacement string is cut into tokens, a backslash taking the
    character after it along; the escapes are then read one by one. *)

Inductive token :=
| Ch (c : char)
| Esc (c : char).

Fixpoint tokens (s : str) : fallible (list token) :=
  match s with
  | [] => Ok []
  | c :: t =>
    if (c =? backslash)%N then
      match t with
      | [] => Err                             (* bad escape (end of pattern) *)
      | c' :: t' =>
        match tokens t' with Ok l => Ok (Esc c' :: l) | Err => Err end
      end
    else match tokens t with Ok l => Ok (Ch c :: l) | Err => Err end
  end.

Definition token_text (t : token) : str :=
  match t with Ch c => [c] | Esc c => [backslash; c] end.

(** A token that is a digit below [base], and its value. *)
Definition digit_below (base : N) (t : token) : option N :=
  match t with
  | Ch c => if ((48 <=? c) && (c <? 48 + base))%N then Some (c - 48)%N else None
  | Esc _ => None
  end.

(** [s.getuntil(">", "group name")]: the name and what follows it. *)
Fixpoint getuntil (ts : list token) (name : str) : option (str * list token) :=
  match ts with
  | [] => None                                (* missing >, unterminated name *)
  | Ch 62%N :: ts' =>
    match name with
    | [] => None                              (* missing group name *)
    | _ => Some (name, ts')
    end
  | t :: ts' => getuntil ts' (name ++ token_text t)
  end.

(** The number a group name stands for, when the name is a decimal
    number in ASCII digits.  Any other name raises: no pattern of the
    source names a group.  (CPython up to 3.11 still reads, with a
    deprecation warning, the other spellings of a number that [int]
    accepts, such as a sign before it; from 3.12 on they raise, as
    they do here.  CPython also raises for a number of more digits
    than [int] converts, 4300 unless it is set otherwise; such a name
    is read here.) *)
Fixpoint group_number (name : str) (acc : nat) : option nat :=
  match name with
  | [] => Some acc
  | c :: t =>
    match digit_val c with
    | Some d => group_number t (10 * acc + d)
    | None => None
    end
  end.

(** The escapes that stand for one character. *)
Definition template_escape (c : char) : option char :=
  if (c =? 97)%N then Some 7%N              (* \a *)
  else if (c =? 98)%N then Some 8%N         (* \b *)
  else if (c =? 102)%N then Some 12%N       (* \f *)
  else if (c =? 110)%N then Some 10%N       (* \n *)
  else if (c =? 114)%N then Some 13%N       (* \r *)
  else if (c =? 116)%N then Some 9%N        (* \t *)
  else if (c =? 118)%N then Some 11%N       (* \v *)
  else if (c =? backslash)%N then Some backslash
  else None.

Definition ascii_letter (c : char) : bool :=
  ((65 <=? c) && (c <=? 90) || (97 <=? c) && (c <=? 122))%N.

Definition addgroup (index n_groups : nat) (rest : fallible template)
  : fallible template :=
  if n_groups <? index then Err                (* invalid group reference *)
  else match rest with Ok t => Ok (GroupRef index :: t) | Err => Err end.

Definition lappend (s : str) (rest : fallible template) : fallible template :=
  match rest with Ok t => Ok (Literal s :: t) | Err => Err end.

(** [parse_template] on the tokens.  Each turn takes a token or more,
    so the number of tokens is fuel enough. *)
Fixpoint parse_tokens (fuel : nat) (n_groups : nat) (ts : list token)
  : fallible template :=
  match fuel with
  | O => Ok []
  | S fuel' =>
    let continue := parse_tokens fuel' n_groups in
    match ts with
    | [] => Ok []
    | Ch c :: ts' => lappend [c] (continue ts')
    | Esc c :: ts' =>
      if (c =? 103)%N then
        (* \g<name> *)
        match ts' with
        | Ch 60%N :: ts2 =>
          match getuntil ts2 [] with
          | Some (name, ts3) =>
            match group_number name 0 with
            | Some index => addgroup index n_groups (continue ts3)
            | None => Err
            end
          | None => Err
          end
        | _ => Err                           (* missing < *)
        end
      else if (c =? 48)%N then
        (* \0 and an octal number of up to two digits more *)
        match ts' with
        | d1 :: ts2 =>
          match digit_below 8 d1 with
          | Some v1 =>
            match ts2 with
            | d2 :: ts3 =>
              match digit_below 8 d2 with
              | Some v2 => lappend [N.land (v1 * 8 + v2) 255] (continue ts3)
              | None => lappend [v1] (continue ts2)
              end
            | [] => lappend [v1] (continue ts2)
            end
          | None => lappend [0%N] (continue ts')
          end
        | [] => lappend [0%N] (continue ts')
        end
      else
        match digit_below 10 (Ch c) with
        | Some v0 =>
          (* a group of one or two digits, or an octal number of three *)
          match ts' with
          | d1 :: ts2 =>
            match digit_below 10 d1 with
            | Some v1 =>
              match digit_below 8 (Ch c), digit_below 8 d1, ts2 with
              | Some _, Some _, d2 :: ts3 =>
                match digit_below 8 d2 with
                | Some v2 =>
                  if (255 <? v0 * 64 + v1 * 8 + v2)%N then Err
                  else lappend [(v0 * 64 + v1 * 8 + v2)%N] (continue ts3)
                | None => addgroup (N.to_nat (v0 * 10 + v1)) n_groups (continue ts2)
                end
              | _, _, _ => addgroup (N.to_nat (v0 * 10 + v1)) n_groups (continue ts2)
              end
            | None => addgroup (N.to_nat v0) n_groups (continue ts')
            end
          | [] => addgroup (N.to_nat v0) n_groups (continue ts')
          end
        | None =>
          match template_escape c with
          | Some x => lappend [x] (continue ts')
          | None =>
            if ascii_letter c then Err        (* bad escape *)
            else lappend [backslash; c] (continue ts')
          end
        end
    end
  end.

Definition py_parse_template (repl : str) (n_groups : nat) : fallible template :=
  match tokens repl with
  | Ok ts => parse_tokens (S (length ts)) n_groups ts
  | Err => Err
  end.

End Re.

(** ** The character database for Latin text

    CPython's tables for the code points up to U+017F (Basic Latin,
    Latin-1 Supplement, Latin Extended-A), which cover the Polish and
    English text the program is written for.  Code points above are
    left uncased and outside [\w] and [\d]. *)

Module Latin.
Local Open Scope N_scope.

Definition between (lo hi c : N) : bool := (lo <=? c) && (c <=? hi).

Definition is_upper (c : char) : bool :=
  between 65 90 c
  || (between 192 222 c && negb (c =? 215))
  || (between 256 311 c && N.even c)
  || (between 313 328 c && N.odd c)
  || (between 330 375 c && N.even c)
  || (c =? 376)
  || (between 377 382 c && N.odd c).

Definition is_lower (c : char) : bool :=
  between 97 122 c
  || (c =? 170) || (c =? 181) || (c =? 186)
  || (between 223 255 c && negb (c =? 247))
  || (between 256 311 c && N.odd c)
  || (c =? 312)
  || (between 313 328 c && N.even c)
  || (c =? 329)
  || (between 330 375 c && N.odd c)
  || (between 377 382 c && N.even c)
  || (c =? 383).

Definition is_alnum (c : char) : bool :=
  between 48 57 c || between 65 90 c || between 97 122 c
  || (c =? 170) || (c =? 178) || (c =? 179) || (c =? 181)
  || (c =? 185) || (c =? 186) || between 188 190 c
  || (between 192 383 c && negb (c =? 215) && negb (c =? 247)).

Definition is_decimal (c : char) : bool := between 48 57 c.

Definition to_lower (c : char) : char :=
  if between 65 90 c then c + 32
  else if between 192 222 c && negb (c =? 215) then c + 32
  else if c =? 304 then 105
  else if c =? 376 then 255
  else if is_upper c then c + 1
  else c.

Definition to_upper (c : char) : char :=
  if between 97 122 c then c - 32
  else if c =? 181 then 924
  else if between 224 254 c && negb (c =? 247) then c - 32
  else if c =? 255 then 376
  else if c =? 305 then 73
  else if c =? 383 then 83
  else if (c =? 312) || (c =? 329) || (c =? 223) || (c =? 170) || (c =? 186) then c
  else if is_lower c then c - 1
  else c.

(** [str.lower()]: U+0130 is the one code point of the range whose
    lower case is two code points. *)
Definition lower (s : str) : str :=
  flat_map (fun c => if c =? 304 then [105; 775] else [to_lower c]) s.

(** [str.upper()]: sharp s and U+0149 expand to two code points. *)
Definition upper (s : str) : str :=
  flat_map (fun c => if c =? 223 then [83; 83]
                     else if c =? 329 then [700; 78]
                     else [to_upper c]) s.

(** [str.isupper()]: some cased character, and none in lower case. *)
Definition isupper (s : str) : bool :=
  existsb is_upper s && negb (existsb is_lower s).

(** The characters [re] takes for a lower-case character under
    IGNORECASE besides itself. *)
Definition case_fix (c : char) : list char :=
  if c =? 105 then [305]
  else if c =? 305 then [105]
  else if c =? 115 then [383]
  else if c =? 383 then [115]
  else if c =? 181 then [956]
  else [].

(** [str.capitalize()]: the first character in title case, which is
    its upper case but for sharp s, the rest in lower case. *)
Definition capitalize (s : str) : str :=
  match s with
  | [] => []
  | c :: t => (if c =? 223 then [83; 115] else upper [c]) ++ lower t
  end.

End Latin.

#[export] Instance py_unicode : UnicodeDB := {|
  isalnum := Latin.is_alnum;
  isdecimal := Latin.is_decimal;
  tolower := Latin.to_lower;
  casefix := Latin.case_fix;
  str_lower := Latin.lower;
  str_upper := Latin.upper;
  str_isupper := Latin.isupper;
  str_capitalize := Latin.capitalize
|}.

(** The replacement templates as CPython reads them. *)
#[export] Instance py_templates : Re.Templates := {|
  Re.parse_template := Re.py_parse_template
|}.

(** ** Dictionaries

    A Python [dict] keeps its keys in insertion order; writing to a key
    that is present replaces its value and leaves its place unchanged. *)

Fixpoint str_beq (a b : str) : bool :=
  match a, b with
  | [], [] => true
  | x :: a', y :: b' => (x =? y)%N && str_beq a' b'
  | _, _ => false
  end.

Definition dict (V : Type) := list (str * V).

Fixpoint dict_set {V} (k : str) (v : V) (d : dict V) : dict V :=
  match d with
  | [] => [(k, v)]
  | (k', v') :: t =>
    if str_beq k' k then (k', v) :: t else (k', v') :: dict_set k v t
  end.

Fixpoint dict_get {V} (d : dict V) (k : str) : option V :=
  match d with
  | [] => None
  | (k', v) :: t => if str_beq k' k then Some v else dict_get t k
  end.

Definition keys {V} (d : dict V) : list str := map fst d.

(** A dict display [{k1: v1, k2: v2, ...}] *)
Definition dict_of {V} (items : list (str * V)) : dict V :=
  fold_left (fun d kv => dict_set (fst kv) (snd kv) d) items [].

Definition literal_table (items : list (string * string)) : dict str :=
  dict_of (map (fun kv => (u (fst kv), u (snd kv))) items).

(** ** text_normalizer.py *)

Module TextNormalizer.

(** Polish phonetic pronunciations for common tech terms *)
Definition POLISH_PRONUNCIATIONS : dict str := literal_table [
  ("AWS", "a wu es");
  ("GCP", "dżi si pi");
  ("Azure", "ażur");
  ("Node.js", "nołd dżej es");
  ("node.js", "nołd dżej es");
  ("NodeJS", "nołd dżej es");
  ("React.js", "riakt dżej es");
  ("react.js", "riakt dżej es");
  ("Vue.js", "wju dżej es");
  ("vue.js", "wju dżej es");
  ("Next.js", "nekst dżej es");
  ("next.js", "nekst dżej es");
  ("Express.js", "ekspres dżej es");
  ("Nuxt.js", "nakst dżej es");
  ("Three.js", "tri dżej es");
  ("D3.js", "di tri dżej es");
  ("JS", "dżej es");
  ("JavaScript", "dżawa skrypt");
  ("TypeScript", "tajp skrypt");
  ("Python", "pajton");
  ("PyTorch", "paj torch");
  ("NumPy", "nam paj");
  ("SciPy", "saj paj");
  ("API", "A P I");
  ("APIs", "A P I");
  ("REST", "rest");
  ("RESTful", "restful");
  ("GraphQL", "graf kju el");
  ("gRPC", "dżi ar pi si");
  ("HTTP", "ha te te pe");
  ("HTTPS", "ha te te pe es");
  ("WebSocket", "łeb soket");
  ("OAuth", "o ałf");
  ("JWT", "dżej dablju ti");
  ("JSON", "dżejson");
  ("YAML", "jamel");
  ("XML", "iks em el");
  ("HTML", "ha te em el");
  ("CSS", "si es es");
  ("SQL", "es kju el");
  ("NoSQL", "no es kju el");
  ("AI", "A I");
  ("ML", "em el");
  ("LLM", "el el em");
  ("LLMs", "el el emy");
  ("GPT", "dżi pi ti");
  ("GPT-4", "dżi pi ti cztery");
  ("GPT-5", "dżi pi ti pięć");
  ("ChatGPT", "czat dżi pi ti");
  ("OpenAI", "open A I");
  ("NLP", "en el pi");
  ("GPU", "dżi pi ju");
  ("GPUs", "dżi pi ju");
  ("CPU", "si pi ju");
  ("TPU", "ti pi ju");
  ("CUDA", "kuda");
  ("CNN", "si en en");
  ("RNN", "ar en en");
  ("LSTM", "el es ti em");
  ("RAG", "rag");
  ("TTS", "ti ti es");
  ("STT", "es ti ti");
  ("DevOps", "dewops");
  ("CI/CD", "si aj si di");
  ("CI", "si aj");
  ("CD", "si di");
  ("K8s", "kubernetes");
  ("k8s", "kubernetes");
  ("Docker", "doker");
  ("VM", "wi em");
  ("VMs", "wi emy");
  ("VPC", "wi pi si");
  ("EC2", "i si tu");
  ("S3", "es trzy");
  ("RDS", "ar di es");
  ("ECS", "i si es");
  ("EKS", "i kej es");
  ("IAM", "aj ej em");
  ("CDN", "si di en");
  ("DNS", "di en es");
  ("IP", "aj pi");
  ("SSH", "es es hasz");
  ("SSL", "es es el");
  ("TLS", "ti el es");
  ("VPN", "wi pi en");
  ("PostgreSQL", "postgres kju el");
  ("MySQL", "maj es kju el");
  ("MongoDB", "mongo di bi");
  ("Redis", "redis");
  ("DynamoDB", "dynamo di bi");
  ("SQLite", "es kju lajt");
  ("Git", "git");
  ("GitHub", "git hab");
  ("GitLab", "git lab");
  ("PR", "pi ar");
  ("PRs", "pi ary");
  ("Microsoft", "majkrosoft");
  ("Google", "gugl");
  ("Amazon", "amazon");
  ("Netflix", "netfliks");
  ("Spotify", "spotifaj");
  ("Slack", "slak");
  ("Zoom", "zum");
  ("VS Code", "wi es kod");
  ("VSCode", "wi es kod");
  ("macOS", "mak o es");
  ("iOS", "aj o es");
  ("Linux", "linuks");
  ("Ubuntu", "ubuntu");
  ("Windows", "łindołs");
  ("Chrome", "krom");
  ("Firefox", "fajerfoks");
  ("SaaS", "sas");
  ("PaaS", "pas");
  ("IaaS", "jas");
  ("IoT", "aj o ti");
  ("AR", "ej ar");
  ("VR", "wi ar");
  ("XR", "iks ar");
  ("SDK", "es di kej");
  ("IDE", "aj di i");
  ("CLI", "si el aj");
  ("GUI", "dżi ju aj");
  ("UI", "ju aj");
  ("UX", "ju iks");
  ("URL", "ju ar el");
  ("URI", "ju ar aj");
  ("UUID", "ju ju aj di");
  ("regex", "redżeks");
  ("RegEx", "redżeks");
  ("async", "ejsink");
  ("npm", "en pi em");
  ("pip", "pip");
  ("yarn", "jarn");
  ("webpack", "łeb pak");
  ("localhost", "lokal host");
  ("README", "rid mi");
  ("readme", "rid mi");
  ("TODO", "tu du");
  ("FIXME", "fiks mi");
  ("FAQ", "ef ej kju");
  ("etc.", "i tak dalej");
  ("e.g.", "na przykład");
  ("i.e.", "to znaczy");
  ("repository", "re po zy to ri");
  ("repo", "re po");
  ("deployment", "di ploj ment");
  ("deploy", "di ploj");
  ("middleware", "mid l łer");
  ("authentication", "o ten ty fi kej szyn");
  ("auth", "ołf");
  ("refactoring", "ri fak to ring");
  ("refactor", "ri fak tor");
  ("staging", "stej dżing");
  ("backend", "bek end");
  ("frontend", "front end");
  ("legacy", "le ga si");
  ("workflow", "łork floł");
  ("serverless", "ser wer les");
  ("microservices", "maj kro ser wi sys");
  ("microservice", "maj kro ser wis");
  ("containerized", "kon tej ne rajzd");
  ("container", "kon tej ner");
  ("orchestration", "or ke strej szyn");
  ("pipeline", "pajp lajn");
  ("CI/CD", "si aj si di");
  ("DevOps", "dew ops");
  ("GitOps", "git ops");
  ("branch", "brancz");
  ("merge", "merdż");
  ("commit", "ko mit");
  ("push", "pusz");
  ("pull", "pul");
  ("clone", "klon");
  ("fork", "fork");
  ("issue", "i szu");
  ("sprint", "sprint");
  ("scrum", "skram");
  ("agile", "a dżajl");
  ("kanban", "kan ban");
  ("feature", "fi czer");
  ("bug", "bag");
  ("hotfix", "hot fiks");
  ("release", "ri lis");
  ("rollback", "rol bek");
  ("downtime", "dałn tajm");
  ("uptime", "ap tajm");
  ("latency", "lej ten si");
  ("throughput", "tru put");
  ("scalability", "skej la bi li ti");
  ("resilience", "re zy ljens");
  ("monitoring", "mo ni to ring");
  ("logging", "lo ging");
  ("tracing", "trej sing");
  ("debugging", "di ba ging");
  ("profiling", "pro faj ling");
  ("benchmarking", "bencz mar king");
  ("caching", "ke szing");
  ("cache", "kesz");
  ("database", "dej ta bejs");
  ("query", "kłi ri");
  ("schema", "ski ma");
  ("migration", "maj grej szyn");
  ("backup", "bek ap");
  ("restore", "ri stor");
  ("snapshot", "snep szot");
  ("cluster", "kla ster");
  ("node", "nołd");
  ("pod", "pod");
  ("namespace", "nejm spejs");
  ("ingress", "in gres");
  ("egress", "i gres");
  ("load balancer", "lołd ba lan ser");
  ("proxy", "prok si");
  ("gateway", "gejt łej");
  ("endpoint", "end pojnt");
  ("webhook", "łeb huk");
  ("payload", "pej lołd");
  ("header", "he der");
  ("token", "to ken");
  ("session", "se szyn");
  ("cookie", "ku ki");
  ("SSL", "es es el");
  ("TLS", "ti el es");
  ("certificate", "ser ty fi kat");
  ("encryption", "en kryp szyn");
  ("decryption", "di kryp szyn");
  ("hashing", "he szing");
  ("hash", "hesz");
  ("salt", "solt");
  ("password", "pas łord");
  ("credentials", "kre den szals");
  ("permission", "per mi szyn");
  ("role", "rol");
  ("policy", "po li si");
  ("compliance", "kom plaj ens");
  ("audit", "o dit");
  ("vulnerability", "wul ne ra bi li ti");
  ("exploit", "eks plojt");
  ("patch", "pecz");
  ("update", "ap dejt");
  ("upgrade", "ap grejd");
  ("downgrade", "dałn grejd");
  ("version", "wer żyn");
  ("changelog", "czejndż log");
  ("readme", "rid mi");
  ("documentation", "do kju men tej szyn");
  ("tutorial", "tju to rial");
  ("onboarding", "on bor ding");
  ("boilerplate", "boj ler plejt");
  ("scaffold", "ska fold");
  ("template", "tem plejt");
  ("snippet", "sni pet");
  ("library", "laj bre ri");
  ("package", "pa kidż");
  ("module", "mo djul");
  ("import", "im port");
  ("export", "eks port");
  ("dependency", "di pen den si");
  ("dependencies", "di pen den sis");
  ("runtime", "ran tajm");
  ("compile", "kom pajl");
  ("build", "bild");
  ("bundle", "ban dl");
  ("minify", "mi ni faj");
  ("transpile", "trans pajl");
  ("lint", "lint");
  ("linter", "lin ter");
  ("formatter", "for ma ter");
  ("prettier", "pri ti er");
  ("eslint", "i es lint");
  ("webpack", "łeb pek");
  ("vite", "wit");
  ("rollup", "rol ap");
  ("esbuild", "i es bild");
  ("turbopack", "tur bo pek");
  ("CloudWatch", "klałd łocz");
  ("cloudwatch", "klałd łocz");
  ("CloudFront", "klałd front");
  ("CloudFormation", "klałd for mej szyn");
  ("Lambda", "lam da");
  ("lambda", "lam da");
  ("DynamoDB", "daj na mo di bi");
  ("S3", "es tri");
  ("EC2", "i si tu");
  ("ECS", "i si es");
  ("EKS", "i kej es");
  ("RDS", "ar di es");
  ("SQS", "es kju es");
  ("SNS", "es en es");
  ("IAM", "aj em");
  ("VPC", "wi pi si");
  ("ELB", "i el bi");
  ("ALB", "ej el bi");
  ("NLB", "en el bi");
  ("Route53", "rut fifty tri");
  ("Cognito", "kog ni to");
  ("Amplify", "em pli faj");
  ("AppSync", "ep sink");
  ("Athena", "a te na");
  ("Redshift", "red szift");
  ("Glue", "glu");
  ("Kinesis", "ki ni sis");
  ("SageMaker", "sejdż mej ker");
  ("Bedrock", "bed rok");
  ("CodePipeline", "kołd pajp lajn");
  ("CodeBuild", "kołd bild");
  ("CodeDeploy", "kołd di ploj");
  ("environment", "en waj ron ment");
  ("function", "fan kszyn");
  ("request", "ri kłest");
  ("response", "ri spons");
  ("review", "ri wju");
  ("callback", "kol bek");
  ("promise", "pro mis");
  ("async", "ej sink");
  ("await", "a łejt");
  ("fetch", "fecz");
  ("render", "ren der");
  ("component", "kom po nent");
  ("props", "props");
  ("state", "stejt");
  ("hook", "huk");
  ("effect", "i fekt");
  ("context", "kon tekst");
  ("provider", "pro waj der");
  ("consumer", "kon sju mer");
  ("reducer", "ri dju ser");
  ("action", "ek szyn");
  ("dispatch", "dis pecz");
  ("selector", "se lek tor");
  ("middleware", "mid l łer");
  ("store", "stor");
  ("slice", "slajs");
  ("thunk", "tank");
  ("saga", "sa ga")
]%string.

(** English phonetic pronunciations *)
Definition ENGLISH_PRONUNCIATIONS : dict str := literal_table [
  ("AWS", "A W S");
  ("API", "A P I");
  ("APIs", "A P Is");
  ("Node.js", "node J S");
  ("node.js", "node J S");
  ("AI", "A I");
  ("ML", "M L");
  ("LLM", "L L M");
  ("GPU", "G P U");
  ("CPU", "C P U")
]%string.

(** Words that XTTS tends to spell out instead of reading *)
Definition XTTS_SPELLING_FIXES : dict str := literal_table [
  ("chce", "hce");
  ("chcę", "hcę");
  ("chcesz", "hcesz");
  ("chcemy", "hcemy");
  ("chcą", "hcą");
  ("chciał", "hciał");
  ("chciała", "hciała");
  ("chciałem", "hciałem");
  ("chciałbym", "hciałbym");
  ("szcz", "szc")
]%string.

(** Abbreviations that must be expanded *)
Definition ABBREVIATION_EXPANSIONS : dict str := literal_table [
  ("m.in.", "między innymi");
  ("np.", "na przykład");
  ("tzw.", "tak zwany");
  ("tzn.", "to znaczy");
  ("itp.", "i tym podobne");
  ("itd.", "i tak dalej");
  ("wg", "według");
  ("ok.", "około");
  ("dr", "doktor");
  ("dr.", "doktor");
  ("mgr", "magister");
  ("mgr.", "magister");
  ("inż.", "inżynier");
  ("prof.", "profesor");
  ("godz.", "godzina");
  ("min.", "minut");
  ("sek.", "sekund");
  ("tys.", "tysięcy");
  ("mln", "milionów");
  ("mld", "miliardów");
  ("zł", "złotych");
  ("pkt", "punktów");
  ("pkt.", "punktów");
  ("r.", "roku");
  ("w.", "wieku");
  ("ub.", "ubiegłego");
  ("br.", "bieżącego roku");
  ("j.w.", "jak wyżej");
  ("c.d.", "ciąg dalszy");
  ("c.d.n.", "ciąg dalszy nastąpi");
  ("b.r.", "bieżącego roku");
  ("dn.", "dnia");
  ("ds.", "do spraw");
  ("tj.", "to jest");
  ("pn.", "pod nazwą");
  ("dot.", "dotyczący");
  ("zob.", "zobacz");
  ("por.", "porównaj");
  ("pt.", "pod tytułem");
  ("jw.", "jak wyżej");
  ("dyr.", "dyrektor");
  ("zast.", "zastępca");
  ("prez.", "prezes");
  ("przew.", "przewodniczący")
]%string.

(** [sorted(terms, key=len, reverse=True)]: a stable sort, so terms of
    equal length keep their order. *)
Fixpoint insert_by_len (x : str) (l : list str) : list str :=
  match l with
  | [] => [x]
  | y :: t =>
    if length y <? length x then x :: y :: t else y :: insert_by_len x t
  end.

Definition sorted_longest_first (terms : list str) : list str :=
  fold_left (fun acc x => insert_by_len x acc) terms [].

(** The two tables are globals of the module, which
    [add_custom_pronunciation] writes to. *)
Record tables := { polish : dict str; english : dict str }.

(** The tables as the module defines them. *)
Definition initial_tables : tables :=
  {| polish := POLISH_PRONUNCIATIONS; english := ENGLISH_PRONUNCIATIONS |}.

(** Add a custom pronunciation mapping. *)
Definition add_custom_pronunciation (term pronunciation language : str)
           (g : tables) : tables :=
  if str_beq language (u "pl")
  then {| polish := dict_set term pronunciation (polish g); english := english g |}
  else {| polish := polish g; english := dict_set term pronunciation (english g) |}.

Section WithUnicode.
Context {U : UnicodeDB} {T : Re.Templates}.

(** The body of the loop of [normalize_text_for_tts]: the
    substitution of one term.  The pronunciation is handed to
    [re.sub] as the replacement string, so it is read as a template:
    a bad one raises, whether the term occurs or not. *)
Definition term_flags (term : str) : Re.flags :=
  if contains (u ".") term then Re.IGNORECASE else Re.no_flags.

Definition term_pattern (term : str) : Re.regex :=
  if contains (u ".") term then
    (* Escape the dot for regex and match exactly *)
    Re.escape term
  else
    (* Use word boundaries for regular terms *)
    Re.seq [Re.compile "\b"; Re.escape term; Re.compile "\b"].

Definition substitute_term (pronunciations : dict str) (result term : str)
  : fallible str :=
  match dict_get pronunciations term with
  | None => Ok result
  | Some pronunciation =>
    Re.sub_template (term_flags term) (term_pattern term) pronunciation result
  end.

(** [for term in sorted_terms: ...]: the loop ends at the first
    substitution that raises. *)
Fixpoint substitute_all (pronunciations : dict str) (terms : list str)
         (result : str) : fallible str :=
  match terms with
  | [] => Ok result
  | term :: terms' =>
    match substitute_term pronunciations result term with
    | Ok result' => substitute_all pronunciations terms' result'
    | Err => Err
    end
  end.


Definition pronunciations_for (language : str) : dict str :=
  if str_beq language (u "pl") then POLISH_PRONUNCIATIONS
  else ENGLISH_PRONUNCIATIONS.

(** The order in which the terms of a table are substituted. *)
Definition sorted_terms (pronunciations : dict str) : list str :=
  sorted_longest_first (keys pronunciations).

Definition normalize_with (pronunciations : dict str) (text : str)
  : fallible str :=
  match substitute_all pronunciations (sorted_terms pronunciations) text with
  | Ok result =>
    (* Clean up multiple spaces *)
    Ok (Re.sub Re.no_flags (Re.compile "\s+") (fun _ => u " ") result)
  | Err => Err
  end.

(** [normalize_text_for_tts] on the tables as the module defines
    them. *)
Definition normalize_text_for_tts (text language : str) : fallible str :=
  normalize_with (pronunciations_for language) text.

(** [normalize_text_for_tts] when the tables are [g]: the function
    reads the globals at the time of the call. *)
Definition pronunciations_in (g : tables) (language : str) : dict str :=
  if str_beq language (u "pl") then polish g else english g.

Definition normalize_text_for_tts_in (g : tables) (text language : str)
  : fallible str :=
  normalize_with (pronunciations_in g language) text.

(** A substitution that deletes what matches. *)
Definition remove (fl : Re.flags) (pattern : string) (s : str) : str :=
  Re.sub fl (Re.compile pattern) (fun _ => []) s.

Definition MI := Re.flag_or Re.MULTILINE Re.IGNORECASE.

Definition clean_script_for_tts (text : str) : str :=
  let result := text in
  (* Remove Markdown headers *)
  let result := remove Re.MULTILINE "^#{1,6}\s+.*?$" result in
  (* Remove speaker labels - various formats *)
  let result :=
    remove Re.IGNORECASE
           "\[(?:HOST|CO-HOST|PROWADZĄCY|WSPÓŁPROWADZĄCY|H|C)\][\s:]*" result in
  let result :=
    remove MI "^(?:HOST|CO-HOST|PROWADZĄCY|WSPÓŁPROWADZĄCY|Host|Co-Host)[:\s]+"
           result in
  (* Remove **bold** markers *)
  let result :=
    Re.sub Re.no_flags (Re.compile "\*\*([^*]+)\*\*")
           (fun m => Re.group m 1) result in
  let result := remove Re.no_flags "\*+" result in
  (* Remove continuation markers in Polish and English *)
  let result :=
    remove Re.IGNORECASE
           "(?:kontynuacja|continuation|część\s*\d+|part\s*\d+)[\s:]*" result in
  (* Remove stage directions in parentheses *)
  let result := remove Re.no_flags "\([^)]{1,30}\)" result in
  (* Remove empty brackets and parentheses *)
  let result := remove Re.no_flags "\[\s*\]|\(\s*\)" result in
  (* Remove lines that are just metadata *)
  let result :=
    remove MI "^(?:INTRO|OUTRO|TEMAT\s*\d*|TOPIC\s*\d*|SEGMENT\s*\d*)[:\s]*$"
           result in
  (* Remove URL-like patterns *)
  let result := remove Re.no_flags "https?://\S+" result in
  (* Remove leftover markdown formatting *)
  let result := remove Re.no_flags "_{2,}|~{2,}|`+" result in
  (* Normalize whitespace *)
  let result :=
    Re.sub Re.no_flags (Re.compile "\n{3,}") (fun _ => [LF; LF]) result in
  let result :=
    Re.sub Re.no_flags (Re.compile "[ \t]+") (fun _ => u " ") result in
  let result := remove Re.MULTILINE "^\s+|\s+$" result in
  strip result.

(** [len(set(ws))] *)
Definition distinct (ws : list str) : nat :=
  length (nodup (list_eq_dec N.eq_dec) ws).

(** [xs[i:j]] for indices within range *)
Definition sublist {A} (xs : list A) (i j : nat) : list A :=
  firstn (j - i) (skipn i xs).

(** [str(n)] for a natural number *)
Fixpoint decimal_go (fuel n : nat) (acc : str) : str :=
  match fuel with
  | O => acc
  | S fuel' =>
    let d := (48 + N.of_nat (n mod 10))%N in
    if n <? 10 then d :: acc else decimal_go fuel' (n / 10) (d :: acc)
  end.

Definition decimal (n : nat) : str := decimal_go (S n) n [].

(** The pattern of the syllable check, for one pattern length. *)
Definition syllable_pattern (pattern_len : nat) : Re.regex :=
  Re.compile_str
    (u "(\S{" ++ decimal pattern_len ++ u "}(?:\s+\S{" ++ decimal pattern_len
       ++ u "})?)\s+\1\s+\1").

(** The counts of the bigram dictionary. *)
Definition count_bigrams (bigrams : list str) : dict nat :=
  fold_left
    (fun counts bg =>
       dict_set bg (match dict_get counts bg with Some n => n | None => 0 end + 1)
                counts)
    bigrams [].

Definition detect_repetition_artifacts_with
           (text : str) (min_repeat_length max_repeats : nat) : bool :=
  let text_lower := str_lower text in
  (* Check for character repetition *)
  if Re.search Re.no_flags (Re.compile "(.)\1{5,}") text_lower then true
  else
    (* Check for word repetition *)
    let words := split_ws text_lower in
    if (max_repeats + 1 <=? length words)
       && existsb
            (fun i =>
               (distinct (sublist words i (i + max_repeats + 1)) =? 1)
               && (2 <=? length (nth i words [])))
            (List.seq 0 (length words - max_repeats))
    then true
    else
      (* Check for syllable/short pattern repetition *)
      if existsb
           (fun pattern_len =>
              Re.search Re.no_flags (syllable_pattern pattern_len) text_lower)
           (List.seq 2 5)
      then true
      else
        (* Check for unusually high ratio of repeated bigrams *)
        if 10 <=? length words then
          let bigrams :=
            map (fun i => nth i words [] ++ u " " ++ nth (i + 1) words [])
                (List.seq 0 (length words - 1)) in
          let bigram_counts := count_bigrams bigrams in
          let max_count := list_max (map snd bigram_counts) in
          (max_repeats <? max_count)
          && PyFloat.int_gt (Z.of_nat max_count)
                            (PyFloat.mul (PyFloat.of_int (Z.of_nat (length bigrams)))
                                         PyFloat.f0_3)
        else false.

(** [detect_repetition_artifacts(text)] with the default parameters *)
Definition detect_repetition_artifacts (text : str) : bool :=
  detect_repetition_artifacts_with text 4 3.

(** The callable [replace_preserve_case] of [fix_xtts_glitches] *)
Definition replace_preserve_case (fixed : str) (m : Re.rmatch_t) : str :=
  let matched := Re.group0 m in
  if str_isupper matched then str_upper fixed
  else if str_isupper (firstn 1 matched) then str_capitalize fixed
  else fixed.

Definition fix_xtts_glitches (text : str) : str :=
  let result := text in
  (* 1. Expand abbreviations *)
  let result :=
    fold_left
      (fun result kv =>
         let '(abbrev, expansion) := kv in
         Re.sub Re.IGNORECASE
                (Re.seq [Re.compile "(?<![a-zA-ZąćęłńóśźżĄĆĘŁŃÓŚŹŻ])";
                         Re.escape abbrev;
                         Re.compile "(?=\s|$|[,;:!?])"])
                (fun _ => expansion) result)
      ABBREVIATION_EXPANSIONS result in
  (* 2. Fix spelling-prone words *)
  let result :=
    fold_left
      (fun result kv =>
         let '(word, fixed) := kv in
         Re.sub Re.IGNORECASE
                (Re.seq [Re.compile "\b"; Re.escape word; Re.compile "\b"])
                (replace_preserve_case fixed) result)
      XTTS_SPELLING_FIXES result in
  (* 3. Normalize multiple spaces *)
  let result :=
    Re.sub Re.no_flags (Re.compile "\s{2,}") (fun _ => u " ") result in
  (* 4. Ensure proper sentence endings *)
  let result :=
    Re.sub Re.no_flags
           (Re.compile "(\w{2,})\s+(ale|więc|jednak|natomiast|czyli|dlatego)\s+")
           (fun m => Re.group m 1 ++ u ", " ++ Re.group m 2 ++ u " ") result in
  strip result.

(** [s.rsplit(' ', 1)[0]] *)
Definition before_last_space (s : str) : str :=
  let i := rfind SP s in
  if (i <? 0)%Z then s else slice_to s i.

(** [sanitize_segment_text(text, max_length)] *)
Definition sanitize_segment_text_with (text : str) (max_length : Z) : option str :=
  (* Clean metadata first *)
  let cleaned := clean_script_for_tts text in
  (* Check for artifacts *)
  if detect_repetition_artifacts cleaned then None
  (* Check minimum meaningful content *)
  else if match cleaned with [] => true | _ => false end
          || (len (strip cleaned) <? 10)%Z then None
  else
    (* Apply XTTS glitch fixes *)
    let cleaned := fix_xtts_glitches cleaned in
    (* Truncate overly long segments *)
    if (max_length <? len cleaned)%Z then
      let truncated := slice_to cleaned max_length in
      let last_sentence :=
        Z.max (Z.max (rfind (Re.chr ".") truncated) (rfind (Re.chr "!") truncated))
              (rfind (Re.chr "?") truncated) in
      if PyFloat.int_gt last_sentence
                        (PyFloat.mul (PyFloat.of_int max_length) PyFloat.f0_7)
      (* Found sentence end in last 30% *)
      then Some (slice_to truncated (last_sentence + 1))
      else Some (before_last_space truncated ++ u "...")
    else Some cleaned.

Definition sanitize_segment_text (text : str) : option str :=
  sanitize_segment_text_with text 500.

End WithUnicode.

End TextNormalizer.

(** ** llm_text_normalizer.py *)

Module LlmTextNormalizer.

(** Polish case endings often added to English words *)
Definition suffixes : list str :=
  map u ["ów"; "om"; "ami"; "ach"; "em"; "ie"; "owi"; "a"; "u"; "y"; "ę"; "ą";
         "iem"; "em"; "ów"; "ami"; "ach"; "om"]%string.

(** Strip common Polish grammatical suffixes from English words:
    the first suffix, longest first, that the word ends with and that
    leaves more than two characters. *)
Definition _strip_polish_suffix (word : str) : str :=
  match find (fun suffix =>
                endswith suffix word && (len suffix + 2 <? len word)%Z)
             (TextNormalizer.sorted_longest_first suffixes) with
  | Some suffix => slice_to word (- len suffix)
  | None => word
  end.

End LlmTextNormalizer.

(** ** models.py *)

Module Models.

(** Podcast speakers. *)
Inductive Speaker := HOST | CO_HOST.

(** Single podcast dialogue segment.  The duration is only stored. *)
Record Segment := {
  speaker : Speaker;
  text : str;
  audio_path : option str;
  duration_seconds : option Z
}.

(** [Segment(speaker=s, text=t)] *)
Definition new_segment (s : Speaker) (t : str) : Segment :=
  {| speaker := s; text := t; audio_path := None; duration_seconds := None |}.

(** The values of the dictionaries that [to_dict] builds and
    [from_dict] reads. *)
Inductive value :=
| VNone
| VStr (s : str)
| VNum (n : Z).

(** [speaker.value] *)
Definition speaker_value (s : Speaker) : str :=
  match s with HOST => u "host" | CO_HOST => u "co_host" end.

(** [Speaker(v)]: the speaker with that value, if there is one. *)
Definition Speaker_of (v : value) : option Speaker :=
  match v with
  | VStr s =>
    if str_beq s (u "host") then Some HOST
    else if str_beq s (u "co_host") then Some CO_HOST
    else None
  | _ => None
  end.

Definition optional_str (o : option str) : value :=
  match o with Some s => VStr s | None => VNone end.

Definition optional_num (o : option Z) : value :=
  match o with Some n => VNum n | None => VNone end.

(** Convert to dictionary for serialization. *)
Definition to_dict (self : Segment) : dict value :=
  dict_of [(u "speaker", VStr (speaker_value (speaker self)));
           (u "text", VStr (text self));
           (u "audio_path", optional_str (audio_path self));
           (u "duration_seconds", optional_num (duration_seconds self))].

Inductive error :=
| KeyError (key : str)       (* [data[key]] for a key that is missing *)
| ValueError.                (* [Speaker(v)] for a [v] that is no value of a speaker *)

(** What [from_dict] comes to.  The dataclass does not check the
    types of its fields: a value of another type than the annotation
    of the field is stored as it is.  Segments that hold such values
    are not in this model, and [IllTyped] stands for them. *)
Inductive loaded (A : Type) :=
| Loaded (a : A)
| Raised (e : error)
| IllTyped.
Arguments Loaded {A} a.
Arguments Raised {A} e.
Arguments IllTyped {A}.

(** Create Segment from dictionary. *)
Definition from_dict (data : dict value) : loaded Segment :=
  match dict_get data (u "speaker") with
  | None => Raised (KeyError (u "speaker"))
  | Some v =>
    match Speaker_of v with
    | None => Raised ValueError
    | Some speaker =>
      match dict_get data (u "text") with
      | None => Raised (KeyError (u "text"))
      | Some (VStr text) =>
        (* [data.get("audio_path")], [data.get("duration_seconds")] *)
        match dict_get data (u "audio_path"), dict_get data (u "duration_seconds") with
        | Some (VNum _), _ | _, Some (VStr _) => IllTyped
        | audio_path, duration_seconds =>
          Loaded {| speaker := speaker;
                    text := text;
                    audio_path :=
                      match audio_path with Some (VStr p) => Some p | _ => None end;
                    duration_seconds :=
                      match duration_seconds with Some (VNum n) => Some n | _ => None end |}
        end
      | Some _ => IllTyped
      end
    end
  end.

(** A point in time.  The code stores it and has it formatted. *)
Definition datetime := Z.

(** Complete podcast script with metadata. *)
Record PodcastScript := {
  title : str;
  segments : list Segment;
  source_article_ids : list str;
  language : str;
  generated_at : datetime;
  script_audio_path : option str;
  total_duration_seconds : option Z
}.

(** Number of dialogue segments. *)
Definition segment_count (self : PodcastScript) : Z :=
  Z.of_nat (length (segments self)).

(** Get script as plain text with speaker markers. *)
Definition raw_script (self : PodcastScript) : str :=
  let lines :=
    map (fun segment =>
           let speaker_tag :=
             match speaker segment with HOST => u "[HOST]" | CO_HOST => u "[CO-HOST]" end in
           speaker_tag ++ u " " ++ text segment)
        (segments self) in
  join [LF; LF] lines.

End Models.

(** ** scraper/models.py *)

Module ScraperModels.

(** Scraped article data.  [id] is set from a digest of the url when
    the article is made. *)
Record Article := {
  title : str;
  url : str;
  source : str;
  published : Models.datetime;
  summary : str;
  content : option str;
  scraped_at : option Models.datetime;
  id : str
}.

(** Check if article has scraped content. *)
Definition has_content (self : Article) : bool :=
  match content self with
  | Some c => (0 <? len c)%Z
  | None => false
  end.

(** Get best available text (content or summary). *)
Definition get_text (self : Article) : str :=
  match content self with
  | Some (_ :: _ as c) => c
  | _ => summary self
  end.

End ScraperModels.

(** ** tts_engine.py *)

Module TtsEngine.
Import Models.

(** XTTS character limits by language *)
Definition XTTS_CHAR_LIMITS : dict Z :=
  dict_of [(u "pl", 224); (u "en", 250); (u "de", 250); (u "es", 250);
           (u "fr", 250); (u "it", 250); (u "pt", 250); (u "default", 200)]%Z.

(** One turn of the loop of [_split_long_text]. *)
Inductive turn :=
| Break (chunks : list str)
| Continue (remaining : str) (chunks : list str).

Section WithUnicode.
Context {U : UnicodeDB} {T : Re.Templates}.

(** [list(re.finditer(pattern, chunk))[-1].end()], when there is a match *)
Definition last_break_end (pattern : string) (chunk : str) : option Z :=
  match rev (Re.finditer Re.no_flags (Re.compile pattern) chunk) with
  | [] => None
  | m :: _ => Some (Z.of_nat (Re.m_end m))
  end.

Definition cut (remaining : str) (chunks : list str) (split_pos : Z) : turn :=
  Continue (strip (slice_from remaining split_pos))
           (chunks ++ [strip (slice_to remaining split_pos)]).

Definition split_turn (max_chars : Z) (remaining : str) (chunks : list str) : turn :=
  if (len remaining <=? max_chars)%Z then Break (chunks ++ [remaining])
  else
    (* Find best split point within limit *)
    let chunk := slice_to remaining max_chars in
    (* Try to split at sentence boundary *)
    match last_break_end "[.!?]\s+" chunk with
    | Some split_pos => cut remaining chunks split_pos
    | None =>
      (* Try to split at comma/semicolon *)
      match last_break_end "[,;]\s+" chunk with
      | Some split_pos => cut remaining chunks split_pos
      | None =>
        (* Fall back to word boundary *)
        let last_space := rfind SP chunk in
        if (max_chars / 2 <? last_space)%Z
        then cut remaining chunks last_space
        else
          (* No good break point, just cut at limit *)
          Continue (strip (slice_from remaining max_chars))
                   (chunks ++ [strip chunk])
      end
    end.

(** [while remaining: ...]; [None] when the turns allowed by [fuel]
    do not end the loop. *)
Fixpoint split_loop (fuel : nat) (max_chars : Z) (remaining : str)
         (chunks : list str) : option (list str) :=
  match remaining with
  | [] => Some chunks
  | _ =>
    match fuel with
    | O => None
    | S fuel' =>
      match split_turn max_chars remaining chunks with
      | Break chunks' => Some chunks'
      | Continue remaining' chunks' => split_loop fuel' max_chars remaining' chunks'
      end
    end
  end.

Definition _split_long_text (fuel : nat) (text : str) (max_chars : Z)
  : option (list str) :=
  if (len text <=? max_chars)%Z then Some [text]
  else split_loop fuel max_chars (strip text) [].

(** The engine: its language, and the normaliser that
    [_get_llm_normalizer(self.use_llm_normalizer)] hands out, an
    external service when there is one.  Its [normalize] can raise:
    it hands the replies of the service to [re.sub] as replacement
    templates, outside any [try]. *)
Record TTSEngine := {
  language : str;
  llm_normalizer : option (str -> str -> fallible str)
}.

(** [XTTS_CHAR_LIMITS.get(language, XTTS_CHAR_LIMITS["default"])] *)
Definition char_limit (lang : str) : Z :=
  match dict_get XTTS_CHAR_LIMITS lang with
  | Some n => n
  | None =>
    match dict_get XTTS_CHAR_LIMITS (u "default") with
    | Some n => n
    | None => 0%Z
    end
  end.

(** [int(max_chars * 0.7)] *)
Definition safe_limit_of (max_chars : Z) : Z :=
  PyFloat.to_int (PyFloat.mul (PyFloat.of_int max_chars) PyFloat.f0_7).

(** The normalised text whose length decides on a split. *)
Definition normalized_text (self : TTSEngine) (sanitized : str) : fallible str :=
  match llm_normalizer self with
  | Some llm_norm => llm_norm sanitized (language self)
  | None => TextNormalizer.normalize_text_for_tts sanitized (language self)
  end.

(** [_split_segment_if_needed]: the list it returns, [Err] when the
    normalisation raises; no result at all when the fuel of the
    chunker runs out. *)
Definition _split_segment_if_needed (fuel : nat) (self : TTSEngine)
           (segment : Segment) : option (fallible (list Segment)) :=
  (* First sanitize and normalize to check actual length *)
  match TextNormalizer.sanitize_segment_text (text segment) with
  | None | Some [] => Some (Ok [segment])
  | Some sanitized =>
    match normalized_text self sanitized with
    | Err => Some Err
    | Ok normalized =>
      let max_chars := char_limit (language self) in
      if (len normalized <=? max_chars)%Z then Some (Ok [segment])
      else
        (* Need to split - use original sanitized text to keep context *)
        let safe_limit := safe_limit_of max_chars in
        match _split_long_text fuel sanitized safe_limit with
        | Some text_chunks =>
          Some (Ok (map (fun chunk => new_segment (speaker segment) chunk)
                        text_chunks))
        | None => None
        end
    end
  end.

(** The pre-processing of [synthesize_script]: split any segments
    that exceed character limit.  An exception ends the loop. *)
Fixpoint processed_segments (fuel : nat) (self : TTSEngine)
         (segments : list Segment) : option (fallible (list Segment)) :=
  match segments with
  | [] => Some (Ok [])
  | segment :: segments' =>
    match _split_segment_if_needed fuel self segment with
    | Some (Ok split_segments) =>
      match processed_segments fuel self segments' with
      | Some (Ok processed) => Some (Ok (split_segments ++ processed))
      | Some Err => Some Err
      | None => None
      end
    | Some Err => Some Err
    | None => None
    end
  end.

End WithUnicode.

End TtsEngine.

(** ** script_generator.py *)

Module ScriptGenerator.
Import Models.

(** *** The language model service

    [requests.post] is the one effect of the generator.  The service
    is an arbitrary function of the requests made so far; the state
    threaded through the generator is that list of requests. *)

Inductive request :=
| ScriptRequest (language articles_text : str)
  (* the system and user prompt of [_call_llm] *)
| ContinuationRequest (language last_part : str) (articles_text : option str).
  (* the prompt of [_call_llm_continuation]: the end of the script so
     far and, in the Polish prompt, the start of the articles *)

(** A response: its status, its text, and
    [response.json()["message"]["content"]] when the body has one. *)
Record response := {
  status_code : Z;
  response_text : str;
  content : option str
}.

Inductive exn :=
| RuntimeError (message : str)
| RequestException           (* raised by [requests.post] *)
| BodyError.                 (* raised while reading the JSON body *)

Inductive answer :=
| Fails                      (* the transport fails *)
| Replies (r : response).

Inductive outcome (A : Type) :=
| Returns (a : A)
| Raises (e : exn).
Arguments Returns {A} a.
Arguments Raises {A} e.

Definition M (A : Type) := list request -> outcome A * list request.

Definition ret {A} (a : A) : M A := fun log => (Returns a, log).
Definition raise {A} (e : exn) : M A := fun log => (Raises e, log).
Definition bind {A B} (m : M A) (k : A -> M B) : M B :=
  fun log =>
    match m log with
    | (Returns a, log') => k a log'
    | (Raises e, log') => (Raises e, log')
    end.

Notation "x <- m ;; k" := (bind m (fun x => k))
  (at level 61, m at next level, right associativity).

Record ScriptGenerator := { language : str }.

(** The request [_call_llm_continuation] builds. *)
Definition continuation_prompt (self : ScriptGenerator)
           (articles_text existing_script : str) : request :=
  (* Get the last discussed topics to avoid repetition *)
  let last_part :=
    if (3000 <? len existing_script)%Z then slice_from existing_script (-3000)
    else existing_script in
  if str_beq (language self) (u "pl")
  then ContinuationRequest (language self) last_part
                           (Some (slice_to articles_text 20000))
  else ContinuationRequest (language self) last_part None.

Section WithService.
Variable server : list request -> answer.

(** [requests.post(...)] *)
Definition post (req : request) : M response :=
  fun log =>
    let log' := log ++ [req] in
    match server log' with
    | Fails => (Raises RequestException, log')
    | Replies r => (Returns r, log')
    end.

Definition message_content (r : response) : M str :=
  match content r with
  | Some script => ret script
  | None => raise BodyError
  end.

(** Call Ollama API to generate script. *)
Definition _call_llm (self : ScriptGenerator) (articles_text : str) : M str :=
  response <- post (ScriptRequest (language self) articles_text) ;;
  if negb (status_code response =? 200)%Z
  then raise (RuntimeError (u "Ollama API error: " ++ response_text response))
  else message_content response.

(** Request continuation of the script. *)
Definition _call_llm_continuation (self : ScriptGenerator)
           (articles_text existing_script : str) : M str :=
  response <- post (continuation_prompt self articles_text existing_script) ;;
  if negb (status_code response =? 200)%Z
  then ret []
  else message_content response.

(** The loop of [_generate_detailed_script]:
    [while len(main_script) < min_length and
           continuation_count < max_continuations].
    It returns the script and the number of continuations asked for. *)
Fixpoint continuation_loop (self : ScriptGenerator) (articles_text : str)
         (min_length : Z) (attempts_left : nat)
         (main_script : str) (continuation_count : nat) : M (str * nat) :=
  match attempts_left with
  | O => ret (main_script, continuation_count)
  | S attempts_left' =>
    if (len main_script <? min_length)%Z then
      let continuation_count := continuation_count + 1 in
      continuation <- _call_llm_continuation self articles_text main_script ;;
      if match continuation with [] => true | _ => false end
         || (len continuation <? 300)%Z
      then ret (main_script, continuation_count)
      else continuation_loop self articles_text min_length attempts_left'
                             (main_script ++ [LF; LF] ++ continuation)
                             continuation_count
    else ret (main_script, continuation_count)
  end.

(** The assembler with its two bounds as parameters. *)
Definition assemble (self : ScriptGenerator) (articles_text : str)
           (min_length : Z) (max_continuations : nat) : M (str * nat) :=
  (* First call - generate the main script *)
  main_script <- _call_llm self articles_text ;;
  (* Keep requesting continuations until we have enough content *)
  continuation_loop self articles_text min_length max_continuations main_script 0.

(** Generate a detailed script, potentially in multiple LLM calls. *)
Definition _generate_detailed_script (self : ScriptGenerator)
           (articles_text : str) : M str :=
  let min_length := 15000%Z in
  let max_continuations := 5 in
  r <- assemble self articles_text min_length max_continuations ;;
  ret (fst r).

End WithService.

(** *** The articles of the prompt *)

Section WithCalendar.
(** [published.strftime('%Y-%m-%d')] *)
Variable strftime_ymd : datetime -> str.

(** The text of one article in the prompt. *)
Definition article_text (article : ScraperModels.Article) : str :=
  [LF] ++ u "SOURCE: " ++ ScraperModels.source article ++
  [LF] ++ u "DATE: " ++ strftime_ymd (ScraperModels.published article) ++
  [LF] ++ u "TITLE: " ++ ScraperModels.title article ++
  [LF] ++ u "URL: " ++ ScraperModels.url article ++
  [LF] ++ u "CONTENT:" ++
  [LF] ++ ScraperModels.get_text article ++
  [LF] ++ u "---".

(** The loop of [_format_articles]: it ends at the first article
    that does not fit. *)
Fixpoint format_loop (articles : list ScraperModels.Article) (max_chars : Z)
         (lines : list str) (total_chars : Z) : list str :=
  match articles with
  | [] => lines
  | article :: articles' =>
    let article_text := article_text article in
    if (max_chars <? total_chars + len article_text)%Z then lines
    else format_loop articles' max_chars (lines ++ [article_text])
                     (total_chars + len article_text)
  end.

(** Format articles as text for LLM prompt. *)
Definition _format_articles (articles : list ScraperModels.Article)
           (max_chars : Z) : str :=
  join [LF] (format_loop articles max_chars [] 0).

End WithCalendar.

(** *** The segment parser *)

(** The options that go with a pattern. *)
Record opts := {
  single : option string;
  multiline : bool;
  short : bool
}.

Definition no_opts := {| single := None; multiline := false; short := false |}.

(** [HOST] or [CO-HOST] format *)
Definition bracket_pattern : Re.regex :=
  Re.compile "\[(HOST|CO-HOST)\]\s*(.+?)(?=\[(?:HOST|CO-HOST)\]|$)".

(** Try multiple patterns - LLMs use different formats *)
Definition patterns : list (Re.regex * opts) := [
  (bracket_pattern, no_opts);
  (* **HOST:** or **CO-HOST:** format *)
  (Re.compile "\*\*(HOST|CO-HOST)\*\*[:\s]+(.+?)(?=\*\*(?:HOST|CO-HOST)\*\*|$)",
   no_opts);
  (* **Host (H):** or **Co-Host (C):** format (Qwen style) *)
  (Re.compile
     "\*\*(?:Host|HOST)\s*\([HC]\)\*?\*?[:\s]+(.+?)(?=\*\*(?:Host|Co-Host|HOST|CO-HOST)|$)",
   {| single := Some "HOST"%string; multiline := false; short := false |});
  (Re.compile
     "\*\*(?:Co-Host|CO-HOST)\s*\([HC]\)\*?\*?[:\s]+(.+?)(?=\*\*(?:Host|Co-Host|HOST|CO-HOST)|$)",
   {| single := Some "CO-HOST"%string; multiline := false; short := false |});
  (* HOST: or CO-HOST: at line start *)
  (Re.compile "^(HOST|CO-HOST)[:\s]+(.+?)(?=^(?:HOST|CO-HOST)[:\s]|\Z)",
   {| single := None; multiline := true; short := false |});
  (* H: or C: format *)
  (Re.compile "^([HC])[:\s]+(.+?)(?=^[HC][:\s]|\Z)",
   {| single := None; multiline := true; short := true |})
].

Definition loose_pattern : Re.regex :=
  Re.compile "\*\*([^*]+)\*\*[:\s]+(.+?)(?=\*\*[^*]+\*\*|\Z)".

Section WithUnicode.
Context {U : UnicodeDB}.

(** [re.findall(pattern, raw_script, flags)] for one entry of
    [patterns], as the matches found. *)
Definition found_by (entry : Re.regex * opts) (raw_script : str)
  : list Re.rmatch_t :=
  let '(pattern, o) := entry in
  let flags := if multiline o then Re.flag_or Re.DOTALL Re.MULTILINE
               else Re.DOTALL in
  Re.finditer flags pattern raw_script.

(** The (speaker, text) pairs an entry makes of what it found. *)
Definition matches_of (o : opts) (found : list Re.rmatch_t) : list (str * str) :=
  match single o with
  | Some speaker =>
    (* Single speaker pattern - convert to tuples *)
    map (fun m => (u speaker, Re.group m 1)) found
  | None =>
    if short o then
      (* H/C format *)
      map (fun m => (if str_beq (Re.group m 1) (u "H") then u "HOST"
                     else u "CO-HOST",
                     Re.group m 2)) found
    else map (fun m => (Re.group m 1, Re.group m 2)) found
  end.

(** [for pattern, opts in patterns: ... break]: the matches of the
    first pattern that finds any. *)
Fixpoint first_found (entries : list (Re.regex * opts)) (raw_script : str)
  : list (str * str) :=
  match entries with
  | [] => []
  | entry :: entries' =>
    match found_by entry raw_script with
    | [] => first_found entries' raw_script
    | found => matches_of (snd entry) found
    end
  end.

(** Fallback: parse **Speaker:** format more loosely *)
Definition loose_matches (raw_script : str) : list (str * str) :=
  flat_map
    (fun m =>
       let speaker_raw := Re.group m 1 in
       let text := Re.group m 2 in
       let speaker_lower := str_lower speaker_raw in
       if contains (u "host") speaker_lower && negb (contains (u "co") speaker_lower)
       then [(u "HOST", text)]
       else if contains (u "co") speaker_lower || contains (u "guest") speaker_lower
       then [(u "CO-HOST", text)]
       else [])
    (Re.finditer Re.DOTALL loose_pattern raw_script).

(** Last resort fallback: alternating speakers from paragraphs *)
Definition fallback_segments (raw_script : str) : list Segment :=
  let lines :=
    map strip
        (filter (fun l => negb (match strip l with [] => true | _ => false end)
                          && negb (startswith (u "#") l)
                          && negb (startswith (u "*") l))
                (split_on [LF; LF] raw_script)) in
  map (fun il : nat * str =>
         let '(i, line) := il in
         new_segment (if Nat.even i then HOST else CO_HOST) line)
      (combine (List.seq 0 (length (firstn 20 lines))) (firstn 20 lines)).

(** The cleanup of one matched text. *)
Definition clean_match_text (text : str) : str :=
  let clean_text := strip text in
  (* Remove markdown formatting artifacts *)
  let clean_text :=
    strip (TextNormalizer.remove Re.no_flags "\*\*\[.*?\]\*\*" clean_text) in
  let clean_text := strip (TextNormalizer.remove Re.no_flags "\*\*" clean_text) in
  let clean_text := strip (TextNormalizer.remove Re.no_flags "^\*+\s*" clean_text) in
  let clean_text := strip (TextNormalizer.remove Re.no_flags "\s*\*+$" clean_text) in
  (* Remove incomplete sentences at the end *)
  Re.sub Re.no_flags (Re.compile "\s+(?:jest|to|są)\s*$") (fun _ => u ".") clean_text.

(** The final loop of [_parse_script] over the matches. *)
Definition segments_of_matches (matches : list (str * str)) : list Segment :=
  flat_map
    (fun st : str * str =>
       let '(speaker_str, text) := st in
       let speaker := if str_beq speaker_str (u "HOST") then HOST else CO_HOST in
       let clean_text := clean_match_text text in
       (* Skip very short segments *)
       if negb (match clean_text with [] => true | _ => false end)
          && (10 <? len clean_text)%Z
       then [new_segment speaker clean_text]
       else [])
    matches.

(** The matches the cascade settles on: those of the first pattern
    that finds any, and else those of the loose parsing. *)
Definition chosen_matches (raw_script : str) : list (str * str) :=
  match first_found patterns raw_script with
  | [] => loose_matches raw_script
  | matches => matches
  end.

(** Parse raw script text into Segment objects. *)
Definition _parse_script (raw_script : str) : list Segment :=
  match chosen_matches raw_script with
  | [] => fallback_segments raw_script
  | matches => segments_of_matches matches
  end.

End WithUnicode.

End ScriptGenerator.


(** * Vocabulary of the properties *)

(** A measure of texts in which a space weighs less than any other
    character. *)
Definition weight (c : char) : nat := if (c =? 32)%N then 3 else 4.

Definition measure (s : str) : nat := list_sum (map weight s).

(** [f] applied [n] times. *)
Fixpoint iterate {A} (n : nat) (f : A -> A) (x : A) : A :=
  match n with
  | O => x
  | S n' => iterate n' f (f x)
  end.

(** [st'] is reached from [st] by consuming [pre]. *)
Definition reaches (k : nat) (st st' : Re.mstate) : Prop :=
  exists pre, Re.rest st = pre ++ Re.rest st' /\ k <= length pre.

Definition piece_text (p : Re.piece) : str :=
  match p with Re.Gap c => [c] | Re.Hit m => Re.m_text m end.

(** The characters of a text that are not white space, in order. *)
Definition nonws (s : str) : str := filter (fun c => negb (isspace c)) s.

(** A text that ends with a character that is not white space. *)
Definition ends_nonws (s : str) : Prop :=
  exists a c, s = a ++ [c] /\ isspace c = false.

(** Every chunk is within the limit and the chunks hold the
    characters of the text that are not white space, in order. *)
Definition chunks_ok (max_chars : Z) (content : str) (chunks : list str) : Prop :=
  Forall (fun chunk => (len chunk <= max_chars)%Z) chunks
  /\ nonws (concat chunks) = content.

(** [g] is a part of [s]. *)
Definition infix (g s : str) : Prop := exists a b, s = a ++ g ++ b.

(** [st'] is reached from [st], and the groups captured on the way are
    parts of the text consumed. *)
Definition within (st st' : Re.mstate) : Prop :=
  exists pre,
    Re.rest st = pre ++ Re.rest st'
    /\ forall n g, In (n, g) (Re.caps st') -> In (n, g) (Re.caps st) \/ infix g pre.

(** [t] is [s], or is smaller than [s]. *)
Definition shrinks (t s : str) : Prop := t = s \/ measure t < measure s.

Definition render (repl : Re.rmatch_t -> str) (p : Re.piece) : str :=
  match p with Re.Gap c => [c] | Re.Hit m => repl m end.

(** The lower case of one character, for Latin text. *)
Definition lower_char (c : char) : str :=
  if (c =? 304)%N then [105; 775]%N else [Latin.to_lower c].

(** [a] comes before [b] in an order by descending length. *)
Definition not_shorter (a b : str) : Prop := length b <= length a.

(** A response with status 200 that carries a text, and one with
    another status. *)
Definition ok_response (t : str) : ScriptGenerator.response :=
  {| ScriptGenerator.status_code := 200;
     ScriptGenerator.response_text := t;
     ScriptGenerator.content := Some t |}.

Definition error_response (code : Z) (t : str) : ScriptGenerator.response :=
  {| ScriptGenerator.status_code := code;
     ScriptGenerator.response_text := t;
     ScriptGenerator.content := None |}.

(** A service that answers its n-th request with the n-th of a list of
    answers, and fails after the last. *)
Definition scripted (answers : list ScriptGenerator.answer)
  : list ScriptGenerator.request -> ScriptGenerator.answer :=
  fun log => nth (length log - 1) answers ScriptGenerator.Fails.

(** A first call that returns 500 characters and a continuation call
    that returns 250. *)
Definition short_scenario : list ScriptGenerator.request -> ScriptGenerator.answer :=
  scripted
    [ScriptGenerator.Replies (ok_response (repeat 97%N 500));
     ScriptGenerator.Replies (ok_response (repeat 98%N 250))].

(** A first call that succeeds and a continuation call that fails. *)
Definition failing_scenario : list ScriptGenerator.request -> ScriptGenerator.answer :=
  scripted
    [ScriptGenerator.Replies (ok_response (u "[HOST] Witaj w podcaście!"));
     ScriptGenerator.Replies (error_response 500 (u "model not loaded"))].

Definition polish_generator : ScriptGenerator.ScriptGenerator :=
  {| ScriptGenerator.language := u "pl" |}.

(** A segment of 251 characters for an engine without a limit of its
    own language, hence with the default limit of 200. *)
Definition long_segment : Models.Segment :=
  Models.new_segment Models.CO_HOST
    (u "To jest bardzo dlugi tekst, ktory opowiada o wielu rzeczach naraz. Pierwsze zdanie bylo proste! Drugie zdanie jest juz nieco dluzsze i zawiera przecinki, sredniki; a takze inne znaki. Czy trzecie zdanie jest pytaniem? Tak, oczywiscie ze jest pytaniem.").

Definition plain_engine : TtsEngine.TTSEngine :=
  {| TtsEngine.language := u "fi"; TtsEngine.llm_normalizer := None |}.



(** The continuations are replies of the service: each one is the
    content of a reply of status 200 to the request that was made
    with the script so far, after the requests of [log]. *)
Fixpoint continuations_replied
         (server : list ScriptGenerator.request -> ScriptGenerator.answer)
         (self : ScriptGenerator.ScriptGenerator) (articles_text : str)
         (log : list ScriptGenerator.request) (script : str)
         (continuations : list str) : Prop :=
  match continuations with
  | [] => True
  | c :: continuations' =>
    let log1 := log ++ [ScriptGenerator.continuation_prompt self articles_text script] in
    (exists r, server log1 = ScriptGenerator.Replies r
               /\ ScriptGenerator.status_code r = 200%Z
               /\ ScriptGenerator.content r = Some c)
    /\ continuations_replied server self articles_text log1
                             (script ++ [LF; LF] ++ c) continuations'
  end.

(** The requests made once these continuations are accepted. *)
Fixpoint accepted_trace
         (self : ScriptGenerator.ScriptGenerator) (articles_text : str)
         (log : list ScriptGenerator.request) (script : str)
         (continuations : list str) : list ScriptGenerator.request :=
  match continuations with
  | [] => log
  | c :: continuations' =>
    accepted_trace self articles_text
                   (log ++ [ScriptGenerator.continuation_prompt self articles_text script])
                   (script ++ [LF; LF] ++ c) continuations'
  end.

(** The reply that ends the loop: a status other than 200, or a
    content of fewer than 300 characters. *)
Definition turned_down (a : ScriptGenerator.answer) : Prop :=
  exists r, a = ScriptGenerator.Replies r
            /\ (ScriptGenerator.status_code r <> 200%Z
                \/ exists c, ScriptGenerator.content r = Some c /\ (len c < 300)%Z).

(** A first call that returns 500 characters and a continuation call
    that returns 400. *)
Definition accepting_scenario : list ScriptGenerator.request -> ScriptGenerator.answer :=
  scripted
    [ScriptGenerator.Replies (ok_response (repeat 97%N 500));
     ScriptGenerator.Replies (ok_response (repeat 98%N 400))].

Definition starts_nonws (s : str) : Prop :=
  exists c t, s = c :: t /\ isspace c = false.

(** The characters of the lines, without the separators between them. *)
Definition total_length (lines : list str) : Z :=
  fold_right (fun line n => (len line + n)%Z) 0%Z lines.

(** The character before a position that lies [a] further on. *)
Definition prev_after (p : option char) (a : str) : option char :=
  fold_left (fun _ c => Some c) a p.

(** The position reached from [st] by going over [run], with [t] ahead. *)
Definition moved (st : Re.mstate) (run t : str) : Re.mstate :=
  {| Re.prev := prev_after (Re.prev st) run; Re.rest := t; Re.caps := Re.caps st |}.

(** What the parts of a split segment have in common. *)
Definition part_of (segment : Models.Segment) (limit : Z) (part : Models.Segment) : Prop :=
  Models.speaker part = Models.speaker segment
  /\ Models.text part <> []
  /\ strip (Models.text part) = Models.text part
  /\ (len (Models.text part) <= limit)%Z
  /\ Models.audio_path part = None
  /\ Models.duration_seconds part = None.

(** The pattern that [syllable_pattern] compiles to. *)
Definition syllable_regex (pattern_len : nat) : Re.regex :=
  let word := Re.Rep pattern_len (Some pattern_len) true (Re.CSet true [Re.CSpace]) in
  let blank := Re.Rep 1 None true (Re.CSet false [Re.CSpace]) in
  Re.Seq (Re.Group 1 (Re.Seq word (Re.Rep 0 (Some 1) true (Re.Seq blank word))))
         (Re.Seq blank (Re.Seq (Re.Backref 1) (Re.Seq blank (Re.Backref 1)))).

(** A text of characters that are not white space. *)
Definition solid (w : str) : bool := forallb (fun c => negb (isspace c)) w.

(** A text of white space, one character or more. *)
Definition blank (w : str) : bool :=
  match w with [] => false | _ => forallb isspace w end.

(** What the syllable check takes for a unit: a word of [n]
    characters, or two such words with white space between them. *)
Definition syllable_unit (n : nat) (unit : str) : Prop :=
  (length unit = n /\ solid unit = true)
  \/ exists w1 b w2,
       unit = w1 ++ b ++ w2 /\ length w1 = n /\ length w2 = n
       /\ solid w1 = true /\ solid w2 = true /\ blank b = true.

(** A text with one space for each run of white space; [in_run]
    tells that the character before was white space. *)
Fixpoint squeeze_from (in_run : bool) (s : str) : str :=
  match s with
  | [] => []
  | c :: t =>
    if isspace c then
      if in_run then squeeze_from true t else SP :: squeeze_from true t
    else c :: squeeze_from false t
  end.

(** A text that the parser hands back as it is: no white space
    around it, more than ten characters, no square bracket and no
    asterisk, and no dangling verb at its end. *)
Definition plain_text {U : UnicodeDB} (t : str) : Prop :=
  strip t = t /\ (10 < len t)%Z
  /\ ~ In (Re.chr "[") t /\ ~ In (Re.chr "*") t
  /\ Re.search Re.no_flags (Re.compile "\s+(?:jest|to|są)\s*$") t = false.

(** The first way to match: the head of the list of ways. *)
Definition first_is {A} (l : list A) (x : A) : Prop := exists tl, l = x :: tl.

(** The name in the tag of a speaker. *)
Definition tag_name (s : Models.Speaker) : str :=
  match s with Models.HOST => u "HOST" | Models.CO_HOST => u "CO-HOST" end.

(** The pattern that [bracket_pattern] compiles to. *)
Definition bracket_regex : Re.regex :=
  let name := Re.Alt (Re.lits (u "HOST")) (Re.lits (u "CO-HOST")) in
  Re.Seq (Re.Lit 91%N)
    (Re.Seq (Re.Group 1 name)
       (Re.Seq (Re.Lit 93%N)
          (Re.Seq (Re.Rep 0 None true (Re.CSet false [Re.CSpace]))
             (Re.Seq (Re.Group 2 (Re.Rep 1 None false Re.Dot))
                (Re.Ahead
                   (Re.Alt (Re.Seq (Re.Lit 91%N) (Re.Seq name (Re.Lit 93%N)))
                           Re.Eol)))))).

(** The line of a segment in [raw_script]. *)
Definition script_line (segment : Models.Segment) : str :=
  [91%N] ++ tag_name (Models.speaker segment) ++ [93%N] ++ [SP] ++ Models.text segment.

(** A first call that succeeds and a continuation call that gets no
    answer. *)
Definition dropped_scenario : list ScriptGenerator.request -> ScriptGenerator.answer :=
  scripted [ScriptGenerator.Replies (ok_response (u "[HOST] Witaj w podcaście!"))].


(** A script of two segments. *)
Definition sample_script : Models.PodcastScript :=
  {| Models.title := u "Wiadomosci";
     Models.segments :=
       [Models.new_segment Models.HOST (u "Witamy w naszym podcascie.");
        Models.new_segment Models.CO_HOST (u "Dzisiaj mowimy o nowosciach.")];
     Models.source_article_ids := [];
     Models.language := u "pl";
     Models.generated_at := 0%Z;
     Models.script_audio_path := None;
     Models.total_duration_seconds := None |}.

(** The keys of the dictionary of a segment. *)
Definition segment_keys : list str :=
  [u "speaker"; u "text"; u "audio_path"; u "duration_seconds"].

(** What comes after the text of a line: nothing, or a blank line
    and the next tag. *)
Definition follows (sep tail : str) : Prop :=
  (sep = [] /\ tail = [])
  \/ (sep = [LF; LF]
      /\ exists sp more, tail = [91%N] ++ tag_name sp ++ [93%N] ++ more).

(** * Properties *)

Lemma str_beq_eq (a b : str) : str_beq a b = true <-> a = b.
Proof.
  revert b; induction a as [|x a IH]; intros [|y b]; simpl; split; try congruence.
  - intros H; apply andb_prop in H as [H1 H2].
    apply N.eqb_eq in H1. apply IH in H2. congruence.
  - intros H; injection H as -> ->.
    rewrite N.eqb_refl. simpl. apply IH. reflexivity.
Qed.

Module ReFacts.
Import Re.

Lemma reaches_refl st : reaches 0 st st.
Proof. exists []. split; [reflexivity | simpl; lia]. Qed.

Lemma reaches_trans j k a b c :
  reaches j a b -> reaches k b c -> reaches (j + k) a c.
Proof.
  intros (p & Hp & Lp) (q & Hq & Lq). exists (p ++ q). split.
  - rewrite Hp, Hq. now rewrite app_assoc.
  - rewrite length_app. lia.
Qed.

Lemma reaches_weaken j k a b : j <= k -> reaches k a b -> reaches j a b.
Proof. intros Hle (p & Hp & Lp). exists p. split; [assumption | lia]. Qed.

Lemma reaches_length k a b :
  reaches k a b -> length (rest b) + k <= length (rest a).
Proof. intros (p & Hp & Lp). rewrite Hp, length_app. lia. Qed.

Lemma one_reaches st ok st' : In st' (one st ok) -> reaches 1 st st'.
Proof.
  unfold one. destruct (rest st) as [|c t] eqn:E; [intros []|].
  destruct (ok c); [|intros []]. intros [<-|[]].
  exists [c]. simpl. split; [assumption | lia].
Qed.

Lemma prefix_match_reaches {U : UnicodeDB} fl g s o r :
  prefix_match fl g s = Some (o, r) -> exists pre, s = pre ++ r.
Proof.
  revert s o r. induction g as [|x g IH]; intros s o r; simpl.
  - intros H; injection H as _ <-. now exists [].
  - destruct s as [|c s']; [discriminate|].
    destruct (same_char fl x c); [|discriminate].
    destruct (prefix_match fl g s') as [[o' r']|] eqn:E; [|discriminate].
    destruct (IH _ _ _ E) as (pre & ->).
    intros H. exists (c :: pre).
    destruct o'; injection H as _ <-; reflexivity.
Qed.

Section Rep.
Variable body : mstate -> list mstate.
Variable k : nat.
Hypothesis body_reaches : forall st st', In st' (body st) -> reaches k st st'.

Lemma rep_go_reaches greedy fuel :
  forall lo hi st st',
    In st' (rep_go body greedy fuel lo hi st) -> reaches (lo * k) st st'.
Proof.
  induction fuel as [|fuel IH]; intros lo hi st st'; simpl; [intros []|].
  intros H.
  assert (Hcases :
    In st' (match hi with
            | Some 0 => []
            | _ => flat_map
                     (fun st1 =>
                        if (length (rest st1) <? length (rest st)) || (0 <? lo)
                        then rep_go body greedy fuel (pred lo) (option_map pred hi) st1
                        else []) (body st)
            end)
    \/ In st' (if lo =? 0 then [st] else [])).
  { destruct greedy; apply in_app_or in H; tauto. }
  clear H. destruct Hcases as [H|H].
  - assert (H' : In st' (flat_map
                     (fun st1 =>
                        if (length (rest st1) <? length (rest st)) || (0 <? lo)
                        then rep_go body greedy fuel (pred lo) (option_map pred hi) st1
                        else []) (body st))).
    { destruct hi as [[|n]|]; [destruct H | exact H | exact H]. }
    apply in_flat_map in H' as (st1 & Hb & Hr).
    destruct ((length (rest st1) <? length (rest st)) || (0 <? lo)); [|destruct Hr].
    apply body_reaches in Hb. apply IH in Hr.
    apply reaches_weaken with (k := k + pred lo * k).
    + destruct lo; simpl; lia.
    + eapply reaches_trans; eassumption.
  - destruct (lo =? 0) eqn:E; [|destruct H].
    apply Nat.eqb_eq in E. subst lo. destruct H as [<-|[]]. apply reaches_refl.
Qed.
End Rep.

Section Facts.
Context {U : UnicodeDB}.

(** Every way to match consumes a prefix of the text ahead, of at
    least [min_len] characters. *)
Lemma rmatch_reaches fl r :
  forall st st', In st' (rmatch fl r st) -> reaches (min_len r) st st'.
Proof.
  induction r as [ | c | neg items | | a IHa b IHb | a IHa b IHb
                   | lo hi greedy a IHa | n a IHa | n | a IHa | items
                   | | | | ]; intros st st'; cbn [rmatch min_len].
  - intros [<-|[]]. apply reaches_refl.
  - apply one_reaches.
  - apply one_reaches.
  - apply one_reaches.
  - intros H. apply in_flat_map in H as (st1 & H1 & H2).
    eapply reaches_trans; eauto.
  - intros H. apply in_app_or in H as [H|H].
    + eapply reaches_weaken; [|apply IHa; exact H]. lia.
    + eapply reaches_weaken; [|apply IHb; exact H]. lia.
  - apply rep_go_reaches. exact IHa.
  - intros H. apply in_map_iff in H as (st1 & <- & H1).
    apply IHa in H1. destruct H1 as (pre & Hp & Lp).
    exists pre. simpl. split; assumption.
  - destruct (cap_lookup n (caps st)) as [g|]; [|intros []].
    destruct (prefix_match fl g (rest st)) as [[[c|] r]|] eqn:E; [| |intros []].
    + intros [<-|[]]. apply prefix_match_reaches in E as (pre & E).
      exists pre. simpl. split; [assumption | lia].
    + intros [<-|[]]. apply reaches_refl.
  - destruct (rmatch fl a st) as [|st1 l]; [intros []|].
    intros [<-|[]]. exists []. simpl. split; [reflexivity | lia].
  - destruct (prev st) as [p|].
    + destruct (set_match fl items p); [intros []|].
      intros [<-|[]]. apply reaches_refl.
    + intros [<-|[]]. apply reaches_refl.
  - destruct (at_bol fl st); [|intros []]. intros [<-|[]]. apply reaches_refl.
  - destruct (at_eol fl st); [|intros []]. intros [<-|[]]. apply reaches_refl.
  - destruct (rest st); [|intros []]. intros [<-|[]]. apply reaches_refl.
  - destruct (xorb _ _); [|intros []]. intros [<-|[]]. apply reaches_refl.
Qed.


Lemma consumed_prefix st st' pre :
  rest st = pre ++ rest st' -> consumed st st' = pre.
Proof.
  intros H. unfold consumed. rewrite H, length_app.
  replace (length pre + length (rest st') - length (rest st')) with (length pre) by lia.
  rewrite firstn_app, firstn_all, Nat.sub_diag. simpl. apply app_nil_r.
Qed.

(** The match found at a position is one of the ways to match
    there, and it is not empty when it has to advance. *)
Lemma match_here_spec fl r p s adv st' :
  match_here fl r p s adv = Some st' ->
  In st' (rmatch fl r {| prev := p; rest := s; caps := [] |})
  /\ (adv = true -> length (rest st') < length s).
Proof.
  unfold match_here. cbv zeta.
  generalize (rmatch fl r {| prev := p; rest := s; caps := [] |}). intros l.
  induction l as [|x l IH]; simpl; [discriminate|].
  destruct (negb adv || (length (rest x) <? length s)) eqn:E; simpl.
  - intros H; injection H as ->. split; [now left|].
    intros ->. simpl in E. now apply Nat.ltb_lt in E.
  - intros H. destruct (IH H) as [H1 H2]. split; [now right | assumption].
Qed.

Lemma match_here_text fl r p s adv st' :
  match_here fl r p s adv = Some st' ->
  s = firstn (length s - length (rest st')) s ++ rest st'
  /\ min_len r <= length s - length (rest st').
Proof.
  intros H. apply match_here_spec in H as [H _].
  apply rmatch_reaches in H as (pre & Hp & Lp). simpl in Hp.
  rewrite Hp at 2 3 4. rewrite length_app.
  replace (length pre + length (rest st') - length (rest st')) with (length pre) by lia.
  rewrite firstn_app, firstn_all, Nat.sub_diag. simpl. rewrite app_nil_r.
  split; [assumption | lia].
Qed.

(** A scan cuts the subject into pieces: the texts of the pieces,
    put together, are the subject. *)
Lemma scan_text fl r fuel :
  forall p (s : str) pos (adv : bool),
    2 * length s + (if adv then 1 else 2) <= fuel ->
    flat_map piece_text (scan fuel fl r p s pos adv) = s.
Proof.
  induction fuel as [|fuel IH]; intros p s pos adv Hf.
  - destruct adv; lia.
  - simpl. destruct (match_here fl r p s adv) as [st'|] eqn:E.
    + pose proof E as E1. apply match_here_text in E1 as [Hs _].
      pose proof E as E2. apply match_here_spec in E2 as [_ Hadv].
      simpl. destruct (length s - length (rest st') =? 0) eqn:En.
      * apply Nat.eqb_eq in En. rewrite En in *. simpl.
        destruct adv; [specialize (Hadv eq_refl); lia|].
        apply IH. lia.
      * apply Nat.eqb_neq in En. rewrite IH.
        -- symmetry. exact Hs.
        -- destruct adv; lia.
    + destruct s as [|c t]; [reflexivity|]. simpl. f_equal.
      apply IH. simpl in Hf. destruct adv; lia.
Qed.

Lemma pieces_text fl r s : flat_map piece_text (pieces fl r s) = s.
Proof. apply scan_text. lia. Qed.

Lemma in_hits m ps : In m (hits ps) <-> In (Hit m) ps.
Proof.
  induction ps as [|[c|m'] ps IH]; simpl.
  - tauto.
  - rewrite IH. split; [tauto | intros [H|H]; [discriminate | assumption]].
  - rewrite IH. split; intros [H|H]; try tauto; left; congruence.
Qed.

(** Every match of a scan is a way to match at its place. *)
Lemma scan_hit fl r fuel :
  forall p s pos adv m,
    In (Hit m) (scan fuel fl r p s pos adv) ->
    exists p0 s0 st',
      In st' (rmatch fl r {| prev := p0; rest := s0; caps := [] |})
      /\ s0 = m_text m ++ rest st'
      /\ m_caps m = caps st'
      /\ pos <= m_start m
      /\ m_start m + length s0 = pos + length s.
Proof.
  induction fuel as [|fuel IH]; intros p s pos adv m; simpl; [intros []|].
  destruct (match_here fl r p s adv) as [st'|] eqn:E.
  - pose proof E as E1. apply match_here_text in E1 as [Hs _].
    pose proof E as E2. apply match_here_spec in E2 as [Hin _].
    intros [H|H].
    + injection H as <-. exists p, s, st'. simpl.
      repeat split; [assumption | assumption | lia].
    + destruct (length s - length (rest st') =? 0) eqn:En.
      * apply IH in H. exact H.
      * apply IH in H as (p0 & s0 & st0 & H1 & H2 & H3 & H4 & H5).
        exists p0, s0, st0. repeat split; try assumption; try lia.
        apply (f_equal (@length _)) in Hs. rewrite length_app in Hs.
        rewrite length_firstn in Hs. lia.
  - destruct s as [|c t]; [intros []|].
    intros [H|H]; [discriminate|].
    apply IH in H as (p0 & s0 & st0 & H1 & H2 & H3 & H4 & H5).
    exists p0, s0, st0. repeat split; try assumption; simpl; lia.
Qed.

(** The matches of [finditer] lie inside the subject and hold at
    least [min_len] characters. *)
Lemma finditer_bounds fl r s m :
  In m (finditer fl r s) ->
  m_end m <= length s /\ min_len r <= length (m_text m).
Proof.
  unfold finditer, pieces. rewrite in_hits. intros H.
  apply scan_hit in H as (p0 & s0 & st' & H1 & H2 & _ & _ & H5).
  apply rmatch_reaches in H1 as (pre & Hp & Lp). simpl in Hp.
  rewrite H2 in Hp. apply app_inv_tail in Hp. subst pre.
  unfold m_end. rewrite H2, length_app in H5. split; lia.
Qed.

Lemma finditer_nil_sub fl r repl s :
  finditer fl r s = [] -> sub fl r repl s = s.
Proof.
  unfold finditer, sub. intros H.
  rewrite <- (pieces_text fl r s) at 2.
  induction (pieces fl r s) as [|[c|m] ps IH]; simpl in *.
  - reflexivity.
  - f_equal. apply IH. assumption.
  - discriminate.
Qed.

End Facts.
End ReFacts.

Module StrFacts.

Lemma nonws_app a b : nonws (a ++ b) = nonws a ++ nonws b.
Proof. apply filter_app. Qed.

Lemma nonws_rev s : nonws (rev s) = rev (nonws s).
Proof.
  induction s as [|c s IH]; simpl; [reflexivity|].
  rewrite nonws_app, IH. simpl. destruct (isspace c); simpl.
  - apply app_nil_r.
  - reflexivity.
Qed.

Lemma lstrip_split s :
  exists a, s = a ++ lstrip s /\ nonws a = [].
Proof.
  induction s as [|c s (a & Ha & Na)]; simpl.
  - now exists [].
  - destruct (isspace c) eqn:E.
    + exists (c :: a). simpl. rewrite E. simpl. split; [congruence | assumption].
    + now exists [].
Qed.

Lemma nonws_lstrip s : nonws (lstrip s) = nonws s.
Proof.
  destruct (lstrip_split s) as (a & Ha & Na).
  rewrite Ha at 2. rewrite nonws_app, Na. reflexivity.
Qed.

Lemma nonws_rstrip s : nonws (rstrip s) = nonws s.
Proof.
  unfold rstrip. rewrite nonws_rev, nonws_lstrip, nonws_rev. apply rev_involutive.
Qed.

Lemma nonws_strip s : nonws (strip s) = nonws s.
Proof. unfold strip. now rewrite nonws_rstrip, nonws_lstrip. Qed.

Lemma length_lstrip s : length (lstrip s) <= length s.
Proof.
  destruct (lstrip_split s) as (a & Ha & _).
  rewrite Ha at 2. rewrite length_app. lia.
Qed.

Lemma length_strip s : length (strip s) <= length s.
Proof.
  unfold strip, rstrip. rewrite length_rev.
  etransitivity; [apply length_lstrip|]. rewrite length_rev. apply length_lstrip.
Qed.

Lemma lstrip_head c t s : lstrip s = c :: t -> isspace c = false.
Proof.
  induction s as [|x s IH]; simpl; [discriminate|].
  destruct (isspace x) eqn:E; [assumption|].
  intros H; injection H as <- _. assumption.
Qed.

Lemma ends_nonws_nonempty s : ends_nonws s -> s <> [].
Proof. intros (a & c & -> & _). now destruct a. Qed.

Lemma strip_ends s : strip s = [] \/ ends_nonws (strip s).
Proof.
  unfold strip, rstrip.
  destruct (lstrip (rev (lstrip s))) as [|c t] eqn:E; [now left|].
  right. exists (rev t), c. split; [reflexivity|].
  eapply lstrip_head; eassumption.
Qed.

Lemma lstrip_keeps_end a c :
  isspace c = false -> exists b, lstrip (a ++ [c]) = b ++ [c].
Proof.
  intros Hc. induction a as [|x a (b & Hb)]; simpl.
  - rewrite Hc. now exists [].
  - destruct (isspace x).
    + now exists b.
    + now exists (x :: a).
Qed.

Lemma rstrip_ends a c : isspace c = false -> rstrip (a ++ [c]) = a ++ [c].
Proof.
  intros Hc. unfold rstrip. rewrite rev_app_distr. simpl. rewrite Hc.
  simpl. now rewrite rev_involutive.
Qed.

Lemma strip_keeps_end s : ends_nonws s -> ends_nonws (strip s).
Proof.
  intros (a & c & -> & Hc). unfold strip.
  destruct (@lstrip_keeps_end a c Hc) as (b & ->).
  rewrite rstrip_ends by assumption. now exists b, c.
Qed.

Lemma suffix_ends s a b :
  ends_nonws s -> s = a ++ b -> b <> [] -> ends_nonws b.
Proof.
  intros (x & c & -> & Hc) H Hb.
  destruct (exists_last Hb) as (b' & d & ->).
  rewrite app_assoc in H. apply app_inj_tail in H as [_ <-].
  now exists b', c.
Qed.

(** [s[:n] + s[n:] == s] *)
Lemma slice_to_from s n : slice_to s n ++ slice_from s n = s.
Proof.
  unfold slice_to, slice_from. destruct (0 <=? n)%Z; apply firstn_skipn.
Qed.

Lemma length_slice_to s n : (0 <= n)%Z -> (len (slice_to s n) <= n)%Z.
Proof.
  intros H. unfold slice_to, len.
  destruct (0 <=? n)%Z eqn:E; [|apply Z.leb_gt in E; lia].
  rewrite length_firstn. lia.
Qed.

Lemma length_slice_to_le s n : length (slice_to s n) <= length s.
Proof.
  unfold slice_to. destruct (0 <=? n)%Z; rewrite length_firstn; lia.
Qed.

Lemma length_slice_to_neg s n :
  (n < 0)%Z -> s <> [] -> length (slice_to s n) < length s.
Proof.
  intros H Hs. unfold slice_to, len.
  destruct (0 <=? n)%Z eqn:E; [apply Z.leb_le in E; lia|].
  rewrite length_firstn. destruct s; [congruence|]. unfold len. simpl length. lia.
Qed.

Lemma slice_from_nonempty s n :
  s <> [] -> (n < len s)%Z -> slice_from s n <> [].
Proof.
  intros Hs H Hnil. apply (f_equal (@length _)) in Hnil. revert Hnil.
  unfold slice_from, len in *.
  destruct s as [|c s]; [congruence|].
  destruct (Z.leb_spec 0 n); rewrite length_skipn; simpl length in *; lia.
Qed.

Lemma length_slice_from s n :
  (1 <= n)%Z -> s <> [] -> length (slice_from s n) < length s.
Proof.
  intros H Hs. unfold slice_from.
  destruct (0 <=? n)%Z eqn:E; [|apply Z.leb_gt in E; lia].
  rewrite length_skipn. destruct s; [congruence|]. simpl length. lia.
Qed.

Lemma rfind_from_bounds c s i found :
  (found < i)%Z ->
  let r := rfind_from c s i found in
  (found <= r)%Z /\ (r < i + len s)%Z.
Proof.
  revert i found. induction s as [|x s IH]; intros i found H; simpl.
  - unfold len. simpl. lia.
  - destruct (x =? c)%N.
    + destruct (IH (i + 1)%Z i ltac:(lia)) as [H1 H2].
      unfold len in *. simpl length. lia.
    + destruct (IH (i + 1)%Z found ltac:(lia)) as [H1 H2].
      unfold len in *. simpl length. lia.
Qed.

Lemma rfind_bounds c s : (-1 <= rfind c s)%Z /\ (rfind c s < len s)%Z.
Proof.
  unfold rfind. destruct (@rfind_from_bounds c s 0%Z (-1)%Z ltac:(lia)). lia.
Qed.

Lemma nonws_join_space l : nonws (join (u " ") l) = nonws (concat l).
Proof.
  induction l as [|p l IH]; [reflexivity|].
  destruct l as [|q l].
  - simpl. now rewrite app_nil_r.
  - change (join (u " ") (p :: q :: l)) with (p ++ u " " ++ join (u " ") (q :: l)).
    rewrite !nonws_app, IH. change (nonws (u " ")) with (@nil char).
    simpl. rewrite !nonws_app. reflexivity.
Qed.

End StrFacts.

Module ChunkerFacts.
Import Re ReFacts StrFacts TtsEngine.

Section Facts.
Context {U : UnicodeDB}.

(** A break found in a chunk ends inside the chunk, after at least
    the characters its pattern needs. *)
Lemma last_break_end_bounds pattern chunk p :
  last_break_end pattern chunk = Some p ->
  (Z.of_nat (min_len (compile pattern)) <= p <= len chunk)%Z.
Proof.
  unfold last_break_end.
  destruct (rev (finditer no_flags (compile pattern) chunk)) as [|m l] eqn:E;
    [discriminate|].
  intros H; injection H as <-.
  assert (Hin : In m (finditer no_flags (compile pattern) chunk)).
  { apply in_rev. rewrite E. now left. }
  apply finditer_bounds in Hin as [H1 H2].
  unfold m_end, len in *. lia.
Qed.

(** What one turn of the loop does: it ends the loop with the rest
    as the last chunk, or cuts the rest at a position [p]. *)
Lemma split_turn_cases max_chars remaining chunks :
  remaining <> [] ->
  match split_turn max_chars remaining chunks with
  | Break out => (len remaining <= max_chars)%Z /\ out = chunks ++ [remaining]
  | Continue remaining' chunks' =>
    (max_chars < len remaining)%Z /\
    exists p : Z,
      remaining' = strip (slice_from remaining p)
      /\ chunks' = chunks ++ [strip (slice_to remaining p)]
      /\ (0 <= max_chars -> 0 <= p <= max_chars)%Z
      /\ (1 <= max_chars -> 1 <= p)%Z
      /\ (max_chars <= 0 -> p < len remaining)%Z
  end.
Proof.
  intros Hne. unfold split_turn.
  destruct (Z.leb_spec (len remaining) max_chars) as [Hfit|Hbig];
    [split; [assumption | reflexivity]|].
  assert (Hchunk : (0 <= max_chars -> len (slice_to remaining max_chars) <= max_chars)%Z)
    by apply length_slice_to.
  assert (Hchunk' : (len (slice_to remaining max_chars) <= len remaining)%Z).
  { unfold len. pose proof (length_slice_to_le remaining max_chars). lia. }
  assert (Hneg : (max_chars < 0 -> len (slice_to remaining max_chars) < len remaining)%Z).
  { intros Hn. unfold len.
    pose proof (@length_slice_to_neg remaining max_chars Hn Hne). lia. }
  destruct (last_break_end "[.!?]\s+" (slice_to remaining max_chars)) as [p|] eqn:E1.
  { apply last_break_end_bounds in E1.
    change (min_len (compile "[.!?]\s+")) with 2 in E1.
    split; [assumption|]. exists p.
    split; [reflexivity|]. split; [reflexivity|].
    split; [|split]; intros; lia. }
  destruct (last_break_end "[,;]\s+" (slice_to remaining max_chars)) as [p|] eqn:E2.
  { apply last_break_end_bounds in E2.
    change (min_len (compile "[,;]\s+")) with 2 in E2.
    split; [assumption|]. exists p.
    split; [reflexivity|]. split; [reflexivity|].
    split; [|split]; intros; lia. }
  pose proof (rfind_bounds SP (slice_to remaining max_chars)) as [Hlo Hhi].
  destruct (Z.ltb_spec (max_chars / 2) (rfind SP (slice_to remaining max_chars)))
    as [Hw|Hw].
  - assert (Hhalf : (0 <= max_chars -> 0 <= max_chars / 2)%Z)
      by (intros; apply Z.div_pos; lia).
    split; [assumption|]. exists (rfind SP (slice_to remaining max_chars)).
    unfold cut. split; [reflexivity|]. split; [reflexivity|].
    split; [|split]; intros; lia.
  - split; [assumption|]. exists max_chars.
    split; [reflexivity|]. split; [reflexivity|].
    split; [|split]; intros; lia.
Qed.

Lemma split_loop_nil fuel max_chars chunks :
  split_loop fuel max_chars [] chunks = Some chunks.
Proof. now destruct fuel. Qed.

Lemma split_loop_step fuel max_chars remaining chunks :
  remaining <> [] ->
  split_loop (S fuel) max_chars remaining chunks =
  match split_turn max_chars remaining chunks with
  | Break chunks' => Some chunks'
  | Continue remaining' chunks' => split_loop fuel max_chars remaining' chunks'
  end.
Proof. destruct remaining; [congruence | reflexivity]. Qed.

(** With a limit of at least one character every turn shortens the
    rest, so the loop ends within as many turns as the rest has
    characters. *)
Lemma split_loop_terminates max_chars :
  (1 <= max_chars)%Z ->
  forall fuel remaining chunks,
    length remaining <= fuel ->
    exists out, split_loop fuel max_chars remaining chunks = Some out.
Proof.
  intros Hmax. induction fuel as [|fuel IH]; intros remaining chunks Hlen.
  - destruct remaining; [|simpl in Hlen; lia]. now exists chunks.
  - destruct (list_eq_dec N.eq_dec remaining []) as [->|Hne];
      [now exists chunks|].
    rewrite split_loop_step by assumption.
    pose proof (@split_turn_cases max_chars remaining chunks Hne) as Ht.
    destruct (split_turn max_chars remaining chunks) as [out|r' c'].
    + now exists out.
    + destruct Ht as (_ & p & -> & _ & _ & Hp & _).
      apply IH.
      pose proof (length_strip (slice_from remaining p)).
      pose proof (@length_slice_from remaining p (Hp Hmax) Hne). lia.
Qed.

(** With a limit of zero or less the loop never ends once the rest
    holds a character that is not white space. *)
Lemma split_loop_diverges max_chars :
  (max_chars <= 0)%Z ->
  forall fuel remaining chunks,
    ends_nonws remaining ->
    split_loop fuel max_chars remaining chunks = None.
Proof.
  intros Hmax. induction fuel as [|fuel IH]; intros remaining chunks Hend.
  - pose proof (ends_nonws_nonempty Hend). destruct remaining; [congruence|reflexivity].
  - pose proof (ends_nonws_nonempty Hend) as Hne.
    rewrite split_loop_step by assumption.
    pose proof (@split_turn_cases max_chars remaining chunks Hne) as Ht.
    destruct (split_turn max_chars remaining chunks) as [out|r' c'].
    + destruct Ht as [Hfit _]. exfalso. unfold len in Hfit.
      destruct remaining; [congruence|]. simpl length in Hfit. lia.
    + destruct Ht as (_ & p & -> & _ & _ & _ & Hp).
      apply IH. apply strip_keeps_end.
      apply suffix_ends with (s := remaining) (a := slice_to remaining p).
      * assumption.
      * symmetry. apply slice_to_from.
      * apply slice_from_nonempty; [assumption | now apply Hp].
Qed.

Lemma concat_snoc (l : list str) (x : str) : concat (l ++ [x]) = concat l ++ x.
Proof. rewrite concat_app. simpl. now rewrite app_nil_r. Qed.

Lemma split_loop_sound max_chars content :
  forall fuel remaining chunks out,
    remaining = [] \/ ends_nonws remaining ->
    Forall (fun chunk => (len chunk <= max_chars)%Z) chunks ->
    nonws (concat chunks) ++ nonws remaining = content ->
    split_loop fuel max_chars remaining chunks = Some out ->
    chunks_ok max_chars content out.
Proof.
  induction fuel as [|fuel IH]; intros remaining chunks out Hinv Hall Hcontent.
  - destruct remaining; [|discriminate]. simpl.
    intros H; injection H as <-. split; [assumption|].
    simpl in Hcontent. now rewrite app_nil_r in Hcontent.
  - destruct (list_eq_dec N.eq_dec remaining []) as [->|Hne].
    { simpl. intros H; injection H as <-. split; [assumption|].
      simpl in Hcontent. now rewrite app_nil_r in Hcontent. }
    destruct Hinv as [Hnil|Hend]; [exfalso; apply Hne; exact Hnil|].
    destruct (Z.leb_spec max_chars 0) as [Hneg|Hpos].
    { rewrite split_loop_diverges by assumption. discriminate. }
    rewrite split_loop_step by assumption.
    pose proof (@split_turn_cases max_chars remaining chunks Hne) as Ht.
    destruct (split_turn max_chars remaining chunks) as [out'|r' c'].
    + destruct Ht as [Hfit ->]. intros H; injection H as <-. split.
      * apply Forall_app. split; [assumption|]. now constructor.
      * now rewrite concat_snoc, nonws_app.
    + destruct Ht as (_ & p & -> & -> & Hp & _ & _).
      apply IH.
      * apply strip_ends.
      * apply Forall_app. split; [assumption|]. constructor; [|constructor].
        pose proof (length_strip (slice_to remaining p)).
        pose proof (@length_slice_to remaining p ltac:(lia)).
        unfold len in *. lia.
      * rewrite concat_snoc, nonws_app, !nonws_strip, <- app_assoc, <- nonws_app.
        now rewrite slice_to_from.
Qed.

Lemma split_long_text_sound fuel text max_chars chunks :
  _split_long_text fuel text max_chars = Some chunks ->
  Forall (fun chunk => (len chunk <= max_chars)%Z) chunks
  /\ nonws (join (u " ") chunks) = nonws text.
Proof.
  unfold _split_long_text.
  destruct (Z.leb_spec (len text) max_chars) as [Hfit|Hbig].
  - intros H; injection H as <-. split.
    + now constructor.
    + reflexivity.
  - intros H. rewrite nonws_join_space.
    apply split_loop_sound with (content := nonws text) in H.
    + exact H.
    + apply strip_ends.
    + constructor.
    + simpl. apply nonws_strip.
Qed.

Lemma split_long_text_terminates text max_chars :
  (1 <= max_chars)%Z ->
  exists chunks, _split_long_text (length text) text max_chars = Some chunks.
Proof.
  intros Hmax. unfold _split_long_text.
  destruct (len text <=? max_chars)%Z; [now exists [text]|].
  apply split_loop_terminates; [assumption | apply length_strip].
Qed.

(** More fuel does not change what the chunker returns. *)
Lemma split_loop_fuel max_chars :
  forall fuel fuel' remaining chunks out,
    split_loop fuel max_chars remaining chunks = Some out ->
    fuel <= fuel' ->
    split_loop fuel' max_chars remaining chunks = Some out.
Proof.
  induction fuel as [|fuel IH]; intros fuel' remaining chunks out H Hle.
  - destruct remaining; [|discriminate]. now destruct fuel'.
  - destruct fuel' as [|fuel']; [lia|].
    destruct (list_eq_dec N.eq_dec remaining []) as [->|Hne]; [exact H|].
    rewrite split_loop_step in * by assumption.
    destruct (split_turn max_chars remaining chunks); [exact H|].
    apply IH with (fuel' := fuel') in H; [exact H | lia].
Qed.

(** With a limit of one character or more the chunker returns, and
    returns the same chunks whatever fuel it has beyond the length of
    the text. *)
Lemma split_long_text_returns text max_chars :
  (1 <= max_chars)%Z ->
  exists chunks,
    forall fuel, length text <= fuel ->
                 _split_long_text fuel text max_chars = Some chunks.
Proof.
  intros Hmax.
  destruct (@split_long_text_terminates text max_chars Hmax) as [chunks Hc].
  exists chunks. intros fuel Hf. revert Hc. unfold _split_long_text.
  destruct (len text <=? max_chars)%Z; [trivial|].
  intros Hc. eapply split_loop_fuel; eassumption.
Qed.

End Facts.
End ChunkerFacts.


(** ** The groups of a match *)

Module CaptureFacts.
Import Re ReFacts.

Lemma infix_refl s : infix s s.
Proof. exists [], []. simpl. now rewrite app_nil_r. Qed.

Lemma infix_nil s : infix [] s.
Proof. now exists [], s. Qed.

Lemma infix_app_l g s t : infix g s -> infix g (s ++ t).
Proof. intros (a & b & ->). exists a, (b ++ t). now rewrite <- !app_assoc. Qed.

Lemma infix_app_r g s t : infix g t -> infix g (s ++ t).
Proof. intros (a & b & ->). exists (s ++ a), b. now rewrite <- !app_assoc. Qed.

Lemma within_refl st : within st st.
Proof. exists []. split; [reflexivity|]. intros n g H. now left. Qed.

Lemma within_trans a b c : within a b -> within b c -> within a c.
Proof.
  intros (p & Hp & Cp) (q & Hq & Cq). exists (p ++ q). split.
  - rewrite Hp, Hq. now rewrite app_assoc.
  - intros n g H. destruct (Cq n g H) as [H1|H1].
    + destruct (Cp n g H1) as [H2|H2]; [now left|].
      right. now apply infix_app_l.
    + right. now apply infix_app_r.
Qed.

Lemma one_within st ok st' : In st' (one st ok) -> within st st'.
Proof.
  unfold one. destruct (rest st) as [|c t] eqn:E; [intros []|].
  destruct (ok c); [|intros []]. intros [<-|[]].
  exists [c]. simpl. split; [assumption|]. intros n g H. now left.
Qed.

Lemma rep_go_within body greedy :
  (forall st st', In st' (body st) -> within st st') ->
  forall fuel lo hi st st',
    In st' (rep_go body greedy fuel lo hi st) -> within st st'.
Proof.
  intros Hbody. induction fuel as [|fuel IH]; intros lo hi st st'; simpl; [intros []|].
  intros H.
  assert (Hcases :
    In st' (flat_map
              (fun st1 =>
                 if (length (rest st1) <? length (rest st)) || (0 <? lo)
                 then rep_go body greedy fuel (pred lo) (option_map pred hi) st1
                 else []) (body st))
    \/ In st' (if lo =? 0 then [st] else [])).
  { destruct greedy; apply in_app_or in H; destruct hi as [[|n]|]; simpl in H; tauto. }
  clear H. destruct Hcases as [H|H].
  - apply in_flat_map in H as (st1 & Hb & Hr).
    destruct ((length (rest st1) <? length (rest st)) || (0 <? lo)); [|destruct Hr].
    eapply within_trans; [apply Hbody; exact Hb | apply IH in Hr; exact Hr].
  - destruct (lo =? 0); [|destruct H]. destruct H as [<-|[]]. apply within_refl.
Qed.

Section Facts.
Context {U : UnicodeDB}.

Lemma rmatch_within fl r :
  ahead_free r = true ->
  forall st st', In st' (rmatch fl r st) -> within st st'.
Proof.
  induction r as [ | c | neg items | | a IHa b IHb | a IHa b IHb
                   | lo hi greedy a IHa | n a IHa | n | a IHa | items
                   | | | | ]; intros Hfree st st'; cbn [rmatch]; cbn [ahead_free] in Hfree.
  - intros [<-|[]]. apply within_refl.
  - apply one_within.
  - apply one_within.
  - apply one_within.
  - apply andb_prop in Hfree as [Ha Hb].
    intros H. apply in_flat_map in H as (st1 & H1 & H2).
    eapply within_trans; [apply IHa | apply IHb]; eassumption.
  - apply andb_prop in Hfree as [Ha Hb].
    intros H. apply in_app_or in H as [H|H]; [apply IHa | apply IHb]; assumption.
  - apply rep_go_within. now apply IHa.
  - intros H. apply in_map_iff in H as (st1 & <- & H1).
    apply (IHa Hfree) in H1. destruct H1 as (pre & Hp & Cp).
    exists pre. simpl. split; [assumption|].
    intros k g [Hg|Hg].
    + injection Hg as _ <-. right. rewrite (@consumed_prefix st st1 pre Hp). apply infix_refl.
    + now apply Cp.
  - destruct (cap_lookup n (caps st)) as [g|]; [|intros []].
    destruct (prefix_match fl g (rest st)) as [[[c|] r]|] eqn:E; [| |intros []].
    + intros [<-|[]]. apply prefix_match_reaches in E as (pre & E).
      exists pre. simpl. split; [assumption|]. intros k g' H. now left.
    + intros [<-|[]]. apply within_refl.
  - discriminate.
  - destruct (prev st) as [p|].
    + destruct (set_match fl items p); [intros []|].
      intros [<-|[]]. apply within_refl.
    + intros [<-|[]]. apply within_refl.
  - destruct (at_bol fl st); [|intros []]. intros [<-|[]]. apply within_refl.
  - destruct (at_eol fl st); [|intros []]. intros [<-|[]]. apply within_refl.
  - destruct (rest st); [|intros []]. intros [<-|[]]. apply within_refl.
  - destruct (xorb _ _); [|intros []]. intros [<-|[]]. apply within_refl.
Qed.

Lemma cap_lookup_in n cs g : cap_lookup n cs = Some g -> In (n, g) cs.
Proof.
  induction cs as [|[k v] cs IH]; simpl; [discriminate|].
  destruct (Nat.eqb_spec k n) as [->|Hne].
  - intros H; injection H as ->. now left.
  - intros H. right. now apply IH.
Qed.

(** A group of a match of a pattern without lookahead is a part of the
    text matched. *)
Lemma group_infix fl r s m n :
  ahead_free r = true ->
  In m (finditer fl r s) ->
  infix (group m n) (m_text m).
Proof.
  intros Hfree. unfold finditer, pieces. rewrite in_hits. intros H.
  apply scan_hit in H as (p0 & s0 & st' & H1 & H2 & H3 & _ & _).
  apply (@rmatch_within fl r Hfree) in H1 as (pre & Hp & Cp). simpl in Hp, Cp.
  rewrite H2 in Hp. apply app_inv_tail in Hp. subst pre.
  unfold group. destruct (cap_lookup n (m_caps m)) as [g|] eqn:E; [|apply infix_nil].
  apply cap_lookup_in in E. rewrite H3 in E.
  destruct (Cp n g E) as [[]|Hg]. exact Hg.
Qed.

End Facts.
End CaptureFacts.

(** ** A measure that cleaning decreases *)

Module MeasureFacts.
Import Re ReFacts CaptureFacts.

Lemma measure_app a b : measure (a ++ b) = measure a + measure b.
Proof.
  unfold measure. rewrite map_app, list_sum_app. reflexivity.
Qed.

Lemma measure_nonempty s : s <> [] -> 3 <= measure s.
Proof.
  destruct s as [|c t]; [congruence|]. intros _. unfold measure. simpl.
  unfold weight. destruct (c =? 32)%N; lia.
Qed.

Lemma measure_length s : 3 * length s <= measure s.
Proof.
  induction s as [|c t IH]; [simpl; lia|].
  change (c :: t) with ([c] ++ t). rewrite measure_app. cbn [length app].
  pose proof (@measure_nonempty [c] ltac:(discriminate)). lia.
Qed.

Lemma shrinks_refl s : shrinks s s.
Proof. now left. Qed.

Lemma shrinks_trans a b c : shrinks a b -> shrinks b c -> shrinks a c.
Proof.
  intros [->|H1] [->|H2]; unfold shrinks; try tauto. right. lia.
Qed.

Lemma shrinks_app a a' b b' : shrinks a a' -> shrinks b b' -> shrinks (a ++ b) (a' ++ b').
Proof.
  intros [->|H1] [->|H2]; unfold shrinks; rewrite !measure_app; try tauto; right; lia.
Qed.

Lemma infix_shrinks g s : infix g s -> shrinks g s.
Proof.
  intros (a & b & ->).
  destruct a as [|x a]; [destruct b as [|y b]|].
  - left. simpl. now rewrite app_nil_r.
  - right. rewrite !measure_app. simpl app.
    pose proof (@measure_nonempty (y :: b) ltac:(discriminate)). lia.
  - right. rewrite !measure_app.
    pose proof (@measure_nonempty (x :: a) ltac:(discriminate)). lia.
Qed.

Lemma nil_shrinks s : shrinks [] s.
Proof. apply infix_shrinks, infix_nil. Qed.

Lemma lstrip_infix s : infix (lstrip s) s.
Proof.
  destruct (StrFacts.lstrip_split s) as (a & Ha & _).
  exists a, []. now rewrite app_nil_r.
Qed.

Lemma infix_trans a b c : infix a b -> infix b c -> infix a c.
Proof.
  intros (p & q & ->) (r & t & ->). exists (r ++ p), (q ++ t).
  now rewrite <- !app_assoc.
Qed.

Lemma infix_rev g s : infix g s -> infix (rev g) (rev s).
Proof.
  intros (a & b & ->). exists (rev b), (rev a).
  now rewrite !rev_app_distr, <- !app_assoc.
Qed.

Lemma strip_infix s : infix (strip s) s.
Proof.
  unfold strip, rstrip.
  apply infix_trans with (b := lstrip s); [|apply lstrip_infix].
  rewrite <- (rev_involutive (lstrip s)) at 2.
  apply infix_rev, lstrip_infix.
Qed.

Lemma strip_shrinks s : shrinks (strip s) s.
Proof. apply infix_shrinks, strip_infix. Qed.

Section Facts.
Context {U : UnicodeDB}.

Lemma render_shrinks repl ps :
  (forall m, In (Hit m) ps -> shrinks (repl m) (m_text m)) ->
  shrinks (flat_map (render repl) ps) (flat_map piece_text ps).
Proof.
  induction ps as [|p ps IH]; intros H; simpl; [apply shrinks_refl|].
  apply shrinks_app.
  - destruct p as [c|m]; [apply shrinks_refl|]. apply H. now left.
  - apply IH. intros m Hm. apply H. now right.
Qed.

(** A substitution whose replacements are no larger than what they
    replace leaves the text as it is or makes it smaller. *)
Lemma sub_shrinks fl r repl s :
  (forall m, In m (finditer fl r s) -> shrinks (repl m) (m_text m)) ->
  shrinks (sub fl r repl s) s.
Proof.
  intros H. rewrite <- (pieces_text fl r s) at 2.
  apply render_shrinks. intros m Hm. apply H. unfold finditer. now apply in_hits.
Qed.

Lemma remove_shrinks fl pattern s : shrinks (TextNormalizer.remove fl pattern s) s.
Proof. apply sub_shrinks. intros m _. apply nil_shrinks. Qed.

End Facts.
End MeasureFacts.

(** ** Lower case and words *)

Module LowerFacts.

(** A run of characters that are not white space joins the word being
    read. *)
Lemma split_ws_go_word w s cur :
  forallb (fun c => negb (isspace c)) w = true ->
  split_ws_go (w ++ s) cur = split_ws_go s (rev w ++ cur).
Proof.
  revert cur. induction w as [|c w IH]; intros cur Hw; [reflexivity|].
  simpl in Hw. apply andb_prop in Hw as [Hc Hw].
  simpl. apply negb_true_iff in Hc. rewrite Hc.
  rewrite IH by assumption. now rewrite <- app_assoc.
Qed.

Section Mapping.
(** A mapping of characters to texts that keeps white space as it is
    and maps every other character to characters that are not white
    space, at least one. *)
Variable g : char -> str.
Hypothesis g_space : forall c, isspace c = true -> g c = [c].
Hypothesis g_word :
  forall c, isspace c = false ->
            g c <> [] /\ forallb (fun d => negb (isspace d)) (g c) = true.

Lemma mapped_nonempty w :
  w <> [] -> (forall c, In c w -> isspace c = false) -> flat_map g w <> [].
Proof.
  destruct w as [|c w]; [congruence|]. intros _ Hw. cbn [flat_map].
  destruct (g_word c (Hw c (or_introl eq_refl))) as [Hne _].
  destruct (g c); [congruence | discriminate].
Qed.

Lemma rev_nil_iff {A} (l : list A) : rev l = [] -> l = [].
Proof.
  intros H. apply (f_equal (@rev _)) in H. now rewrite rev_involutive in H.
Qed.

(** [cur] is the word being read in the text, [cur'] in its mapping. *)
Lemma split_ws_go_mapped s :
  forall cur cur',
    rev cur' = flat_map g (rev cur) ->
    (forall c, In c cur -> isspace c = false) ->
    split_ws_go (flat_map g s) cur' = map (flat_map g) (split_ws_go s cur).
Proof.
  assert (Hcases : forall cur cur',
             rev cur' = flat_map g (rev cur) ->
             (forall c, In c cur -> isspace c = false) ->
             (cur = [] /\ cur' = []) \/ (cur <> [] /\ cur' <> [])).
  { intros cur cur' Hrev Hcur. destruct cur as [|x r].
    - left. split; [reflexivity|]. now apply rev_nil_iff.
    - right. split; [discriminate|]. intros ->. change (rev (@nil char)) with (@nil char) in Hrev.
      symmetry in Hrev. revert Hrev. apply mapped_nonempty.
      + intros H. apply rev_nil_iff in H. discriminate.
      + intros c Hc. apply Hcur. apply in_rev. exact Hc. }
  induction s as [|c s IH]; intros cur cur' Hrev Hcur.
  - cbn [flat_map split_ws_go].
    destruct (Hcases cur cur' Hrev Hcur) as [[-> ->]|[H1 H2]]; [reflexivity|].
    destruct cur as [|x r]; [congruence|]. destruct cur' as [|y r']; [congruence|].
    cbn [map]. now rewrite Hrev.
  - cbn [flat_map]. destruct (isspace c) eqn:Ec.
    + rewrite (g_space c Ec). cbn [app split_ws_go]. rewrite Ec.
      specialize (IH [] [] eq_refl (fun c H => match H with end)).
      destruct (Hcases cur cur' Hrev Hcur) as [[-> ->]|[H1 H2]]; [exact IH|].
      destruct cur as [|x r]; [congruence|]. destruct cur' as [|y r']; [congruence|].
      cbn [map]. now rewrite IH, Hrev.
    + destruct (g_word c Ec) as [_ Hgc].
      rewrite split_ws_go_word by assumption.
      cbn [split_ws_go]. rewrite Ec. apply IH.
      * rewrite rev_app_distr, rev_involutive, Hrev. cbn [rev].
        rewrite flat_map_app. cbn [flat_map]. now rewrite app_nil_r.
      * intros d [<-|Hd]; [exact Ec | now apply Hcur].
Qed.

(** The words of the mapped text are the words of the text, mapped. *)
Lemma split_ws_mapped s :
  split_ws (flat_map g s) = map (flat_map g) (split_ws s).
Proof.
  apply (split_ws_go_mapped s [] []); [reflexivity|]. intros c [].
Qed.

Lemma mapped_length w :
  (forall c, In c w -> isspace c = false) -> length w <= length (flat_map g w).
Proof.
  induction w as [|c w IH]; intros Hw; [simpl; lia|].
  destruct (g_word c (Hw c (or_introl eq_refl))) as [Hne _].
  cbn [flat_map]. rewrite length_app.
  specialize (IH (fun d Hd => Hw d (or_intror Hd))).
  destruct (g c); [congruence | simpl in *; lia].
Qed.

End Mapping.

(** The words [s.split()] yields hold no white space. *)
Lemma split_ws_go_words s :
  forall cur,
    (forall c, In c cur -> isspace c = false) ->
    forall w, In w (split_ws_go s cur) -> forall c, In c w -> isspace c = false.
Proof.
  induction s as [|c s IH]; intros cur Hcur w; simpl.
  - destruct cur; [intros []|]. intros [<-|[]] d Hd.
    apply Hcur. now apply in_rev.
  - destruct (isspace c) eqn:Ec.
    + destruct cur as [|x cur'].
      * apply IH. intros d [].
      * intros [<-|H].
        -- intros d Hd. apply Hcur. now apply in_rev.
        -- revert H. apply IH. intros d [].
    + apply IH. intros d [<-|Hd]; [exact Ec | now apply Hcur].
Qed.

Lemma split_ws_words s w :
  In w (split_ws s) -> forall c, In c w -> isspace c = false.
Proof. apply split_ws_go_words. intros c []. Qed.

Lemma small_char (P : char -> bool) (bound : nat) :
  forallb P (map N.of_nat (List.seq 0 bound)) = true ->
  forall c, (c < N.of_nat bound)%N -> P c = true.
Proof.
  intros H c Hc. rewrite forallb_forall in H. apply H.
  apply in_map_iff. exists (N.to_nat c). split; [apply N2Nat.id|].
  apply in_seq. lia.
Qed.

Lemma to_lower_above c : (400 <= c)%N -> Latin.to_lower c = c.
Proof.
  intros Hc. unfold Latin.to_lower, Latin.is_upper, Latin.between.
  repeat match goal with
         | |- context [(?a <=? ?b)%N] => destruct (N.leb_spec a b); try lia
         | |- context [(?a =? ?b)%N] => destruct (N.eqb_spec a b); try lia
         end; simpl; reflexivity.
Qed.

Lemma lower_char_space c : isspace c = true -> lower_char c = [c].
Proof.
  intros Hs. destruct (N.ltb_spec c 400) as [Hc|Hc].
  - pose proof (@small_char
                  (fun c => implb (isspace c)
                                  (match lower_char c with
                                   | [d] => (d =? c)%N
                                   | _ => false
                                   end))
                  400 ltac:(vm_compute; reflexivity) c Hc) as H.
    cbv beta in H. rewrite Hs in H. simpl in H.
    destruct (lower_char c) as [|d [|e t]]; try discriminate.
    apply N.eqb_eq in H. now subst.
  - unfold lower_char. destruct (N.eqb_spec c 304); [lia|].
    now rewrite to_lower_above.
Qed.

Lemma lower_char_word c :
  isspace c = false ->
  lower_char c <> [] /\ forallb (fun d => negb (isspace d)) (lower_char c) = true.
Proof.
  intros Hs. destruct (N.ltb_spec c 400) as [Hc|Hc].
  - pose proof (@small_char
                  (fun c => isspace c
                            || (match lower_char c with [] => false | _ => true end
                                && forallb (fun d => negb (isspace d)) (lower_char c)))
                  400 ltac:(vm_compute; reflexivity) c Hc) as H.
    cbv beta in H. rewrite Hs in H. simpl in H.
    apply andb_prop in H as [H1 H2]. split; [|exact H2].
    destruct (lower_char c); [discriminate | discriminate].
  - unfold lower_char. destruct (N.eqb_spec c 304); [lia|].
    rewrite to_lower_above by assumption. split; [discriminate|].
    simpl. now rewrite Hs.
Qed.

Lemma latin_lower_mapped s : Latin.lower s = flat_map lower_char s.
Proof. reflexivity. Qed.

(** In Latin text, the words of the text in lower case are the words
    of the text, in lower case, and none is shorter than it was. *)
Lemma latin_lower_words s :
  split_ws (Latin.lower s) = map Latin.lower (split_ws s).
Proof.
  rewrite latin_lower_mapped.
  apply (split_ws_mapped lower_char lower_char_space lower_char_word).
Qed.

Lemma latin_lower_length w :
  (forall c, In c w -> isspace c = false) -> length w <= length (Latin.lower w).
Proof. apply (mapped_length lower_char lower_char_word). Qed.

End LowerFacts.

(** * The model on the texts of the specification *)

(** Every pattern of the source is read to its end by the parser of
    patterns. *)
Example source_patterns_parse :
  forallb Re.parses
    (map u
       ["^#{1,6}\s+.*?$";
        "\[(?:HOST|CO-HOST|PROWADZĄCY|WSPÓŁPROWADZĄCY|H|C)\][\s:]*";
        "^(?:HOST|CO-HOST|PROWADZĄCY|WSPÓŁPROWADZĄCY|Host|Co-Host)[:\s]+";
        "\*\*([^*]+)\*\*"; "\*+";
        "(?:kontynuacja|continuation|część\s*\d+|part\s*\d+)[\s:]*";
        "\([^)]{1,30}\)"; "\[\s*\]|\(\s*\)";
        "^(?:INTRO|OUTRO|TEMAT\s*\d*|TOPIC\s*\d*|SEGMENT\s*\d*)[:\s]*$";
        "https?://\S+"; "_{2,}|~{2,}|`+"; "\n{3,}"; "[ \t]+"; "^\s+|\s+$";
        "(.)\1{5,}"; "\b"; "\s+"; "\s{2,}";
        "(?<![a-zA-ZąćęłńóśźżĄĆĘŁŃÓŚŹŻ])"; "(?=\s|$|[,;:!?])";
        "(\w{2,})\s+(ale|więc|jednak|natomiast|czyli|dlatego)\s+";
        "[.!?]\s+"; "[,;]\s+";
        "\[(HOST|CO-HOST)\]\s*(.+?)(?=\[(?:HOST|CO-HOST)\]|$)";
        "\*\*(HOST|CO-HOST)\*\*[:\s]+(.+?)(?=\*\*(?:HOST|CO-HOST)\*\*|$)";
        "\*\*(?:Host|HOST)\s*\([HC]\)\*?\*?[:\s]+(.+?)(?=\*\*(?:Host|Co-Host|HOST|CO-HOST)|$)";
        "\*\*(?:Co-Host|CO-HOST)\s*\([HC]\)\*?\*?[:\s]+(.+?)(?=\*\*(?:Host|Co-Host|HOST|CO-HOST)|$)";
        "^(HOST|CO-HOST)[:\s]+(.+?)(?=^(?:HOST|CO-HOST)[:\s]|\Z)";
        "^([HC])[:\s]+(.+?)(?=^[HC][:\s]|\Z)";
        "\*\*([^*]+)\*\*[:\s]+(.+?)(?=\*\*[^*]+\*\*|\Z)";
        "\*\*\[.*?\]\*\*"; "\*\*"; "^\*+\s*"; "\s*\*+$";
        "\s+(?:jest|to|są)\s*$"]%string
     ++ map (fun n => u "(\S{" ++ TextNormalizer.decimal n ++ u "}(?:\s+\S{"
                        ++ TextNormalizer.decimal n ++ u "})?)\s+\1\s+\1")
            (List.seq 2 5))
  = true.
Proof. vm_compute. reflexivity. Qed.

(** The two scenarios of the specification for the parser. *)
Example tagged_script_parses :
  ScriptGenerator._parse_script
    (u "[HOST] Witaj w podcaście!" ++ [LF; LF]
       ++ u "[CO-HOST] Dziękuję, super że tu jestem.")
  = [Models.new_segment Models.HOST (u "Witaj w podcaście!");
     Models.new_segment Models.CO_HOST (u "Dziękuję, super że tu jestem.")].
Proof. vm_compute. reflexivity. Qed.

Example untagged_paragraphs_alternate :
  map Models.speaker
      (ScriptGenerator._parse_script
         (u "Pierwszy akapit." ++ [LF; LF] ++ u "Drugi akapit." ++ [LF; LF]
            ++ u "Trzeci akapit." ++ [LF; LF] ++ u "Czwarty akapit."))
  = [Models.HOST; Models.CO_HOST; Models.HOST; Models.CO_HOST].
Proof. vm_compute. reflexivity. Qed.
(** * The chunker *)

Section Chunker.
Context {U : UnicodeDB}.
Import StrFacts TtsEngine.

(** C4. For every text and every limit, each chunk the chunker
    returns is no longer than the limit, and the chunks joined with
    single spaces hold the characters of the text that are not white
    space, in order.  With a limit of one character or more the
    chunker does return, within as many turns as the text has
    characters. *)
Theorem chunks_within_limit_and_complete (text : str) (max_chars : Z) :
  (forall fuel chunks,
      _split_long_text fuel text max_chars = Some chunks ->
      Forall (fun chunk => (len chunk <= max_chars)%Z) chunks
      /\ nonws (join (u " ") chunks) = nonws text)
  /\ ((1 <= max_chars)%Z ->
      exists chunks,
        forall fuel, length text <= fuel ->
                     _split_long_text fuel text max_chars = Some chunks).
Proof.
  split.
  - intros fuel chunks. apply ChunkerFacts.split_long_text_sound.
  - apply ChunkerFacts.split_long_text_returns.
Qed.

(** C5, at the limit 0.  The text [ab] does not fit a limit of zero
    characters; every turn of the loop then appends an empty chunk
    and leaves the rest as it was, so the chunker never returns. *)
Theorem zero_limit_never_returns (fuel : nat) :
  _split_long_text fuel (u "ab") 0 = None.
Proof.
  unfold _split_long_text. change (len (u "ab") <=? 0)%Z with false. cbv iota.
  apply ChunkerFacts.split_loop_diverges; [lia|].
  exists [97%N], 98%N. split; reflexivity.
Qed.

End Chunker.

Lemma chunks_within_limit_and_complete_witness :
  exists chunks,
    TtsEngine._split_long_text 23 (u "Ala ma kota. Kot ma Ale") 10 = Some chunks
    /\ Forall (fun chunk => (len chunk <= 10)%Z) chunks
    /\ nonws (join (u " ") chunks) = nonws (u "Ala ma kota. Kot ma Ale").
Proof.
  destruct (@chunks_within_limit_and_complete py_unicode (u "Ala ma kota. Kot ma Ale") 10)
    as [Hsound Hreturns].
  destruct (Hreturns ltac:(lia)) as [chunks Hc].
  specialize (Hc 23 ltac:(vm_compute; lia)).
  exists chunks. split; [exact Hc|]. apply (Hsound 23). exact Hc.
Defined.

(** * The script assembler *)

Section Assembler.
Import ScriptGenerator.
Variable server : list request -> answer.
Variable self : ScriptGenerator.
Variable articles_text : str.

Lemma continuation_loop_short log main_script count min_length attempts r continuation :
  (len main_script < min_length)%Z ->
  server (log ++ [continuation_prompt self articles_text main_script]) = Replies r ->
  status_code r = 200%Z -> content r = Some continuation ->
  (len continuation < 300)%Z ->
  continuation_loop server self articles_text min_length (S attempts) main_script count log
  = (Returns (main_script, count + 1),
     log ++ [continuation_prompt self articles_text main_script]).
Proof.
  intros Hmin Hs Hst Hc Hlen. cbn [continuation_loop].
  apply Z.ltb_lt in Hmin. rewrite Hmin.
  unfold bind, _call_llm_continuation, bind, post. rewrite Hs, Hst. simpl.
  unfold message_content. rewrite Hc. unfold ret.
  apply Z.ltb_lt in Hlen. rewrite Hlen, orb_true_r. reflexivity.
Qed.

(** A continuation call that fails with a status is answered by the
    empty text: the loop stops and hands back the script it has. *)
Lemma continuation_loop_failed log main_script count min_length attempts r :
  (len main_script < min_length)%Z ->
  server (log ++ [continuation_prompt self articles_text main_script]) = Replies r ->
  status_code r <> 200%Z ->
  continuation_loop server self articles_text min_length (S attempts) main_script count log
  = (Returns (main_script, count + 1),
     log ++ [continuation_prompt self articles_text main_script]).
Proof.
  intros Hmin Hs Hst. cbn [continuation_loop].
  apply Z.ltb_lt in Hmin. rewrite Hmin.
  unfold bind, _call_llm_continuation, bind, post. rewrite Hs.
  apply Z.eqb_neq in Hst. rewrite Hst. reflexivity.
Qed.

(** The loop asks for at most as many continuations as it is allowed. *)
Lemma continuation_loop_requests min_length attempts :
  forall main_script count log out log',
    continuation_loop server self articles_text min_length attempts main_script count log
    = (out, log') ->
    length log' <= length log + attempts.
Proof.
  induction attempts as [|attempts IH]; intros main_script count log out log'.
  - simpl. unfold ret. intros H; injection H as _ <-. lia.
  - cbn [continuation_loop].
    destruct (len main_script <? min_length)%Z.
    + unfold bind at 1. unfold _call_llm_continuation, bind, post.
      set (log1 := log ++ [continuation_prompt self articles_text main_script]).
      assert (Hlog1 : length log1 = length log + 1)
        by (unfold log1; rewrite length_app; reflexivity).
      destruct (server log1) as [|r].
      * intros H; injection H as _ <-. lia.
      * assert (Hk : forall m : M str,
                   (m = ret [] \/ m = message_content r) ->
                   forall k' : str -> M (str * nat),
                     (forall c l o l', k' c l = (o, l') -> length l' <= length l + attempts) ->
                     forall o l', (let (o1, l1) := m log1 in
                                   match o1 with
                                   | Returns a => k' a l1
                                   | Raises e => (Raises e, l1)
                                   end) = (o, l') ->
                                  length l' <= length log + S attempts).
        { intros m Hm k' Hk' o l'. destruct Hm as [-> | ->].
          - unfold ret. intros H. apply Hk' in H. lia.
          - unfold message_content. destruct (content r).
            + unfold ret. intros H. apply Hk' in H. lia.
            + unfold raise. intros H; injection H as _ <-. lia. }
        intros H.
        eapply (Hk (if negb (status_code r =? 200)%Z then ret [] else message_content r)).
        -- destruct (negb (status_code r =? 200)%Z); [now left | now right].
        -- intros c l o l'.
           instantiate (1 := fun continuation =>
                if match continuation with [] => true | _ :: _ => false end
                   || (len continuation <? 300)%Z
                then ret (main_script, count + 1)
                else continuation_loop server self articles_text min_length attempts
                       (main_script ++ [LF; LF] ++ continuation) (count + 1)).
           cbv beta.
           destruct (match c with [] => true | _ :: _ => false end || (len c <? 300)%Z).
           ++ unfold ret. intros Hr; injection Hr as _ <-. lia.
           ++ apply IH.
        -- exact H.
    + unfold ret. intros H; injection H as _ <-. lia.
Qed.

(** C1, as amended.  When the first call returns 500 characters and
    the first continuation call returns 250, fewer than the 300 the
    loop asks of a continuation, the loop stops after that one
    continuation, no error is raised, and the script returned is the
    text of the first call as it is, 500 characters: the short
    continuation is left out.  This holds for the target of 1000
    characters and for the 15000 of [_generate_detailed_script]. *)
Theorem short_continuation_stops_the_loop (r1 r2 : response) (initial continuation : str) :
  server [ScriptRequest (language self) articles_text] = Replies r1 ->
  status_code r1 = 200%Z -> content r1 = Some initial ->
  server [ScriptRequest (language self) articles_text;
          continuation_prompt self articles_text initial] = Replies r2 ->
  status_code r2 = 200%Z -> content r2 = Some continuation ->
  len initial = 500%Z -> len continuation = 250%Z ->
  assemble server self articles_text 1000 5 []
  = (Returns (initial, 1),
     [ScriptRequest (language self) articles_text;
      continuation_prompt self articles_text initial])
  /\ _generate_detailed_script server self articles_text []
     = (Returns initial,
        [ScriptRequest (language self) articles_text;
         continuation_prompt self articles_text initial])
  /\ len initial = 500%Z.
Proof.
  intros H1 S1 C1 H2 S2 C2 L1 L2.
  assert (Hfirst : _call_llm server self articles_text []
                   = (Returns initial, [ScriptRequest (language self) articles_text])).
  { unfold _call_llm, bind, post. simpl. rewrite H1, S1. simpl.
    unfold message_content. rewrite C1. reflexivity. }
  assert (Hloop : forall min_length, (500 < min_length)%Z ->
            continuation_loop server self articles_text min_length 5 initial 0
                              [ScriptRequest (language self) articles_text]
            = (Returns (initial, 1),
               [ScriptRequest (language self) articles_text;
                continuation_prompt self articles_text initial])).
  { intros min_length Hmin.
    apply (@continuation_loop_short [ScriptRequest (language self) articles_text]
                                    initial 0 min_length 4 r2 continuation);
      try assumption; lia. }
  repeat split.
  - unfold assemble, bind. rewrite Hfirst. apply Hloop. lia.
  - unfold _generate_detailed_script, assemble, bind. rewrite Hfirst.
    rewrite Hloop by lia. reflexivity.
  - assumption.
Qed.

(** C6, as amended.  A first call that fails with a status raises an
    error after that one request.  A continuation call that fails with
    a status is not retried and raises nothing: it counts as an empty
    continuation, the loop stops, and the script assembled so far is
    returned.  Whatever the service answers, the assembler makes no
    more requests than one plus the continuations it is allowed. *)
Theorem failed_calls (r : response) :
  status_code r <> 200%Z ->
  (server [ScriptRequest (language self) articles_text] = Replies r ->
   _generate_detailed_script server self articles_text []
   = (Raises (RuntimeError (u "Ollama API error: " ++ response_text r)),
      [ScriptRequest (language self) articles_text]))
  /\ (forall log main_script count min_length attempts,
         (len main_script < min_length)%Z ->
         server (log ++ [continuation_prompt self articles_text main_script]) = Replies r ->
         continuation_loop server self articles_text min_length (S attempts)
                           main_script count log
         = (Returns (main_script, count + 1),
            log ++ [continuation_prompt self articles_text main_script]))
  /\ (forall min_length max_continuations out log,
         assemble server self articles_text min_length max_continuations [] = (out, log) ->
         length log <= 1 + max_continuations).
Proof.
  intros Hst. repeat split.
  - intros Hs. unfold _generate_detailed_script, assemble, bind, _call_llm, bind, post.
    simpl. rewrite Hs. apply Z.eqb_neq in Hst. rewrite Hst. reflexivity.
  - intros log main_script count min_length attempts Hmin Hs.
    now apply continuation_loop_failed with (r := r).
  - intros min_length max_continuations out log.
    unfold assemble, bind at 1.
    destruct (_call_llm server self articles_text []) as [[main_script|e] log1] eqn:E.
    + assert (Hl : length log1 = 1).
      { revert E. unfold _call_llm, bind, post. simpl.
        destruct (server _) as [|r0]; [discriminate|].
        destruct (negb (status_code r0 =? 200)%Z); [discriminate|].
        unfold message_content. destruct (content r0); unfold ret, raise;
          intros H; injection H as _ <-; reflexivity. }
      intros H. apply continuation_loop_requests in H. lia.
    + assert (Hl : length log1 = 1).
      { revert E. unfold _call_llm, bind, post. simpl.
        destruct (server _) as [|r0]; [intros H; injection H as _ <-; reflexivity|].
        destruct (negb (status_code r0 =? 200)%Z);
          [intros H; injection H as _ <-; reflexivity|].
        unfold message_content. destruct (content r0); unfold ret, raise;
          intros H; injection H as _ <-; reflexivity. }
      intros H; injection H as _ <-. lia.
Qed.

End Assembler.

Lemma short_scenario_run :
  ScriptGenerator.assemble short_scenario polish_generator (u "SOURCE: feed") 1000 5 []
  = (ScriptGenerator.Returns (repeat 97%N 500, 1),
     [ScriptGenerator.ScriptRequest (u "pl") (u "SOURCE: feed");
      ScriptGenerator.continuation_prompt polish_generator (u "SOURCE: feed")
                                          (repeat 97%N 500)]).
Proof. vm_compute. reflexivity. Qed.

Lemma short_continuation_stops_the_loop_witness :
  ScriptGenerator.assemble short_scenario polish_generator (u "SOURCE: feed") 1000 5 []
  = (ScriptGenerator.Returns (repeat 97%N 500, 1),
     [ScriptGenerator.ScriptRequest (u "pl") (u "SOURCE: feed");
      ScriptGenerator.continuation_prompt polish_generator (u "SOURCE: feed")
                                          (repeat 97%N 500)])
  /\ ScriptGenerator._generate_detailed_script short_scenario polish_generator
                                               (u "SOURCE: feed") []
     = (ScriptGenerator.Returns (repeat 97%N 500),
        [ScriptGenerator.ScriptRequest (u "pl") (u "SOURCE: feed");
         ScriptGenerator.continuation_prompt polish_generator (u "SOURCE: feed")
                                             (repeat 97%N 500)])
  /\ len (repeat 97%N 500) = 500%Z.
Proof.
  apply (@short_continuation_stops_the_loop
           short_scenario polish_generator (u "SOURCE: feed")
           (ok_response (repeat 97%N 500))
           (ok_response (repeat 98%N 250))
           (repeat 97%N 500) (repeat 98%N 250));
    vm_compute; reflexivity.
Defined.

(** C1 as stated fails: in its scenario no script of 750 characters is
    returned. *)
Lemma short_continuation_not_appended :
  ~ (exists script count log,
        ScriptGenerator.assemble short_scenario polish_generator (u "SOURCE: feed")
                                 1000 5 []
        = (ScriptGenerator.Returns (script, count), log)
        /\ len script = 750%Z).
Proof.
  intros (script & count & log & H & L).
  rewrite short_scenario_run in H. injection H as <- _ _.
  vm_compute in L. discriminate.
Defined.

Lemma failed_calls_witness :
  (failing_scenario [ScriptGenerator.ScriptRequest (u "pl") (u "SOURCE: feed")]
   = ScriptGenerator.Replies (error_response 500 (u "model not loaded")) ->
   ScriptGenerator._generate_detailed_script failing_scenario polish_generator
                                             (u "SOURCE: feed") []
   = (ScriptGenerator.Raises
        (ScriptGenerator.RuntimeError (u "Ollama API error: " ++ u "model not loaded")),
      [ScriptGenerator.ScriptRequest (u "pl") (u "SOURCE: feed")]))
  /\ (forall log main_script count min_length attempts,
         (len main_script < min_length)%Z ->
         failing_scenario
           (log ++ [ScriptGenerator.continuation_prompt polish_generator
                      (u "SOURCE: feed") main_script])
         = ScriptGenerator.Replies
             (error_response 500 (u "model not loaded")) ->
         ScriptGenerator.continuation_loop failing_scenario polish_generator
           (u "SOURCE: feed") min_length (S attempts) main_script count log
         = (ScriptGenerator.Returns (main_script, count + 1),
            log ++ [ScriptGenerator.continuation_prompt polish_generator
                      (u "SOURCE: feed") main_script]))
  /\ (forall min_length max_continuations out log,
         ScriptGenerator.assemble failing_scenario polish_generator (u "SOURCE: feed")
                                  min_length max_continuations [] = (out, log) ->
         length log <= 1 + max_continuations).
Proof.
  apply (@failed_calls failing_scenario polish_generator (u "SOURCE: feed")
                       (error_response 500 (u "model not loaded"))).
  vm_compute. discriminate.
Defined.

(** C6 as stated fails: the continuation call is answered with status
    500, and the generator returns a script instead of raising. *)
Lemma failed_continuation_not_surfaced :
  exists log r,
    ScriptGenerator._generate_detailed_script failing_scenario polish_generator
                                              (u "SOURCE: feed") []
    = (ScriptGenerator.Returns (u "[HOST] Witaj w podcaście!"), log)
    /\ failing_scenario log = ScriptGenerator.Replies r
    /\ ScriptGenerator.status_code r = 500%Z.
Proof.
  eexists. eexists. split; [vm_compute; reflexivity|].
  split; vm_compute; reflexivity.
Defined.

(** * The segment parser *)

Section Parser.
Context {U : UnicodeDB}.
Import ScriptGenerator Models.

Lemma in_segments_of_matches matches seg :
  In seg (segments_of_matches matches) ->
  (10 < len (text seg))%Z
  /\ exists speaker_str t,
      In (speaker_str, t) matches /\ text seg = clean_match_text t.
Proof.
  unfold segments_of_matches. intros H.
  apply in_flat_map in H as ([speaker_str t] & Hin & H).
  destruct (negb match clean_match_text t with [] => true | _ :: _ => false end
            && (10 <? len (clean_match_text t))%Z) eqn:E; [|destruct H].
  destruct H as [<-|[]]. apply andb_prop in E as [_ E]. apply Z.ltb_lt in E.
  split; [exact E|]. exists speaker_str, t. split; [exact Hin | reflexivity].
Qed.

Lemma in_firstn {A} (x : A) n l : In x (firstn n l) -> In x l.
Proof.
  revert l. induction n as [|n IH]; intros [|y l]; simpl; try tauto.
  intros [H|H]; [now left | right; now apply IH].
Qed.

Lemma in_fallback_segments raw_script seg :
  In seg (fallback_segments raw_script) ->
  exists paragraph,
    In paragraph (split_on [LF; LF] raw_script) /\ text seg = strip paragraph.
Proof.
  unfold fallback_segments. intros H.
  apply in_map_iff in H as ([i line] & <- & H).
  apply in_combine_r in H. apply in_firstn in H.
  apply in_map_iff in H as (paragraph & <- & H).
  apply filter_In in H as [H _]. exists paragraph. split; [exact H | reflexivity].
Qed.

(** C3, as amended.  When a pattern or the loose parsing yields
    matches, every segment emitted is the cleanup of a matched text and
    is longer than 10 characters.  When none does, the segments are
    those of the paragraph fallback, whose texts are paragraphs of the
    input stripped of surrounding white space and nothing more: the
    fallback applies neither the cleanup nor the length filter. *)
Theorem matched_segments_are_cleaned (raw_script : str) :
  (chosen_matches raw_script <> [] ->
   forall seg, In seg (_parse_script raw_script) ->
               (10 < len (text seg))%Z
               /\ exists speaker_str t,
                   In (speaker_str, t) (chosen_matches raw_script)
                   /\ text seg = clean_match_text t)
  /\ (chosen_matches raw_script = [] ->
      _parse_script raw_script = fallback_segments raw_script
      /\ forall seg, In seg (_parse_script raw_script) ->
                     exists paragraph,
                       In paragraph (split_on [LF; LF] raw_script)
                       /\ text seg = strip paragraph).
Proof.
  unfold _parse_script. split.
  - intros Hne seg. destruct (chosen_matches raw_script) as [|m ms]; [congruence|].
    apply in_segments_of_matches.
  - intros ->. split; [reflexivity|]. intros seg. apply in_fallback_segments.
Qed.

(** The matches of the bracket-tag pattern, as (tag, text) pairs. *)
Lemma first_found_bracket raw_script :
  found_by (bracket_pattern, no_opts) raw_script <> [] ->
  first_found patterns raw_script
  = map (fun m => (Re.group m 1, Re.group m 2))
        (found_by (bracket_pattern, no_opts) raw_script).
Proof.
  intros Hne. unfold patterns. cbn [first_found].
  destruct (found_by (bracket_pattern, no_opts) raw_script) as [|m ms];
    [congruence | reflexivity].
Qed.

(** C9.  When the bracket-tag pattern finds matches in a text in which
    the loose parsing would find some too, the segments are those made
    from the bracket-tag matches alone. *)
Theorem bracket_tags_take_priority (raw_script : str) :
  found_by (bracket_pattern, no_opts) raw_script <> [] ->
  loose_matches raw_script <> [] ->
  _parse_script raw_script
  = segments_of_matches
      (map (fun m => (Re.group m 1, Re.group m 2))
           (found_by (bracket_pattern, no_opts) raw_script)).
Proof.
  intros Hbracket _. unfold _parse_script, chosen_matches.
  rewrite first_found_bracket by assumption.
  destruct (found_by (bracket_pattern, no_opts) raw_script) as [|m ms];
    [congruence | reflexivity].
Qed.

End Parser.

Lemma matched_segments_are_cleaned_witness :
  Forall
    (fun seg =>
       (10 < len (Models.text seg))%Z
       /\ exists speaker_str t,
           In (speaker_str, t)
              (ScriptGenerator.chosen_matches
                 (u "[HOST] Witaj w podcaście! [CO-HOST] Dziękuję, super że tu jestem."))
           /\ Models.text seg = ScriptGenerator.clean_match_text t)
    (ScriptGenerator._parse_script
       (u "[HOST] Witaj w podcaście! [CO-HOST] Dziękuję, super że tu jestem.")).
Proof.
  apply Forall_forall.
  apply (proj1 (@matched_segments_are_cleaned py_unicode
                  (u "[HOST] Witaj w podcaście! [CO-HOST] Dziękuję, super że tu jestem."))).
  vm_compute. discriminate.
Defined.

(** C3 as stated fails: a text without tags goes through the paragraph
    fallback, which emits a segment of five characters. *)
Lemma fallback_emits_short_segment :
  ScriptGenerator._parse_script (u "Hello") = [Models.new_segment Models.HOST (u "Hello")]
  /\ (len (u "Hello") <= 10)%Z.
Proof. split; vm_compute; [reflexivity | discriminate]. Defined.

Lemma bracket_tags_take_priority_witness :
  ScriptGenerator._parse_script (u "[HOST] **Host:** Welcome to the show today")
  = ScriptGenerator.segments_of_matches
      (map (fun m => (Re.group m 1, Re.group m 2))
           (ScriptGenerator.found_by
              (ScriptGenerator.bracket_pattern, ScriptGenerator.no_opts)
              (u "[HOST] **Host:** Welcome to the show today"))).
Proof.
  apply (@bracket_tags_take_priority py_unicode
           (u "[HOST] **Host:** Welcome to the show today"));
    vm_compute; discriminate.
Defined.

(** * The artifact detector *)

Section Detector.
Context {U : UnicodeDB}.
Import TextNormalizer.

Lemma distinct_run (w : str) : distinct [w; w; w; w] = 1.
Proof.
  unfold distinct. cbn [nodup].
  repeat (destruct (in_dec (list_eq_dec N.eq_dec) w (w :: _)) as [_|n];
          [|exfalso; apply n; now left]).
  destruct (in_dec (list_eq_dec N.eq_dec) w []) as [[]|_]. reflexivity.
Qed.

(** Four equal words of two or more characters in a row, among the
    words the detector looks at, make the text an artifact. *)
Lemma word_run_detected (text : str) (before after : list str) (w : str) :
  split_ws (str_lower text) = before ++ [w; w; w; w] ++ after ->
  2 <= length w ->
  detect_repetition_artifacts text = true.
Proof.
  intros Hwords Hlen.
  unfold detect_repetition_artifacts, detect_repetition_artifacts_with.
  destruct (Re.search Re.no_flags (Re.compile "(.)\1{5,}") (str_lower text));
    [reflexivity|].
  rewrite Hwords.
  set (words := before ++ [w; w; w; w] ++ after).
  assert (Hl : length words = length before + 4 + length after).
  { unfold words. rewrite !length_app. simpl. lia. }
  assert (Hrun :
    (3 + 1 <=? length words)
    && existsb
         (fun i => (distinct (sublist words i (i + 3 + 1)) =? 1)
                   && (2 <=? length (nth i words [])))
         (List.seq 0 (length words - 3)) = true).
  { apply andb_true_intro. split; [apply Nat.leb_le; lia|].
    apply existsb_exists. exists (length before). split.
    - apply in_seq. lia.
    - apply andb_true_intro. split.
      + unfold sublist.
        replace (length before + 3 + 1 - length before) with 4 by lia.
        unfold words. rewrite skipn_app, skipn_all, Nat.sub_diag. simpl.
        apply Nat.eqb_eq. apply distinct_run.
      + unfold words. rewrite app_nth2 by lia. rewrite Nat.sub_diag.
        cbn [nth app]. apply Nat.leb_le. exact Hlen. }
  rewrite Hrun. reflexivity.
Qed.

End Detector.

(** With the tables for Latin text, four equal words of the text in a
    row are four equal words of the text in lower case. *)
Lemma latin_word_run_detected (text : str) (before after : list str) (w : str) :
  split_ws text = before ++ [w; w; w; w] ++ after ->
  2 <= length w ->
  @TextNormalizer.detect_repetition_artifacts py_unicode text = true.
Proof.
  intros Hwords Hlen.
  apply (@word_run_detected py_unicode text
           (map Latin.lower before) (map Latin.lower after) (Latin.lower w)).
  - change (@str_lower py_unicode text) with (Latin.lower text).
    rewrite LowerFacts.latin_lower_words, Hwords, !map_app. reflexivity.
  - etransitivity; [exact Hlen|]. apply LowerFacts.latin_lower_length.
    apply (@LowerFacts.split_ws_words text w).
    rewrite Hwords. apply in_or_app. right. now left.
Qed.

(** C8.  The detector flags [tak tak tak tak tak] and passes
    [to jest normalny tekst]; and whatever the text, a word of two or
    more characters that comes four times in a row makes it an
    artifact.  The detector compares the words of the text in lower
    case: the run is detected among those for every character
    database, and with the tables for Latin text a run among the words
    of the text as written is one. *)
Theorem repeated_words_are_artifacts :
  TextNormalizer.detect_repetition_artifacts (u "tak tak tak tak tak") = true
  /\ TextNormalizer.detect_repetition_artifacts (u "to jest normalny tekst") = false
  /\ (forall (U : UnicodeDB) (text : str) (before after : list str) (w : str),
         split_ws (str_lower text) = before ++ [w; w; w; w] ++ after ->
         2 <= length w ->
         TextNormalizer.detect_repetition_artifacts text = true)
  /\ (forall (text : str) (before after : list str) (w : str),
         split_ws text = before ++ [w; w; w; w] ++ after ->
         2 <= length w ->
         @TextNormalizer.detect_repetition_artifacts py_unicode text = true).
Proof.
  split; [vm_compute; reflexivity|]. split; [vm_compute; reflexivity|]. split.
  - intros U text before after w. apply word_run_detected.
  - apply latin_word_run_detected.
Qed.

Lemma repeated_words_are_artifacts_witness :
  TextNormalizer.detect_repetition_artifacts (u "no i Tak tak TAK tak wiesz") = true
  /\ TextNormalizer.detect_repetition_artifacts (u "ale nie nie nie nie wiem") = true.
Proof.
  split.
  - apply (proj1 (proj2 (proj2 repeated_words_are_artifacts))
                 py_unicode (u "no i Tak tak TAK tak wiesz")
                 [u "no"; u "i"] [u "wiesz"] (u "tak")).
    + vm_compute. reflexivity.
    + vm_compute. lia.
  - apply (proj2 (proj2 (proj2 repeated_words_are_artifacts))
                 (u "ale nie nie nie nie wiem")
                 [u "ale"] [u "wiem"] (u "nie")).
    + vm_compute. reflexivity.
    + vm_compute. lia.
Defined.

(** * Splitting a segment *)

Section SplitSegment.
Context {U : UnicodeDB} {T : Re.Templates}.
Import Models TtsEngine StrFacts.

Lemma char_limits_table :
  XTTS_CHAR_LIMITS
  = [(u "pl", 224); (u "en", 250); (u "de", 250); (u "es", 250);
     (u "fr", 250); (u "it", 250); (u "pt", 250); (u "default", 200)]%Z.
Proof. reflexivity. Qed.

(** Every language has a limit of 200 characters or more. *)
Lemma char_limit_min (lang : str) : (200 <= char_limit lang)%Z.
Proof.
  unfold char_limit.
  change (dict_get XTTS_CHAR_LIMITS (u "default")) with (Some 200%Z).
  rewrite char_limits_table. cbn [dict_get].
  repeat match goal with
         | |- context [if str_beq ?a ?b then _ else _] => destruct (str_beq a b)
         end; lia.
Qed.

(** The limits of the table, and seven tenths of them as the float
    product gives them. *)
Lemma char_limit_cases (lang : str) :
  char_limit lang = 224%Z \/ char_limit lang = 250%Z \/ char_limit lang = 200%Z.
Proof.
  unfold char_limit.
  change (dict_get XTTS_CHAR_LIMITS (u "default")) with (Some 200%Z).
  rewrite char_limits_table. cbn [dict_get].
  repeat match goal with
         | |- context [if str_beq ?a ?b then _ else _] => destruct (str_beq a b)
         end; auto.
Qed.

Lemma safe_limit_cases (lang : str) :
  safe_limit_of (char_limit lang) = 156%Z
  \/ safe_limit_of (char_limit lang) = 175%Z
  \/ safe_limit_of (char_limit lang) = 140%Z.
Proof.
  destruct (char_limit_cases lang) as [-> | [-> | ->]];
    [left | right; left | right; right]; vm_compute; reflexivity.
Qed.

Lemma safe_limit_min (lang : str) : (1 <= safe_limit_of (char_limit lang))%Z.
Proof. destruct (safe_limit_cases lang) as [-> | [-> | ->]]; lia. Qed.

(** C10.  When the normalised text of a segment is longer than the
    limit of the language, the segment is split into sub-segments that
    all carry the speaker of the segment, and whose texts, read in
    order, hold the characters of the sanitized text that are not white
    space, in the order of that text. *)
Theorem split_segments_keep_speaker_and_order
        (self : TTSEngine) (segment : Segment) (sanitized normalized : str) :
  TextNormalizer.sanitize_segment_text (text segment) = Some sanitized ->
  sanitized <> [] ->
  normalized_text self sanitized = Ok normalized ->
  (char_limit (language self) < len normalized)%Z ->
  exists segments,
    (forall fuel, length sanitized <= fuel ->
                  _split_segment_if_needed fuel self segment = Some (Ok segments))
    /\ Forall (fun sub => speaker sub = speaker segment) segments
    /\ nonws (concat (map text segments)) = nonws sanitized.
Proof.
  intros Hsan Hne Hnorm Hlong.
  destruct (@ChunkerFacts.split_long_text_returns
              U sanitized (safe_limit_of (char_limit (language self)))
              (safe_limit_min (language self))) as [chunks Hchunks].
  exists (map (fun chunk => new_segment (speaker segment) chunk) chunks).
  split; [|split].
  - intros fuel Hfuel. unfold _split_segment_if_needed. rewrite Hsan.
    destruct sanitized as [|c t]; [congruence|].
    rewrite Hnorm. apply Z.leb_gt in Hlong. rewrite Hlong.
    rewrite (Hchunks fuel Hfuel). reflexivity.
  - apply Forall_forall. intros sub Hin.
    apply in_map_iff in Hin as (chunk & <- & _). reflexivity.
  - rewrite map_map. cbn [text new_segment]. rewrite map_id.
    rewrite <- nonws_join_space.
    specialize (Hchunks (length sanitized) (le_n _)).
    apply ChunkerFacts.split_long_text_sound in Hchunks. apply Hchunks.
Qed.

End SplitSegment.

Lemma split_segments_keep_speaker_and_order_witness :
  exists segments,
    (forall fuel, 251 <= fuel ->
                  TtsEngine._split_segment_if_needed fuel plain_engine long_segment
                  = Some (Ok segments))
    /\ Forall (fun sub => Models.speaker sub = Models.CO_HOST) segments
    /\ nonws (concat (map Models.text segments))
       = nonws (Models.text long_segment).
Proof.
  eapply (@split_segments_keep_speaker_and_order
            py_unicode py_templates plain_engine long_segment
            (Models.text long_segment)).
  - vm_compute. reflexivity.
  - vm_compute. discriminate.
  - vm_compute. reflexivity.
  - vm_compute. reflexivity.
Defined.

(** * The pronunciation normaliser *)

Section Normalizer.
Context {U : UnicodeDB} {T : Re.Templates}.
Import TextNormalizer.

Lemma insert_by_len_perm x l : Permutation (x :: l) (insert_by_len x l).
Proof.
  induction l as [|y t IH]; simpl; [apply Permutation_refl|].
  destruct (length y <? length x); [apply Permutation_refl|].
  eapply perm_trans; [apply perm_swap|]. now apply perm_skip.
Qed.

Lemma insert_by_len_sorted x l :
  StronglySorted not_shorter l -> StronglySorted not_shorter (insert_by_len x l).
Proof.
  induction 1 as [|y t Hsorted IH Hall]; simpl.
  - constructor; constructor.
  - destruct (Nat.ltb_spec (length y) (length x)) as [Hlt|Hge].
    + constructor; [now constructor|]. constructor.
      * unfold not_shorter. lia.
      * eapply Forall_impl; [|exact Hall]. unfold not_shorter. intros z Hz. lia.
    + constructor; [exact IH|].
      eapply Permutation_Forall; [apply insert_by_len_perm|].
      constructor; [exact Hge | exact Hall].
Qed.

Lemma sorted_fold terms :
  forall acc,
    StronglySorted not_shorter acc ->
    StronglySorted not_shorter (fold_left (fun acc x => insert_by_len x acc) terms acc)
    /\ Permutation (acc ++ terms)
                   (fold_left (fun acc x => insert_by_len x acc) terms acc).
Proof.
  induction terms as [|x terms IH]; intros acc Hacc; simpl.
  - split; [assumption|]. now rewrite app_nil_r.
  - destruct (IH (insert_by_len x acc) (insert_by_len_sorted x Hacc)) as [Hs Hp].
    split; [assumption|].
    eapply perm_trans; [|exact Hp].
    eapply perm_trans; [apply Permutation_sym, Permutation_middle|].
    change (x :: acc ++ terms) with ((x :: acc) ++ terms).
    apply Permutation_app_tail. apply insert_by_len_perm.
Qed.

(** The terms are sorted by descending length, and they are all
    there. *)
Lemma sorted_longest_first_spec terms :
  StronglySorted not_shorter (sorted_longest_first terms)
  /\ Permutation terms (sorted_longest_first terms).
Proof. apply (sorted_fold terms (acc := [])). constructor. Qed.

Lemma sorted_before l1 x l2 :
  StronglySorted not_shorter (l1 ++ x :: l2) ->
  Forall (fun k => length x <= length k) l1
  /\ Forall (fun k => length k <= length x) l2.
Proof.
  induction l1 as [|y l1 IH]; simpl; intros H.
  - split; [constructor|]. apply StronglySorted_inv in H as [_ H]. exact H.
  - apply StronglySorted_inv in H as [Hs Hall].
    destruct (IH Hs) as [H1 H2]. split; [|exact H2].
    constructor; [|exact H1].
    rewrite Forall_forall in Hall. apply Hall. apply in_elt.
Qed.




(** The pronunciations of a table without a backslash are no
    templates: the substitutions return. *)
Lemma substitute_all_returns (pronunciations : dict str) terms :
  (forall k (p : str),
      dict_get pronunciations k = Some p -> existsb (N.eqb Re.backslash) p = false) ->
  forall text, exists result, substitute_all pronunciations terms text = Ok result.
Proof.
  intros Hfree. induction terms as [|k terms IH]; intros text; simpl.
  - now exists text.
  - assert (Hk : exists next, substitute_term pronunciations text k = Ok next).
    { unfold substitute_term.
      destruct (dict_get pronunciations k) as [p|] eqn:E; [|eexists; reflexivity].
      unfold Re.sub_template, Re.replacement. rewrite (Hfree k p E). eexists. reflexivity. }
    destruct Hk as [next ->]. apply IH.
Qed.









End Normalizer.

(** Terms of the Polish table that hold shorter terms of the table. *)
Example ci_cd_as_a_whole :
  TextNormalizer.normalize_text_for_tts (u "CI/CD") (u "pl") = Ok (u "si aj si di").
Proof. vm_compute. reflexivity. Qed.

Example gpt_4_as_a_whole :
  TextNormalizer.normalize_text_for_tts (u "Mamy GPT-4 i GPT") (u "pl")
  = Ok (u "Mamy dżi pi ti cztery i dżi pi ti").
Proof. vm_compute. reflexivity. Qed.


(** The step of a longer term, before the shorter ones it holds. *)
Example ci_cd_step :
  TextNormalizer.substitute_term TextNormalizer.POLISH_PRONUNCIATIONS
                                 (u "Nasz CI/CD i CD") (u "CI/CD")
  = Ok (u "Nasz si aj si di i CD").
Proof. vm_compute. reflexivity. Qed.


(** * The text sanitizer *)

Section Sanitizer.
Context {U : UnicodeDB}.
Import TextNormalizer MeasureFacts CaptureFacts.

(** Bold markers are replaced by the text between them. *)
Lemma unbold_shrinks s :
  shrinks (Re.sub Re.no_flags (Re.compile "\*\*([^*]+)\*\*")
                  (fun m => Re.group m 1) s) s.
Proof.
  apply sub_shrinks. intros m Hm. apply infix_shrinks.
  eapply group_infix; [|exact Hm]. reflexivity.
Qed.

(** Three newlines or more become two. *)
Lemma newlines_shrink s :
  shrinks (Re.sub Re.no_flags (Re.compile "\n{3,}") (fun _ => [LF; LF]) s) s.
Proof.
  apply sub_shrinks. intros m Hm. right.
  apply ReFacts.finditer_bounds in Hm as [_ Hm].
  change (Re.min_len (Re.compile "\n{3,}")) with 3 in Hm.
  pose proof (measure_length (Re.m_text m)).
  change (measure [LF; LF]) with 8. lia.
Qed.

(** A run of spaces and tabs becomes one space. *)
Lemma blanks_shrink s :
  shrinks (Re.sub Re.no_flags (Re.compile "[ \t]+") (fun _ => u " ") s) s.
Proof.
  apply sub_shrinks. intros m Hm.
  apply ReFacts.finditer_bounds in Hm as [_ Hm].
  change (Re.min_len (Re.compile "[ \t]+")) with 1 in Hm.
  change (u " ") with [32%N].
  destruct (Re.m_text m) as [|c [|d t]]; [simpl in Hm; lia| |].
  - destruct (N.eqb_spec c 32) as [->|Hc]; [now left|].
    right. unfold measure, weight. simpl.
    destruct (N.eqb_spec c 32); [congruence | lia].
  - right. pose proof (measure_length (c :: d :: t)).
    change (measure [32%N]) with 3. simpl length in *. lia.
Qed.

(** A pass of the sanitizer leaves the text as it is or makes it
    smaller. *)
Lemma clean_shrinks text : shrinks (clean_script_for_tts text) text.
Proof.
  unfold clean_script_for_tts. cbv zeta.
  repeat first
         [ apply shrinks_refl
         | eapply shrinks_trans;
           [ first [ apply strip_shrinks | apply remove_shrinks
                   | apply unbold_shrinks | apply newlines_shrink
                   | apply blanks_shrink ] | ] ].
Qed.

(** A function that shrinks its argument reaches a fixed point. *)
Lemma shrinking_converges (f : str -> str) :
  (forall x, shrinks (f x) x) ->
  forall fuel text,
    measure text <= fuel ->
    exists n, n <= measure text /\ f (iterate n f text) = iterate n f text.
Proof.
  intros Hf. induction fuel as [|fuel IH]; intros text Hm.
  - exists 0. split; [lia|]. cbn [iterate].
    destruct (Hf text) as [H|H]; [exact H | lia].
  - destruct (Hf text) as [H|H].
    + exists 0. cbn [iterate]. split; [lia | exact H].
    + destruct (IH (f text) ltac:(lia)) as (n & Hn & Hfix).
      exists (S n). cbn [iterate]. split; [lia | exact Hfix].
Qed.

(** C2, as amended.  The sanitizer is not idempotent, but every pass
    leaves the text as it is or makes it strictly smaller in a measure
    (four for each character, less one for each space), so cleaning
    again and again reaches, within as many passes as the measure of
    the input, a text that the sanitizer leaves unchanged; on that
    text cleaning twice is the same as cleaning once. *)
Theorem cleaning_reaches_a_fixed_point (text : str) :
  (clean_script_for_tts text = text
   \/ measure (clean_script_for_tts text) < measure text)
  /\ exists n,
      n <= measure text
      /\ clean_script_for_tts (iterate n clean_script_for_tts text)
         = iterate n clean_script_for_tts text
      /\ clean_script_for_tts
           (clean_script_for_tts (iterate n clean_script_for_tts text))
         = clean_script_for_tts (iterate n clean_script_for_tts text).
Proof.
  split; [apply clean_shrinks|].
  destruct (@shrinking_converges clean_script_for_tts clean_shrinks
                                 (measure text) text (le_n _)) as (n & Hn & Hfix).
  exists n. split; [exact Hn|]. split; [exact Hfix|]. now rewrite !Hfix.
Qed.

End Sanitizer.

(** C2 as stated fails: removing the asterisk lays bare a heading,
    which the next pass removes. *)
Lemma cleaning_twice_differs :
  TextNormalizer.clean_script_for_tts (u "*# Title") = u "# Title"
  /\ TextNormalizer.clean_script_for_tts
       (TextNormalizer.clean_script_for_tts (u "*# Title")) = []
  /\ TextNormalizer.clean_script_for_tts
       (TextNormalizer.clean_script_for_tts (u "*# Title"))
     <> TextNormalizer.clean_script_for_tts (u "*# Title").
Proof.
  split; [vm_compute; reflexivity|]. split; [vm_compute; reflexivity|].
  vm_compute. discriminate.
Defined.

Unset Implicit Arguments.

(** * Further properties *)

(** ** Dictionaries *)

Module DictFacts.

Lemma str_beq_refl (a : str) : str_beq a a = true.
Proof. apply str_beq_eq. reflexivity. Qed.

Lemma str_beq_neq (a b : str) : a <> b -> str_beq a b = false.
Proof.
  intros H. destruct (str_beq a b) eqn:E; [|reflexivity].
  apply str_beq_eq in E. contradiction.
Qed.

Lemma dict_get_set_same {V} (k : str) (v : V) (d : dict V) :
  dict_get (dict_set k v d) k = Some v.
Proof.
  induction d as [|[k' v'] t IH]; simpl.
  - now rewrite str_beq_refl.
  - destruct (str_beq k' k) eqn:E; simpl; rewrite E; [reflexivity | exact IH].
Qed.

Lemma dict_get_set_other {V} (k k2 : str) (v : V) (d : dict V) :
  k2 <> k -> dict_get (dict_set k v d) k2 = dict_get d k2.
Proof.
  intros Hne. induction d as [|[k' v'] t IH]; simpl.
  - rewrite str_beq_neq; [reflexivity | congruence].
  - destruct (str_beq k' k) eqn:E; simpl.
    + apply str_beq_eq in E. subst k'.
      rewrite str_beq_neq; [reflexivity | congruence].
    + destruct (str_beq k' k2); [reflexivity | exact IH].
Qed.

Lemma keys_set_present {V} (k : str) (v : V) (d : dict V) :
  In k (keys d) -> keys (dict_set k v d) = keys d.
Proof.
  unfold keys. induction d as [|[k' v'] t IH]; simpl; [tauto|].
  intros [H | H].
  - subst k'. now rewrite str_beq_refl.
  - destruct (str_beq k' k); simpl; [reflexivity | now rewrite IH].
Qed.

Lemma keys_set_absent {V} (k : str) (v : V) (d : dict V) :
  ~ In k (keys d) -> keys (dict_set k v d) = keys d ++ [k].
Proof.
  unfold keys. induction d as [|[k' v'] t IH]; simpl; [reflexivity|].
  intros H. rewrite str_beq_neq by tauto. simpl. rewrite IH by tauto. reflexivity.
Qed.

Lemma dict_get_in_keys {V} (d : dict V) (k : str) :
  In k (keys d) <-> dict_get d k <> None.
Proof.
  unfold keys. induction d as [|[k' v'] t IH]; simpl; [tauto|].
  destruct (str_beq k' k) eqn:E.
  - apply str_beq_eq in E. split; [discriminate | tauto].
  - rewrite <- IH. split; [intros [H|H]; [subst; now rewrite str_beq_refl in E | exact H] | tauto].
Qed.

End DictFacts.

Section Pronunciations.
Context {U : UnicodeDB} {T : Re.Templates}.
Import TextNormalizer DictFacts.

(** X1.  After [add_custom_pronunciation(term, pronunciation, language)]
    the table that normalisation in that language reads gives the
    pronunciation for the term and what it gave before for every
    other term; a language other than "pl" writes to the English
    table; and the table of the other languages, hence their
    normalisation, is left as it was. *)
Theorem added_pronunciation_is_looked_up (term pronunciation language : str) (g : tables) :
  let g' := add_custom_pronunciation term pronunciation language g in
  dict_get (pronunciations_in g' language) term = Some pronunciation
  /\ (forall other, other <> term ->
        dict_get (pronunciations_in g' language) other
        = dict_get (pronunciations_in g language) other)
  /\ (language <> u "pl" -> polish g' = polish g
                            /\ english g' = dict_set term pronunciation (english g))
  /\ (forall text other_language,
        str_beq other_language (u "pl") <> str_beq language (u "pl") ->
        normalize_text_for_tts_in g' text other_language
        = normalize_text_for_tts_in g text other_language).
Proof.
  cbv zeta. unfold add_custom_pronunciation, normalize_text_for_tts_in, pronunciations_in.
  destruct (str_beq language (u "pl")) eqn:E; cbn [polish english].
  - split; [apply dict_get_set_same|].
    split; [intros other H; now apply dict_get_set_other|].
    split; [intros H; apply str_beq_eq in E; contradiction|].
    intros text l2 H. destruct (str_beq l2 (u "pl")); [congruence | reflexivity].
  - split; [apply dict_get_set_same|].
    split; [intros other H; now apply dict_get_set_other|].
    split; [intros _; split; reflexivity|].
    intros text l2 H. destruct (str_beq l2 (u "pl")); [reflexivity | congruence].
Qed.

Lemma insert_by_len_place x l :
  StronglySorted not_shorter l ->
  exists before after,
    l = before ++ after
    /\ insert_by_len x l = before ++ x :: after
    /\ Forall (fun t => length x <= length t) before
    /\ Forall (fun t => length t < length x) after.
Proof.
  induction 1 as [|y t Hsorted IH Hall]; simpl.
  - exists [], []. repeat split; constructor.
  - destruct (Nat.ltb_spec (length y) (length x)) as [Hlt|Hge].
    + exists [], (y :: t). repeat split; [constructor|].
      constructor; [exact Hlt|].
      eapply Forall_impl; [|exact Hall]. unfold not_shorter. intros z Hz. lia.
    + destruct IH as (before & after & E1 & E2 & Hb & Ha).
      exists (y :: before), after. rewrite E2. subst t.
      repeat split; [|exact Ha]. constructor; assumption.
Qed.

(** X2.  The order in which the normaliser substitutes the terms after
    a pronunciation is added: a term that the table holds keeps its
    place, so the order is the one before; a new term is tried after
    the terms of the table that are at least as long, and before the
    shorter ones. *)
Theorem added_term_and_the_order (term pronunciation : str) (d : dict str) :
  (In term (keys d) ->
     sorted_terms (dict_set term pronunciation d) = sorted_terms d)
  /\ (~ In term (keys d) ->
      exists before after,
        sorted_terms d = before ++ after
        /\ sorted_terms (dict_set term pronunciation d) = before ++ term :: after
        /\ Forall (fun t => length term <= length t) before
        /\ Forall (fun t => length t < length term) after).
Proof.
  unfold sorted_terms. split; intros H.
  - now rewrite keys_set_present.
  - rewrite keys_set_absent by exact H.
    unfold sorted_longest_first. rewrite fold_left_app. simpl.
    apply insert_by_len_place. apply sorted_longest_first_spec.
Qed.

End Pronunciations.

(** ** Segments as dictionaries *)

Section SegmentDict.
Import Models DictFacts.

(** X3.  [Segment.from_dict(segment.to_dict())] is the segment again. *)
Theorem segment_dict_round_trip (segment : Segment) :
  from_dict (to_dict segment) = Loaded segment.
Proof.
  destruct segment as [sp t ap du].
  destruct sp, ap as [p|], du as [n|]; reflexivity.
Qed.

End SegmentDict.

Module ListFacts.

Lemma find_split {A} (f : A -> bool) (l : list A) (x : A) :
  find f l = Some x ->
  exists l1 l2, l = l1 ++ x :: l2 /\ f x = true /\ Forall (fun y => f y = false) l1.
Proof.
  induction l as [|y t IH]; simpl; [discriminate|].
  destruct (f y) eqn:E.
  - intros H; injection H as <-. exists [], t. repeat split; [exact E | constructor].
  - intros H. destruct (IH H) as (l1 & l2 & -> & Hx & Hall).
    exists (y :: l1), l2. repeat split; [exact Hx | now constructor].
Qed.

Lemma startswith_app (p s : str) : startswith p s = true -> exists t, s = p ++ t.
Proof.
  revert s. induction p as [|a p IH]; intros s; simpl.
  - intros _. now exists s.
  - destruct s as [|b s]; [discriminate|].
    intros H. apply andb_true_iff in H as [H1 H2].
    apply N.eqb_eq in H1. subst b.
    destruct (IH s H2) as [t ->]. now exists t.
Qed.

Lemma startswith_prefix (p t : str) : startswith p (p ++ t) = true.
Proof. induction p as [|a p IH]; simpl; [reflexivity|]. now rewrite N.eqb_refl. Qed.

Lemma endswith_app (p s : str) : endswith p s = true -> exists t, s = t ++ p.
Proof.
  unfold endswith. intros H. apply startswith_app in H as [t H].
  exists (rev t). apply (f_equal (@rev char)) in H.
  rewrite rev_involutive, rev_app_distr, rev_involutive in H. exact H.
Qed.

Lemma slice_to_minus (t p : str) :
  p <> [] -> slice_to (t ++ p) (- len p) = t.
Proof.
  intros Hp. unfold slice_to, len.
  assert (0 < length p) by (destruct p; [contradiction | simpl; lia]).
  destruct (Z.leb_spec 0 (- Z.of_nat (length p))); [lia|].
  rewrite length_app.
  replace (Z.to_nat (Z.of_nat (length t + length p) + - Z.of_nat (length p)))
    with (length t + 0) by lia.
  rewrite firstn_app_2. simpl. now rewrite app_nil_r.
Qed.

Lemma join_snoc (sep : str) (l : list str) (x y : str) :
  join sep ((x :: l) ++ [y]) = join sep (x :: l) ++ sep ++ y.
Proof.
  revert x. induction l as [|z l IH]; intros x.
  - reflexivity.
  - change (join sep ((x :: z :: l) ++ [y])) with (x ++ sep ++ join sep ((z :: l) ++ [y])).
    rewrite IH.
    change (join sep (x :: z :: l)) with (x ++ sep ++ join sep (z :: l)).
    now rewrite <- !app_assoc.
Qed.

End ListFacts.

(** ** Suffixes *)

Section Suffix.
Import TextNormalizer LlmTextNormalizer ListFacts.

Lemma suffixes_nonempty suffix : In suffix suffixes -> suffix <> [].
Proof.
  intros H E. subst suffix. revert H.
  assert (Hc : existsb (fun s => match s with [] => true | _ => false end) suffixes = false)
    by (vm_compute; reflexivity).
  intros H. apply Bool.not_true_iff_false in Hc. apply Hc.
  apply existsb_exists. exists []. split; [exact H | reflexivity].
Qed.

(** X4.  [_strip_polish_suffix] leaves a word as it is when no suffix
    of its list both ends the word and leaves at least three
    characters; otherwise it takes off one suffix, the longest of
    those, and at least three characters are left.  A word of three
    characters or fewer is never changed. *)
Theorem polish_suffix_is_stripped_once (word : str) :
  let stem := _strip_polish_suffix word in
  ((stem = word
    /\ forall suffix, In suffix suffixes -> endswith suffix word = true ->
                      length word - length suffix < 3)
   \/ (exists suffix,
         In suffix suffixes /\ word = stem ++ suffix /\ 3 <= length stem
         /\ forall other, In other suffixes -> endswith other word = true ->
                          3 <= length word - length other ->
                          length other <= length suffix))
  /\ (length word <= 3 -> stem = word).
Proof.
  cbv zeta. unfold _strip_polish_suffix.
  destruct (sorted_longest_first_spec suffixes) as [Hsorted Hperm].
  set (applies := fun suffix => endswith suffix word && (len suffix + 2 <? len word)%Z).
  destruct (find applies (sorted_longest_first suffixes)) as [suffix|] eqn:E.
  - apply find_split in E as (l1 & l2 & El & Hx & Hall).
    assert (Hin : In suffix suffixes).
    { eapply Permutation_in; [apply Permutation_sym, Hperm|]. rewrite El. apply in_elt. }
    unfold applies in Hx. apply andb_true_iff in Hx as [He Hlen].
    apply Z.ltb_lt in Hlen. unfold len in Hlen.
    destruct (endswith_app _ _ He) as [t Et].
    assert (Hstem : slice_to word (- len suffix) = t).
    { rewrite Et. apply slice_to_minus. now apply suffixes_nonempty. }
    rewrite Hstem.
    assert (Hw : length word = length t + length suffix) by (rewrite Et; apply length_app).
    split.
    + right. exists suffix. split; [exact Hin|]. split; [exact Et|]. split; [lia|].
      intros other Ho Heo Hlo.
      assert (Hino : In other (l1 ++ suffix :: l2)).
      { rewrite <- El. eapply Permutation_in; [exact Hperm | exact Ho]. }
      rewrite El in Hsorted. apply sorted_before in Hsorted as [_ Hafter].
      apply in_app_or in Hino as [Hi | [Hi | Hi]].
      * rewrite Forall_forall in Hall. specialize (Hall _ Hi).
        unfold applies in Hall. rewrite Heo in Hall. simpl in Hall.
        apply Z.ltb_ge in Hall. unfold len in Hall. lia.
      * subst other. lia.
      * rewrite Forall_forall in Hafter. apply Hafter. exact Hi.
    + intros H3. pose proof (suffixes_nonempty suffix Hin) as Hne. destruct suffix; [contradiction | simpl in *; lia].
  - split; [|reflexivity]. left. split; [reflexivity|].
    intros suffix Hin He.
    assert (Hin' : In suffix (sorted_longest_first suffixes))
      by (eapply Permutation_in; [exact Hperm | exact Hin]).
    pose proof (find_none _ _ E _ Hin') as Hn. unfold applies in Hn.
    rewrite He in Hn. simpl in Hn. apply Z.ltb_ge in Hn. unfold len in Hn. lia.
Qed.

End Suffix.

(** ** The assembler *)

Section AssemblerMore.
Import ScriptGenerator ListFacts.
Variable server : list request -> answer.
Variable self : ScriptGenerator.
Variable articles_text : str.

Lemma call_continuation_cases existing_script log :
  let log1 := log ++ [continuation_prompt self articles_text existing_script] in
  _call_llm_continuation server self articles_text existing_script log
  = match server log1 with
    | Fails => (Raises RequestException, log1)
    | Replies r =>
      if (status_code r =? 200)%Z then
        match content r with
        | Some c => (Returns c, log1)
        | None => (Raises BodyError, log1)
        end
      else (Returns [], log1)
    end.
Proof.
  cbv zeta. unfold _call_llm_continuation, bind, post.
  destruct (server _) as [|r]; [reflexivity|].
  destruct (status_code r =? 200)%Z; simpl; [|reflexivity].
  unfold message_content. destruct (content r); reflexivity.
Qed.

Lemma call_llm_cases log :
  let log1 := log ++ [ScriptRequest (language self) articles_text] in
  _call_llm server self articles_text log
  = match server log1 with
    | Fails => (Raises RequestException, log1)
    | Replies r =>
      if (status_code r =? 200)%Z then
        match content r with
        | Some c => (Returns c, log1)
        | None => (Raises BodyError, log1)
        end
      else (Raises (RuntimeError (u "Ollama API error: " ++ response_text r)), log1)
    end.
Proof.
  cbv zeta. unfold _call_llm, bind, post.
  destruct (server _) as [|r]; [reflexivity|].
  destruct (status_code r =? 200)%Z; simpl; [|reflexivity].
  unfold message_content. destruct (content r); reflexivity.
Qed.

Lemma continuation_loop_shape min_length attempts :
  forall main_script count log script n log',
    continuation_loop server self articles_text min_length attempts main_script count log
    = (Returns (script, n), log') ->
    exists continuations,
      script = fold_left (fun s c => s ++ [LF; LF] ++ c) continuations main_script
      /\ Forall (fun c => (300 <= len c)%Z) continuations
      /\ continuations_replied server self articles_text log main_script continuations
      /\ count + length continuations <= n <= count + length continuations + 1
      /\ n <= count + attempts
      /\ log' = accepted_trace self articles_text log main_script continuations
                ++ (if n =? count + length continuations then []
                    else [continuation_prompt self articles_text script])
      /\ (n = count + length continuations + 1 -> turned_down (server log'))
      /\ length log' = length log + (n - count)
      /\ ((min_length <= len main_script)%Z -> continuations = [] /\ n = count)
      /\ ((len script < min_length)%Z ->
          n = count + attempts \/ n = count + length continuations + 1).
Proof.
  induction attempts as [|attempts IH]; intros main_script count log script n log'.
  - simpl. unfold ret. intros H. injection H as <- <- <-.
    exists []. simpl. rewrite Nat.add_0_r, Nat.eqb_refl, app_nil_r.
    split; [reflexivity|]. split; [apply Forall_nil|]. split; [exact I|].
    split; [lia|]. split; [lia|]. split; [reflexivity|]. split; [lia|].
    split; [lia|]. split; [intros; split; [reflexivity | lia] | intros; left; lia].
  - cbn [continuation_loop].
    destruct (Z.ltb_spec (len main_script) min_length) as [Hlt|Hge].
    + unfold bind. rewrite call_continuation_cases. cbv zeta.
      set (log1 := log ++ [continuation_prompt self articles_text main_script]).
      assert (Hlog1 : length log1 = length log + 1)
        by (unfold log1; rewrite length_app; reflexivity).
      assert (Hstop :
                 turned_down (server log1) ->
                 (Returns (main_script, count + 1), log1) = (Returns (script, n), log') ->
                 exists continuations : list str,
                   script = fold_left (fun s c => s ++ [LF; LF] ++ c) continuations main_script
                   /\ Forall (fun c => (300 <= len c)%Z) continuations
                   /\ continuations_replied server self articles_text log main_script
                                            continuations
                   /\ count + length continuations <= n <= count + length continuations + 1
                   /\ n <= count + S attempts
                   /\ log' = accepted_trace self articles_text log main_script continuations
                             ++ (if n =? count + length continuations then []
                                 else [continuation_prompt self articles_text script])
                   /\ (n = count + length continuations + 1 -> turned_down (server log'))
                   /\ length log' = length log + (n - count)
                   /\ ((min_length <= len main_script)%Z -> continuations = [] /\ n = count)
                   /\ ((len script < min_length)%Z ->
                       n = count + S attempts \/ n = count + length continuations + 1)).
      { intros Hdown H. injection H as <- <- <-. exists []. simpl.
        replace (count + 1 =? count + 0) with false by (symmetry; apply Nat.eqb_neq; lia).
        split; [reflexivity|]. split; [apply Forall_nil|]. split; [exact I|].
        split; [lia|]. split; [lia|]. split; [reflexivity|]. split; [intros _; exact Hdown|].
        split; [lia|]. split; [intros; lia | intros; right; lia]. }
      destruct (server log1) as [|r] eqn:Hserver; [discriminate|].
      destruct (Z.eqb_spec (status_code r) 200) as [Hstatus|Hstatus].
      * destruct (content r) as [c|] eqn:Hcontent; [|discriminate].
        destruct (match c with [] => true | _ => false end || (len c <? 300)%Z) eqn:Ec.
        -- unfold ret. apply Hstop. exists r. split; [reflexivity|]. right. exists c.
           split; [exact Hcontent|].
           apply orb_true_iff in Ec as [Ec|Ec]; [destruct c; [unfold len; simpl; lia | discriminate]
                                                | now apply Z.ltb_lt].
        -- intros H. apply IH in H
             as (conts & E1 & HF & Hreplied & Hn & Hm & Hlog & Hdown & Hl & _ & Hshort).
           apply orb_false_iff in Ec as [_ Ec]. apply Z.ltb_ge in Ec.
           exists (c :: conts). cbn [fold_left continuations_replied accepted_trace length].
           fold log1.
           split; [exact E1|]. split; [now constructor|].
           split; [split; [exists r; repeat split; assumption | exact Hreplied]|].
           split; [lia|]. split; [lia|].
           split; [rewrite Hlog;
                   replace (count + S (length conts)) with (count + 1 + length conts) by lia;
                   reflexivity|].
           split; [intros Hlast; apply Hdown; lia|].
           split; [lia|]. split; [lia|]. intros Hs. specialize (Hshort Hs). lia.
      * simpl. unfold ret. apply Hstop. exists r. split; [reflexivity|]. now left.
    + unfold ret. intros H. injection H as <- <- <-. exists []. simpl.
      rewrite Nat.add_0_r, Nat.eqb_refl, app_nil_r.
      split; [reflexivity|]. split; [apply Forall_nil|]. split; [exact I|].
      split; [lia|]. split; [lia|]. split; [reflexivity|]. split; [lia|].
      split; [lia|]. split; [intros; split; [reflexivity | lia] | intros; lia].
Qed.

Lemma fold_continuations conts : forall initial,
  fold_left (fun s c => s ++ [LF; LF] ++ c) conts initial = join [LF; LF] (initial :: conts).
Proof.
  induction conts as [|c conts IH] using rev_ind; intros initial; [reflexivity|].
  rewrite fold_left_app. cbn [fold_left]. rewrite IH.
  symmetry. apply (join_snoc [LF; LF] conts initial c).
Qed.

(** X5.  Whatever the service answers, a script that the assembler
    returns is the text of the first reply followed by the
    continuations it accepted, joined by blank lines.  Each accepted
    continuation is the content, of 300 characters or more, of the
    reply of status 200 that the service gave to the request made
    with the script so far; the requests made are the first one,
    those of the accepted continuations in their order, and perhaps a
    last one whose reply was turned down.  So [n] continuations were
    asked for, at most the number allowed, and the service got one
    request more than that.  A first reply of the target length asks
    for none, and a script shorter than the target means that the
    continuations allowed were used up or that the last one was
    turned down. *)
Theorem script_is_first_reply_and_continuations
        (min_length : Z) (max_continuations : nat) (script : str) (n : nat)
        (log : list request) :
  assemble server self articles_text min_length max_continuations []
  = (Returns (script, n), log) ->
  exists r initial continuations,
    server [ScriptRequest (language self) articles_text] = Replies r
    /\ status_code r = 200%Z /\ content r = Some initial
    /\ script = join [LF; LF] (initial :: continuations)
    /\ Forall (fun c => (300 <= len c)%Z) continuations
    /\ continuations_replied server self articles_text
                             [ScriptRequest (language self) articles_text]
                             initial continuations
    /\ log = accepted_trace self articles_text
                            [ScriptRequest (language self) articles_text]
                            initial continuations
             ++ (if n =? length continuations then []
                 else [continuation_prompt self articles_text script])
    /\ (n = length continuations + 1 -> turned_down (server log))
    /\ length continuations <= n <= length continuations + 1
    /\ n <= max_continuations
    /\ length log = 1 + n
    /\ ((min_length <= len initial)%Z -> n = 0)
    /\ ((len script < min_length)%Z ->
        n = max_continuations \/ n = length continuations + 1).
Proof.
  unfold assemble, bind. rewrite call_llm_cases. cbv zeta. simpl app.
  destruct (server _) as [|r]; [discriminate|].
  destruct (Z.eqb_spec (status_code r) 200) as [Hst|]; [|discriminate].
  destruct (content r) as [initial|] eqn:Hc; [|discriminate].
  intros H. apply continuation_loop_shape in H
    as (conts & E1 & HF & Hreplied & Hn & Hm & Hlog & Hdown & Hl & Hlong & Hshort).
  exists r, initial, conts. rewrite fold_continuations in E1. simpl in Hl.
  cbn [Nat.add] in Hlog, Hdown.
  split; [reflexivity|]. split; [exact Hst|]. split; [exact Hc|].
  split; [exact E1|]. split; [exact HF|]. split; [exact Hreplied|].
  split; [exact Hlog|]. split; [exact Hdown|].
  simpl in Hn, Hm, Hshort.
  split; [exact Hn|]. split; [exact Hm|].
  split; [rewrite Hl, Nat.sub_0_r; reflexivity|].
  split; [intros Hi; exact (proj2 (Hlong Hi))|].
  intros Hs. destruct (Hshort Hs) as [H|H]; [left | right]; exact H.
Qed.

(** X6.  A transport failure or a body without the message during a
    continuation call is not taken for an empty continuation: the
    exception leaves [_generate_detailed_script], and the script of
    the first call is lost. *)
Theorem broken_continuation_call_raises (r : response) (initial : str) :
  server [ScriptRequest (language self) articles_text] = Replies r ->
  status_code r = 200%Z -> content r = Some initial -> (len initial < 15000)%Z ->
  let log2 := [ScriptRequest (language self) articles_text;
               continuation_prompt self articles_text initial] in
  (server log2 = Fails ->
   _generate_detailed_script server self articles_text [] = (Raises RequestException, log2))
  /\ (forall r2, server log2 = Replies r2 -> status_code r2 = 200%Z -> content r2 = None ->
      _generate_detailed_script server self articles_text [] = (Raises BodyError, log2)).
Proof.
  intros Hs Hst Hc Hlen. cbv zeta.
  assert (Hrun : forall e,
             _call_llm_continuation server self articles_text initial
                                    [ScriptRequest (language self) articles_text]
             = (Raises e, [ScriptRequest (language self) articles_text;
                           continuation_prompt self articles_text initial]) ->
             _generate_detailed_script server self articles_text []
             = (Raises e, [ScriptRequest (language self) articles_text;
                           continuation_prompt self articles_text initial])).
  { intros e He. unfold _generate_detailed_script, assemble, bind.
    rewrite call_llm_cases. cbv zeta. simpl app. rewrite Hs, Hst. simpl. rewrite Hc.
    cbn [continuation_loop]. apply Z.ltb_lt in Hlen. rewrite Hlen.
    unfold bind. rewrite He. reflexivity. }
  split.
  - intros Hf. apply Hrun. rewrite call_continuation_cases. cbv zeta. simpl app.
    now rewrite Hf.
  - intros r2 H2 Hst2 Hc2. apply Hrun. rewrite call_continuation_cases. cbv zeta.
    simpl app. now rewrite H2, Hst2, Hc2.
Qed.

(** X7.  The continuation request carries the end of the script so
    far, its last 3000 characters when it is longer than that; the
    Polish request also carries the start of the articles, 20000
    characters of them at most, and the request in another language
    carries no article text. *)
Theorem continuation_prompt_is_bounded (existing_script : str) :
  exists last_part articles,
    continuation_prompt self articles_text existing_script
    = ContinuationRequest (language self) last_part articles
    /\ (exists before, existing_script = before ++ last_part)
    /\ len last_part = Z.min (len existing_script) 3000
    /\ match articles with
       | Some start =>
         language self = u "pl"
         /\ (exists rest, articles_text = start ++ rest)
         /\ len start = Z.min (len articles_text) 20000
       | None => language self <> u "pl"
       end.
Proof.
  unfold continuation_prompt.
  set (last_part := if (3000 <? len existing_script)%Z
                    then slice_from existing_script (-3000) else existing_script).
  assert (Hlast : (exists before, existing_script = before ++ last_part)
                  /\ len last_part = Z.min (len existing_script) 3000).
  { unfold last_part. destruct (Z.ltb_spec 3000 (len existing_script)) as [H|H].
    - split.
      + exists (slice_to existing_script (-3000)). symmetry. apply StrFacts.slice_to_from.
      + unfold slice_from, len in *. change (0 <=? -3000)%Z with false. cbv iota.
        rewrite length_skipn. lia.
    - split; [now exists [] | lia]. }
  destruct (str_beq (language self) (u "pl")) eqn:E.
  - exists last_part, (Some (slice_to articles_text 20000)).
    split; [reflexivity|]. split; [apply Hlast|]. split; [apply Hlast|].
    apply str_beq_eq in E. split; [exact E|]. split.
    + exists (slice_from articles_text 20000). symmetry. apply StrFacts.slice_to_from.
    + unfold slice_to, len. change (0 <=? 20000)%Z with true. cbv iota.
      rewrite length_firstn. lia.
  - exists last_part, None.
    split; [reflexivity|]. split; [apply Hlast|]. split; [apply Hlast|].
    intros H. apply str_beq_eq in H. congruence.
Qed.

End AssemblerMore.

Module TrimFacts.
Import StrFacts.

Lemma lstrip_starts s : starts_nonws s -> lstrip s = s.
Proof. intros (c & t & -> & Hc). simpl. now rewrite Hc. Qed.

Lemma rstrip_keeps_start s : starts_nonws s -> starts_nonws (rstrip s).
Proof.
  intros (c & t & -> & Hc). unfold rstrip. simpl.
  destruct (@lstrip_keeps_end (rev t) c Hc) as (b & ->).
  rewrite rev_app_distr. simpl. now exists c, (rev b).
Qed.

Lemma strip_starts s : strip s = [] \/ starts_nonws (strip s).
Proof.
  unfold strip. destruct (lstrip s) as [|c t] eqn:E.
  - left. reflexivity.
  - right. apply rstrip_keeps_start. exists c, t. split; [reflexivity|].
    eapply lstrip_head; eassumption.
Qed.

Lemma strip_trimmed s : starts_nonws s -> ends_nonws s -> strip s = s.
Proof.
  intros Hs (a & c & E & Hc). unfold strip. rewrite lstrip_starts by exact Hs.
  rewrite E. now apply rstrip_ends.
Qed.

Lemma strip_nil : strip [] = [].
Proof. reflexivity. Qed.

(** [s.strip().strip() == s.strip()] *)
Lemma strip_strip s : strip (strip s) = strip s.
Proof.
  destruct (strip_starts s) as [E | Hs]; [rewrite E; reflexivity|].
  destruct (strip_ends s) as [E | He]; [rewrite E; reflexivity|].
  now apply strip_trimmed.
Qed.

Lemma trimmed_cases s : strip s = s -> s = [] \/ (starts_nonws s /\ ends_nonws s).
Proof.
  intros E. destruct (strip_starts s) as [H | Hs]; [left; congruence|].
  destruct (strip_ends s) as [H | He]; [left; congruence|].
  right. rewrite E in Hs, He. now split.
Qed.

Lemma strip_of_start s : starts_nonws s -> starts_nonws (strip s).
Proof.
  intros Hs. unfold strip. rewrite lstrip_starts by exact Hs.
  now apply rstrip_keeps_start.
Qed.

Lemma starts_nonempty s : starts_nonws s -> s <> [].
Proof. intros (c & t & -> & _). discriminate. Qed.

Lemma slice_to_starts s n : starts_nonws s -> (1 <= n)%Z -> starts_nonws (slice_to s n).
Proof.
  intros (c & t & -> & Hc) Hn. unfold slice_to.
  destruct (Z.leb_spec 0 n); [|lia].
  destruct (Z.to_nat n) as [|k] eqn:E; [lia|]. simpl. now exists c, (firstn k t).
Qed.

Lemma nonws_nil_strip s : nonws s = [] -> strip s = [].
Proof.
  intros H. unfold strip.
  assert (E : lstrip s = []).
  { induction s as [|c s IH]; [reflexivity|]. simpl in *.
    unfold nonws in H. simpl in H. destruct (isspace c); simpl in H; [|discriminate].
    now apply IH. }
  rewrite E. reflexivity.
Qed.

Lemma starts_nonws_nonws s : starts_nonws s -> nonws s <> [].
Proof.
  intros (c & t & -> & Hc). unfold nonws. simpl. rewrite Hc. simpl. discriminate.
Qed.

End TrimFacts.

Section ChunkerMore.
Context {U : UnicodeDB}.
Import TtsEngine StrFacts ChunkerFacts TrimFacts.

Lemma split_loop_trimmed max_chars :
  (1 <= max_chars)%Z ->
  forall fuel remaining chunks out,
    strip remaining = remaining ->
    Forall (fun chunk => chunk <> [] /\ strip chunk = chunk) chunks ->
    split_loop fuel max_chars remaining chunks = Some out ->
    Forall (fun chunk => chunk <> [] /\ strip chunk = chunk) out.
Proof.
  intros Hmax. induction fuel as [|fuel IH]; intros remaining chunks out Hr Hc.
  - destruct remaining; simpl; [|discriminate]. intros H; injection H as <-. exact Hc.
  - destruct (list_eq_dec N.eq_dec remaining []) as [Hnil | Hne].
    + subst remaining. rewrite split_loop_nil. intros H; injection H as <-. exact Hc.
    + rewrite split_loop_step by exact Hne.
      pose proof (@split_turn_cases U max_chars remaining chunks Hne) as Hcases.
      destruct (split_turn max_chars remaining chunks) as [out' | remaining' chunks'].
      * destruct Hcases as [_ ->]. intros H; injection H as <-.
        apply Forall_app. split; [exact Hc|]. constructor; [|constructor]. now split.
      * destruct Hcases as (_ & p & -> & -> & _ & Hp & _).
        apply IH.
        -- apply strip_strip.
        -- apply Forall_app. split; [exact Hc|]. constructor; [|constructor].
           destruct (trimmed_cases _ Hr) as [E | [Hs _]]; [contradiction|].
           split; [|apply strip_strip].
           apply starts_nonempty, strip_of_start, slice_to_starts; [exact Hs | auto].
Qed.

(** X8.  When the text is longer than the limit, and the limit is one
    character or more, no chunk of the chunker is empty and none has
    white space at its start or at its end; and there is a chunk as
    soon as the text holds a character that is not white space. *)
Theorem chunks_are_trimmed_and_not_empty
        (fuel : nat) (text : str) (max_chars : Z) (chunks : list str) :
  (1 <= max_chars)%Z -> (max_chars < len text)%Z ->
  _split_long_text fuel text max_chars = Some chunks ->
  Forall (fun chunk => chunk <> [] /\ strip chunk = chunk) chunks
  /\ (strip text <> [] -> chunks <> []).
Proof.
  intros Hmax Hlong Hrun. split.
  - unfold _split_long_text in Hrun.
    destruct (Z.leb_spec (len text) max_chars); [lia|].
    eapply split_loop_trimmed; [exact Hmax | apply strip_strip | constructor | exact Hrun].
  - intros Hne Hnil. subst chunks.
    apply split_long_text_sound in Hrun as [_ Hrun]. simpl in Hrun.
    apply Hne. apply nonws_nil_strip. now rewrite <- Hrun.
Qed.

(** X9.  A text that is longer than the limit and holds white space
    only gives no chunk at all, whatever the limit. *)
Theorem blank_text_gives_no_chunk (fuel : nat) (text : str) (max_chars : Z) :
  (max_chars < len text)%Z -> strip text = [] ->
  _split_long_text fuel text max_chars = Some [].
Proof.
  intros Hlong Hblank. unfold _split_long_text.
  destruct (Z.leb_spec (len text) max_chars); [lia|].
  rewrite Hblank. apply split_loop_nil.
Qed.

End ChunkerMore.

Section Fallback.
Context {U : UnicodeDB}.
Import Models ScriptGenerator TrimFacts.



End Fallback.

Section Articles.
Import ScriptGenerator ListFacts.
Variable strftime_ymd : Models.datetime -> str.

Lemma total_length_app a b : total_length (a ++ b) = (total_length a + total_length b)%Z.
Proof. induction a as [|x a IH]; simpl; [reflexivity|]. rewrite IH. lia. Qed.

Lemma total_length_cons x l : total_length (x :: l) = (len x + total_length l)%Z.
Proof. reflexivity. Qed.

Lemma format_loop_spec max_chars articles :
  forall lines total_chars,
  exists k,
    k <= length articles
    /\ let texts := map (article_text strftime_ymd) (firstn k articles) in
       format_loop strftime_ymd articles max_chars lines total_chars = lines ++ texts
       /\ (k = 0 \/ (total_chars + total_length texts <= max_chars)%Z)
       /\ (forall article, nth_error articles k = Some article ->
             (max_chars < total_chars + total_length texts
                          + len (article_text strftime_ymd article))%Z).
Proof.
  induction articles as [|article articles IH]; intros lines total_chars.
  - exists 0. simpl. rewrite app_nil_r. repeat split; [lia | now left | discriminate].
  - cbn [format_loop].
    destruct (Z.ltb_spec max_chars (total_chars + len (article_text strftime_ymd article)))
      as [Hfull | Hfits].
    + exists 0. simpl. rewrite app_nil_r. repeat split; [lia | now left |].
      intros a H. injection H as <-. lia.
    + destruct (IH (lines ++ [article_text strftime_ymd article])
                   (total_chars + len (article_text strftime_ymd article))%Z)
        as (k & Hk & E & Hsum & Hnext).
      cbv zeta in E, Hsum, Hnext.
      exists (S k). cbv zeta. cbn [firstn map length nth_error].
      rewrite total_length_cons.
      split; [lia|]. split; [rewrite E, <- app_assoc; reflexivity|].
      split.
      * right. destruct Hsum as [-> | Hsum]; [simpl; lia | lia].
      * intros a Ha. specialize (Hnext a Ha). lia.
Qed.

Lemma len_app (a b : str) : len (a ++ b) = (len a + len b)%Z.
Proof. unfold len. rewrite length_app. lia. Qed.

Lemma len_join_lines (lines : list str) :
  len (join [LF] lines) = (total_length lines + Z.max 0 (Z.of_nat (length lines) - 1))%Z.
Proof.
  induction lines as [|x lines IH]; [reflexivity|].
  destruct lines as [|y lines].
  - simpl. lia.
  - change (join [LF] (x :: y :: lines)) with (x ++ [LF] ++ join [LF] (y :: lines)).
    rewrite !len_app, IH, !total_length_cons. cbn [length]. change (len [LF]) with 1%Z. lia.
Qed.

(** X11.  [_format_articles] puts into the prompt the texts of the
    first articles, in their order, as long as the characters of
    these texts stay within [max_chars]: it ends at the first article
    whose text would go over, and takes no later one.  The line
    breaks that join the texts are not counted, so the prompt is
    longer than the texts by one character for each article after
    the first. *)
Theorem articles_fill_the_budget (articles : list ScraperModels.Article) (max_chars : Z) :
  exists k,
    k <= length articles
    /\ let texts := map (article_text strftime_ymd) (firstn k articles) in
       _format_articles strftime_ymd articles max_chars = join [LF] texts
       /\ (k = 0 \/ (total_length texts <= max_chars)%Z)
       /\ (forall article, nth_error articles k = Some article ->
             (max_chars < total_length texts + len (article_text strftime_ymd article))%Z)
       /\ len (_format_articles strftime_ymd articles max_chars)
          = (total_length texts + Z.max 0 (Z.of_nat k - 1))%Z.
Proof.
  destruct (format_loop_spec max_chars articles [] 0) as (k & Hk & E & Hsum & Hnext).
  exists k. split; [exact Hk|]. cbv zeta in *. unfold _format_articles.
  rewrite E. simpl app.
  split; [reflexivity|]. split; [destruct Hsum; [now left | right; lia]|].
  split; [intros a Ha; specialize (Hnext a Ha); lia|].
  rewrite len_join_lines, length_map, length_firstn. lia.
Qed.

End Articles.

Section SegmentDictMore.
Import Models DictFacts.

(** X12.  What [Segment.from_dict] reads: a dictionary without the key
    "speaker" raises [KeyError] for it, before anything else is
    looked at; a speaker that is neither "host" nor "co_host" raises
    [ValueError]; then a missing "text" raises [KeyError]; a
    dictionary that holds just a speaker and a text gives the
    segment with no audio path and no duration; and a key that is
    none of the segment's four is ignored. *)
Theorem from_dict_reads_four_keys (data : dict value) :
  (dict_get data (u "speaker") = None ->
   from_dict data = Raised (KeyError (u "speaker")))
  /\ (forall v, dict_get data (u "speaker") = Some v -> Speaker_of v = None ->
      from_dict data = Raised ValueError)
  /\ (forall speaker, dict_get data (u "speaker") = Some (VStr (speaker_value speaker)) ->
      dict_get data (u "text") = None ->
      from_dict data = Raised (KeyError (u "text")))
  /\ (forall speaker text,
        from_dict (dict_of [(u "speaker", VStr (speaker_value speaker));
                            (u "text", VStr text)])
        = Loaded (new_segment speaker text))
  /\ (forall key v, ~ In key segment_keys ->
        from_dict (dict_set key v data) = from_dict data).
Proof.
  split; [|split; [|split; [|split]]].
  - intros H. unfold from_dict. now rewrite H.
  - intros v H1 H2. unfold from_dict. now rewrite H1, H2.
  - intros sp H1 H2. unfold from_dict. rewrite H1, H2. now destruct sp.
  - intros sp t. now destruct sp.
  - intros key v Hk. unfold from_dict.
    rewrite !dict_get_set_other; [reflexivity | | | |];
      intros E; apply Hk; rewrite <- E; unfold segment_keys; simpl; tauto.
Qed.

End SegmentDictMore.

Module ScanFacts.
Import Re ReFacts.

Section Facts.
Context {U : UnicodeDB}.

Lemma render_chars repl ps c :
  In c (flat_map (render repl) ps) ->
  In c (flat_map piece_text ps) \/ exists m, In (Hit m) ps /\ In c (repl m).
Proof.
  intros H. apply in_flat_map in H as (p & Hp & Hc).
  destruct p as [c'|m]; simpl in Hc.
  - left. apply in_flat_map. exists (Gap c'). now split.
  - right. now exists m.
Qed.

(** A character of a substituted text comes from the subject or
    from a replacement. *)
Lemma sub_chars fl r repl s c :
  In c (sub fl r repl s) ->
  In c s \/ exists m, In m (finditer fl r s) /\ In c (repl m).
Proof.
  intros H. apply render_chars in H as [H | (m & Hm & Hc)].
  - left. now rewrite pieces_text in H.
  - right. exists m. split; [|exact Hc]. unfold finditer. now apply in_hits.
Qed.

Lemma render_length repl ps :
  (forall m, In (Hit m) ps -> length (repl m) <= length (m_text m)) ->
  length (flat_map (render repl) ps) <= length (flat_map piece_text ps).
Proof.
  induction ps as [|p ps IH]; intros H; simpl; [lia|].
  rewrite !length_app.
  assert (length (render repl p) <= length (piece_text p)).
  { destruct p as [c|m]; simpl; [lia|]. apply H. now left. }
  assert (length (flat_map (render repl) ps) <= length (flat_map piece_text ps))
    by (apply IH; intros m Hm; apply H; now right).
  lia.
Qed.

Lemma sub_length fl r repl s :
  (forall m, In m (finditer fl r s) -> length (repl m) <= length (m_text m)) ->
  length (sub fl r repl s) <= length s.
Proof.
  intros H. rewrite <- (pieces_text fl r s) at 2.
  apply render_length. intros m Hm. apply H. unfold finditer. now apply in_hits.
Qed.

Lemma remove_chars fl pattern s c :
  In c (TextNormalizer.remove fl pattern s) -> In c s.
Proof.
  intros H. apply sub_chars in H as [H | (m & _ & [])]. exact H.
Qed.

Lemma remove_length fl pattern s :
  length (TextNormalizer.remove fl pattern s) <= length s.
Proof. apply sub_length. intros m _. simpl. lia. Qed.

(** A character that a scan leaves between the matches stands where
    the pattern does not match. *)
Lemma scan_gap fl r fuel :
  forall p s pos adv c,
    In (Gap c) (scan fuel fl r p s pos adv) ->
    exists p0 t adv0, match_here fl r p0 (c :: t) adv0 = None.
Proof.
  induction fuel as [|fuel IH]; intros p s pos adv c; simpl; [intros []|].
  destruct (match_here fl r p s adv) as [st'|] eqn:E.
  - intros [H|H]; [discriminate|].
    destruct (length s - length (rest st') =? 0); eapply IH; exact H.
  - destruct s as [|c0 t]; [intros []|].
    intros [H|H].
    + injection H as <-. now exists p, t, adv.
    + eapply IH; exact H.
Qed.

(** Where the pattern has a match that is not empty, the scan finds one. *)
Lemma match_here_some fl r p s adv st' :
  In st' (rmatch fl r {| prev := p; rest := s; caps := [] |}) ->
  length (rest st') < length s ->
  match_here fl r p s adv <> None.
Proof.
  intros Hin Hlen. unfold match_here. cbv zeta.
  set (keep := fun st' : mstate => negb adv || (length (rest st') <? length s)).
  assert (Hf : In st' (filter keep (rmatch fl r {| prev := p; rest := s; caps := [] |}))).
  { apply filter_In. split; [exact Hin|]. unfold keep.
    apply Nat.ltb_lt in Hlen. rewrite Hlen. apply orb_true_r. }
  destruct (filter keep _); [destruct Hf | discriminate].
Qed.

(** No character of the substituted text is one at which the
    pattern always has a match that is not empty, unless a
    replacement brings it. *)
Lemma sub_clears fl r repl s (bad : char -> Prop) :
  (forall p c t, bad c ->
     exists st', In st' (rmatch fl r {| prev := p; rest := c :: t; caps := [] |})
                 /\ length (rest st') < length (c :: t)) ->
  (forall m c, In c (repl m) -> ~ bad c) ->
  forall c, In c (sub fl r repl s) -> ~ bad c.
Proof.
  intros Hmatch Hrepl c H Hbad. apply in_flat_map in H as (p & Hp & Hc).
  destruct p as [c'|m]; simpl in Hc.
  - destruct Hc as [<-|[]]. apply scan_gap in Hp as (p0 & t & adv0 & Hnone).
    destruct (Hmatch p0 c' t Hbad) as (st' & Hin & Hlen).
    eapply match_here_some; eassumption.
  - exact (Hrepl m c Hc Hbad).
Qed.

(** A repetition goes over a run of characters that its body takes
    one by one. *)
Lemma rep_go_run (body : mstate -> list mstate) (ok : char -> bool) greedy :
  (forall st c t, rest st = c :: t -> ok c = true ->
                  In (moved st [c] t) (body st)) ->
  forall run fuel lo hi st t,
    rest st = run ++ t -> forallb ok run = true ->
    lo <= length run ->
    match hi with Some h => length run <= h | None => True end ->
    length run < fuel ->
    In (moved st run t) (rep_go body greedy fuel lo hi st).
Proof.
  intros Hbody. induction run as [|c run IH]; intros fuel lo hi st t Hrest Hok Hlo Hhi Hfuel.
  - destruct fuel as [|fuel]; [simpl in Hfuel; lia|].
    assert (lo = 0) by (simpl in Hlo; lia). subst lo.
    assert (Hst : moved st [] t = st).
    { destruct st as [p r cs]. unfold moved, prev_after. simpl in *. now subst r. }
    rewrite Hst. cbn [rep_go]. change (0 =? 0) with true. cbv iota.
    destruct greedy; apply in_or_app; [right | left]; now left.
  - destruct fuel as [|fuel]; [simpl in Hfuel; lia|].
    simpl in Hok. apply andb_true_iff in Hok as [Hc Hok].
    assert (Hagain :
      In (moved st (c :: run) t)
         (match hi with
          | Some 0 => []
          | _ => flat_map
                   (fun st' =>
                      if (length (rest st') <? length (rest st)) || (0 <? lo)
                      then rep_go body greedy fuel (pred lo) (option_map pred hi) st'
                      else [])
                   (body st)
          end)).
    { assert (Hflat :
        In (moved st (c :: run) t)
           (flat_map
              (fun st' =>
                 if (length (rest st') <? length (rest st)) || (0 <? lo)
                 then rep_go body greedy fuel (pred lo) (option_map pred hi) st'
                 else [])
              (body st))).
      { apply in_flat_map. exists (moved st [c] (run ++ t)).
        split; [apply Hbody; [exact Hrest | exact Hc]|].
        assert (Hshort : (length (rest (moved st [c] (run ++ t))) <? length (rest st)) = true).
        { apply Nat.ltb_lt. rewrite Hrest. simpl. lia. }
        rewrite Hshort. simpl orb. cbv iota.
        replace (moved st (c :: run) t) with (moved (moved st [c] (run ++ t)) run t)
          by reflexivity.
        apply IH; [reflexivity | exact Hok | simpl in Hlo; lia | | simpl in Hfuel; lia].
        destruct hi as [h|]; simpl in *; [lia | exact I]. }
      destruct hi as [[|h]|]; [simpl in Hhi; lia | exact Hflat | exact Hflat]. }
    cbn [rep_go]. destruct greedy; apply in_or_app; [left | right]; exact Hagain.
Qed.

(** What is found from some place on is found by [re.search]. *)
Lemma scan_finds fl r :
  forall a p b pos adv fuel st',
    In st' (rmatch fl r {| prev := prev_after p a; rest := b; caps := [] |}) ->
    length (rest st') < length b ->
    length a < fuel ->
    hits (scan fuel fl r p (a ++ b) pos adv) <> [].
Proof.
  induction a as [|c a IH]; intros p b pos adv fuel st' Hin Hlen Hfuel.
  - destruct fuel as [|fuel]; [simpl in Hfuel; lia|]. simpl.
    pose proof (@match_here_some fl r p b adv st' Hin Hlen) as Hsome.
    destruct (match_here fl r p b adv); [discriminate | contradiction].
  - destruct fuel as [|fuel]; [simpl in Hfuel; lia|].
    cbn [scan app]. destruct (match_here fl r p (c :: a ++ b) adv); [discriminate|].
    cbn [hits]. eapply IH; [exact Hin | exact Hlen | simpl in Hfuel; lia].
Qed.

Lemma search_at fl r a b st' :
  In st' (rmatch fl r {| prev := prev_after None a; rest := b; caps := [] |}) ->
  length (rest st') < length b ->
  search fl r (a ++ b) = true.
Proof.
  intros Hin Hlen. unfold search, finditer, pieces.
  pose proof (@scan_finds fl r a None b 0 false (2 * length (a ++ b) + 2) st' Hin Hlen) as H.
  destruct (hits _); [|reflexivity].
  exfalso. apply H; [|reflexivity]. rewrite length_app. lia.
Qed.

End Facts.
End ScanFacts.

Module CleanFacts.
Import Re ReFacts CaptureFacts MeasureFacts ScanFacts TextNormalizer.

Section Facts.
Context {U : UnicodeDB}.

Lemma one_moved st (f : char -> bool) c t :
  rest st = c :: t -> f c = true -> In (moved st [c] t) (one st f).
Proof. intros Hr Hf. unfold one. rewrite Hr, Hf. now left. Qed.

Lemma infix_in (g s : str) c : infix g s -> In c g -> In c s.
Proof.
  intros (a & b & ->) H. apply in_or_app. right. apply in_or_app. now left.
Qed.

Lemma infix_length (g s : str) : infix g s -> length g <= length s.
Proof. intros (a & b & ->). rewrite !length_app. lia. Qed.

(** The text of a match is a part of the subject. *)
Lemma hit_chars fl r s m c :
  In m (finditer fl r s) -> In c (m_text m) -> In c s.
Proof.
  unfold finditer. rewrite in_hits. intros Hm Hc.
  rewrite <- (pieces_text fl r s). apply in_flat_map. exists (Hit m). now split.
Qed.

(** A run of one character, one or more times, matches wherever that
    character stands. *)
Lemma run_matches x lo p c t :
  lo <= 1 -> c = x ->
  exists st',
    In st' (rmatch no_flags (Rep lo None true (Lit x))
                   {| prev := p; rest := c :: t; caps := [] |})
    /\ length (rest st') < length (c :: t).
Proof.
  intros Hlo ->. exists (moved {| prev := p; rest := x :: t; caps := [] |} [x] t).
  split; [|simpl; lia]. cbn [rmatch].
  apply rep_go_run with (ok := fun c => (c =? x)%N) (run := [x]).
  - intros st c t0 Hr Hc. apply one_moved; [exact Hr|]. exact Hc.
  - reflexivity.
  - simpl. now rewrite N.eqb_refl.
  - exact Hlo.
  - exact I.
  - simpl. lia.
Qed.

(** A match of a run of one character starts with that character. *)
Lemma run_starts x lo hi greedy st st' :
  1 <= lo ->
  In st' (rmatch no_flags (Rep lo hi greedy (Lit x)) st) ->
  exists t, rest st = x :: t.
Proof.
  intros Hlo. cbn [rmatch rep_go]. intros H.
  assert (Hstop : (lo =? 0) = false) by (apply Nat.eqb_neq; lia).
  rewrite Hstop in H.
  assert (Hagain :
    In st' (flat_map
              (fun st1 =>
                 if (length (rest st1) <? length (rest st)) || (0 <? lo)
                 then rep_go (rmatch no_flags (Lit x)) greedy (lo + length (rest st))
                             (pred lo) (option_map pred hi) st1
                 else [])
              (rmatch no_flags (Lit x) st))).
  { destruct greedy; [rewrite app_nil_r in H | simpl in H];
      destruct hi as [[|h]|]; solve [destruct H | exact H]. }
  apply in_flat_map in Hagain as (st1 & H1 & _).
  cbn [rmatch] in H1. unfold one in H1.
  destruct (rest st) as [|c t]; [destruct H1|].
  unfold lit_match in H1. simpl in H1.
  destruct (N.eqb_spec c x) as [->|]; [now exists t | destruct H1].
Qed.

Lemma compile_stars : compile "\*+" = Rep 1 None true (Lit 42%N).
Proof. vm_compute. reflexivity. Qed.

Lemma compile_leftover :
  compile "_{2,}|~{2,}|`+"
  = Alt (Rep 2 None true (Lit 95%N))
        (Alt (Rep 2 None true (Lit 126%N)) (Rep 1 None true (Lit 96%N))).
Proof. vm_compute. reflexivity. Qed.

Lemma compile_newlines : compile "\n{3,}" = Rep 3 None true (Lit 10%N).
Proof. vm_compute. reflexivity. Qed.

Lemma stars_removed s : ~ In 42%N (remove no_flags "\*+" s).
Proof.
  intros H. revert H. unfold remove. rewrite compile_stars.
  intros H. eapply sub_clears with (bad := fun c => c = 42%N) in H; [now apply H | | ].
  - intros p c t Hc. now apply run_matches.
  - intros m c [].
Qed.

Lemma backticks_removed s : ~ In 96%N (remove no_flags "_{2,}|~{2,}|`+" s).
Proof.
  intros H. revert H. unfold remove. rewrite compile_leftover.
  intros H. eapply sub_clears with (bad := fun c => c = 96%N) in H; [now apply H | | ].
  - intros p c t Hc.
    destruct (@run_matches 96%N 1 p c t (le_n 1) Hc) as (st' & Hin & Hlen).
    exists st'. split; [|exact Hlen].
    cbn [rmatch]. apply in_or_app. right. apply in_or_app. right. exact Hin.
  - intros m c [].
Qed.

Lemma newlines_hit s m :
  In m (finditer no_flags (compile "\n{3,}") s) -> In LF (m_text m) /\ 3 <= length (m_text m).
Proof.
  intros Hm. pose proof (finditer_bounds _ _ _ _ Hm) as [_ Hmin].
  rewrite compile_newlines in *. simpl in Hmin.
  unfold finditer, pieces in Hm. rewrite in_hits in Hm.
  apply scan_hit in Hm as (p0 & s0 & st' & H1 & H2 & _).
  apply run_starts in H1 as [t Ht]; [|lia]. simpl in Ht.
  split; [|lia]. rewrite Ht in H2.
  destruct (m_text m) as [|c mt]; [simpl in Hmin; lia|].
  injection H2 as <- _. now left.
Qed.

(** The last steps of the sanitizer bring no character but the
    space. *)
Lemma whitespace_steps_chars s c :
  In c (strip
          (remove MULTILINE "^\s+|\s+$"
             (sub no_flags (compile "[ \t]+") (fun _ => u " ")
                (sub no_flags (compile "\n{3,}") (fun _ => [LF; LF]) s)))) ->
  In c s \/ c = SP.
Proof.
  intros H. apply (@infix_in _ _ c (strip_infix _)) in H.
  apply remove_chars in H.
  apply sub_chars in H as [H | (m & _ & Hc)].
  - apply sub_chars in H as [H | (m & Hm & Hc)]; [now left|].
    left. apply newlines_hit in Hm as Hlf. destruct Hlf as [Hlf _].
    assert (c = LF) by (destruct Hc as [<- | [<- | []]]; reflexivity). subst c.
    eapply hit_chars; eauto.
  - right. destruct Hc as [<- | []]. reflexivity.
Qed.

Lemma whitespace_steps_length s :
  length (strip
            (remove MULTILINE "^\s+|\s+$"
               (sub no_flags (compile "[ \t]+") (fun _ => u " ")
                  (sub no_flags (compile "\n{3,}") (fun _ => [LF; LF]) s))))
  <= length s.
Proof.
  eapply Nat.le_trans; [apply StrFacts.length_strip|].
  eapply Nat.le_trans; [apply remove_length|].
  eapply Nat.le_trans; [apply sub_length | apply sub_length].
  - intros m Hm. apply finditer_bounds in Hm as [_ Hm].
    change (min_len (compile "[ \t]+")) with 1 in Hm. exact Hm.
  - intros m Hm. apply newlines_hit in Hm as [_ Hm]. simpl. lia.
Qed.

Lemma unbold_chars s c :
  In c (sub no_flags (compile "\*\*([^*]+)\*\*") (fun m => group m 1) s) -> In c s.
Proof.
  intros H. apply sub_chars in H as [H | (m & Hm & Hc)]; [exact H|].
  eapply hit_chars; [exact Hm|]. eapply infix_in; [|exact Hc].
  eapply group_infix; [|exact Hm]. reflexivity.
Qed.

Lemma unbold_length s :
  length (sub no_flags (compile "\*\*([^*]+)\*\*") (fun m => group m 1) s) <= length s.
Proof.
  apply sub_length. intros m Hm. apply infix_length.
  eapply group_infix; [|exact Hm]. reflexivity.
Qed.

End Facts.
End CleanFacts.

Section SanitizerMore.
Context {U : UnicodeDB}.
Import Re ReFacts ScanFacts CleanFacts MeasureFacts TrimFacts TextNormalizer.

Ltac through_removals H :=
  repeat first [ apply remove_chars in H | apply unbold_chars in H ].

Lemma clean_length (text : str) : length (clean_script_for_tts text) <= length text.
Proof.
  unfold clean_script_for_tts. cbv zeta.
  eapply Nat.le_trans; [apply whitespace_steps_length|].
  repeat (eapply Nat.le_trans; [first [apply remove_length | apply unbold_length]|]).
  apply Nat.le_refl.
Qed.

(** X13.  The sanitizer adds nothing to a text: what it returns is no
    longer than the text, and each of its characters is a character
    of the text, or the space that stands for a run of blanks. *)
Theorem cleaning_adds_nothing (text : str) :
  length (clean_script_for_tts text) <= length text
  /\ forall c, In c (clean_script_for_tts text) -> In c text \/ c = SP.
Proof.
  split; [apply clean_length|].
  unfold clean_script_for_tts. cbv zeta.
  intros c H. apply whitespace_steps_chars in H as [H | H]; [|now right].
    left. through_removals H. exact H.
Qed.

(** X14.  What the sanitizer returns holds no asterisk and no backtick,
    and no white space at its start or at its end. *)
Theorem cleaned_text_has_no_markup (text : str) :
  ~ In (chr "*") (clean_script_for_tts text)
  /\ ~ In (chr "`") (clean_script_for_tts text)
  /\ strip (clean_script_for_tts text) = clean_script_for_tts text.
Proof.
  change (chr "*") with 42%N. change (chr "`") with 96%N.
  unfold clean_script_for_tts. cbv zeta. split; [|split].
  - intros H. apply whitespace_steps_chars in H as [H | H]; [|discriminate].
    do 6 apply remove_chars in H. now apply stars_removed in H.
  - intros H. apply whitespace_steps_chars in H as [H | H]; [|discriminate].
    now apply backticks_removed in H.
  - apply strip_strip.
Qed.

End SanitizerMore.

Module TruncateFacts.

(** Rounding keeps the sign. *)
Lemma round_sign m e : (0 <= m)%Z -> (0 <= PyFloat.num (PyFloat.round m e))%Z.
Proof.
  intros Hm. unfold PyFloat.round. cbv zeta.
  destruct (Z.log2 (Z.abs m) + 1 - 53 <=? 0)%Z; [exact Hm|].
  cbn [PyFloat.num].
  assert (Hq : (0 <= Z.shiftr (Z.abs m) (Z.log2 (Z.abs m) + 1 - 53))%Z)
    by (apply Z.shiftr_nonneg; lia).
  assert (Hs : (0 <= Z.sgn m)%Z) by (apply Z.sgn_nonneg; exact Hm).
  destruct (_ || _); nia.
Qed.

(** A whole number above a float that is not negative is positive. *)
Lemma int_gt_positive k f :
  (0 <= PyFloat.num f)%Z -> PyFloat.int_gt k f = true -> (0 < k)%Z.
Proof.
  intros Hf. unfold PyFloat.int_gt.
  destruct (Z.leb_spec 0 (PyFloat.exp f)) as [He | He]; intros H; apply Z.ltb_lt in H.
  - assert (0 < 2 ^ PyFloat.exp f)%Z by (apply Z.pow_pos_nonneg; lia). nia.
  - assert (0 < 2 ^ (- PyFloat.exp f))%Z by (apply Z.pow_pos_nonneg; lia). nia.
Qed.

(** [k > n * 0.7] for [n] that is not negative makes [k] positive. *)
Lemma product_positive n k :
  (0 <= n)%Z ->
  PyFloat.int_gt k (PyFloat.mul (PyFloat.of_int n) PyFloat.f0_7) = true -> (0 < k)%Z.
Proof.
  intros Hn. apply int_gt_positive. unfold PyFloat.mul. apply round_sign.
  pose proof (round_sign n 0 Hn) as H. unfold PyFloat.of_int.
  change (PyFloat.num PyFloat.f0_7) with 3152519739159347%Z. nia.
Qed.
Import StrFacts TrimFacts TextNormalizer.

Lemma rfind_from_spec c s : forall i found,
  rfind_from c s i found = found
  \/ exists a b, s = a ++ c :: b /\ rfind_from c s i found = (i + len a)%Z.
Proof.
  induction s as [|x s IH]; intros i found; simpl; [now left|].
  destruct (IH (i + 1)%Z (if (x =? c)%N then i else found)) as [E | (a & b & -> & E)].
  - rewrite E. destruct (N.eqb_spec x c) as [->|]; [|now left].
    right. exists [], s. split; [reflexivity|]. unfold len. simpl. lia.
  - right. exists (x :: a), b. split; [reflexivity|]. rewrite E.
    unfold len. simpl length. lia.
Qed.

(** [s.rfind(c)] is the place of a [c] when it is not negative. *)
Lemma rfind_found c s :
  (0 <= rfind c s)%Z -> exists a b, s = a ++ c :: b /\ len a = rfind c s.
Proof.
  intros H. unfold rfind in *.
  destruct (rfind_from_spec c s 0 (-1)) as [E | (a & b & -> & E)]; [lia|].
  exists a, b. split; [reflexivity|]. rewrite E. lia.
Qed.

Lemma slice_to_prefix s n : exists rest, s = slice_to s n ++ rest.
Proof. exists (slice_from s n). symmetry. apply slice_to_from. Qed.

Lemma slice_to_app a b : slice_to (a ++ b) (len a) = a.
Proof.
  unfold slice_to, len. destruct (Z.leb_spec 0 (Z.of_nat (length a))); [|lia].
  rewrite Nat2Z.id. rewrite firstn_app, Nat.sub_diag, firstn_all. simpl. apply app_nil_r.
Qed.

Lemma before_last_space_prefix s : exists rest, s = before_last_space s ++ rest.
Proof.
  unfold before_last_space. destruct (rfind SP s <? 0)%Z.
  - exists []. now rewrite app_nil_r.
  - apply slice_to_prefix.
Qed.

Lemma prefix_starts (s a b : str) :
  starts_nonws s -> s = a ++ b -> a <> [] -> starts_nonws a.
Proof.
  intros (c & t & -> & Hc) E Ha. destruct a as [|x a]; [contradiction|].
  injection E as <- _. now exists c, a.
Qed.

Lemma len_nonneg (s : str) : (0 <= len s)%Z.
Proof. unfold len. lia. Qed.

End TruncateFacts.

Section SanitizeMore.
Context {U : UnicodeDB}.
Import StrFacts TrimFacts TruncateFacts TextNormalizer.

Lemma fixed_text_is_trimmed s : strip (fix_xtts_glitches s) = fix_xtts_glitches s.
Proof. unfold fix_xtts_glitches. cbv zeta. apply strip_strip. Qed.

(** The ways [sanitize_segment_text] comes to a text. *)
Lemma sanitize_cases text max_length t :
  sanitize_segment_text_with text max_length = Some t ->
  let cleaned := clean_script_for_tts text in
  let fixed := fix_xtts_glitches cleaned in
  detect_repetition_artifacts cleaned = false
  /\ (10 <= len (strip cleaned))%Z
  /\ (((len fixed <= max_length)%Z /\ t = fixed)
      \/ ((max_length < len fixed)%Z
          /\ let truncated := slice_to fixed max_length in
             let last_sentence :=
               Z.max (Z.max (rfind (Re.chr ".") truncated) (rfind (Re.chr "!") truncated))
                     (rfind (Re.chr "?") truncated) in
             (PyFloat.int_gt last_sentence
                             (PyFloat.mul (PyFloat.of_int max_length) PyFloat.f0_7) = true
              /\ t = slice_to truncated (last_sentence + 1))
             \/ (PyFloat.int_gt last_sentence
                                (PyFloat.mul (PyFloat.of_int max_length) PyFloat.f0_7) = false
                 /\ t = before_last_space truncated ++ u "..."))).
Proof.
  unfold sanitize_segment_text_with. cbv zeta.
  generalize (fix_xtts_glitches (clean_script_for_tts text)).
  generalize (clean_script_for_tts text). intros cleaned fixed.
  destruct (detect_repetition_artifacts cleaned); [discriminate|].
  destruct (match cleaned with [] => true | _ => false end
            || (len (strip cleaned) <? 10)%Z) eqn:E; [discriminate|].
  apply orb_false_iff in E as [_ E]. apply Z.ltb_ge in E.
  intros H. split; [reflexivity|]. split; [exact E|].
  destruct (Z.ltb_spec max_length (len fixed)) as [Hlong | Hfits].
  - right. split; [exact Hlong|].
    match type of H with
    | (if ?c then _ else _) = _ => destruct c eqn:Hs
    end; injection H as <-; [left | right]; split; reflexivity.
  - left. injection H as <-. split; [exact Hfits | reflexivity].
Qed.

Lemma sanitized_length (text : str) (max_length : Z) (t : str) :
  (0 <= max_length)%Z ->
  sanitize_segment_text_with text max_length = Some t ->
  (len t <= max_length + 3)%Z.
Proof.
  intros Hmax H. apply sanitize_cases in H as (_ & _ & H). cbv zeta in H.
  revert H. generalize (fix_xtts_glitches (clean_script_for_tts text)). intros fixed H.
  destruct H as [[Hfits ->] | [Hlong [[_ ->] | [_ ->]]]].
  - lia.
  - match goal with
    | |- (len (slice_to ?s ?n) <= _)%Z => pose proof (length_slice_to_le s n)
    end.
    pose proof (@length_slice_to fixed max_length Hmax).
    unfold len in *. lia.
  - destruct (before_last_space_prefix (slice_to fixed max_length)) as [rest E].
    pose proof (@length_slice_to fixed max_length Hmax) as Hl.
    rewrite E in Hl. rewrite !len_app in *. change (len (u "...")) with 3%Z.
    pose proof (len_nonneg rest). lia.
Qed.

(** X15.  What [sanitize_segment_text] returns is never longer than
    [max_length] and three characters more, the dots of a cut; a
    text that is within [max_length] once cleaned and fixed is
    returned as that. *)
Theorem sanitized_text_is_bounded (text : str) (max_length : Z) (t : str) :
  (0 <= max_length)%Z ->
  sanitize_segment_text_with text max_length = Some t ->
  (len t <= max_length + 3)%Z
  /\ ((len (fix_xtts_glitches (clean_script_for_tts text)) <= max_length)%Z ->
      t = fix_xtts_glitches (clean_script_for_tts text)).
Proof.
  intros Hmax H. split; [exact (sanitized_length text max_length t Hmax H)|].
  apply sanitize_cases in H as (_ & _ & H). cbv zeta in H.
  revert H. generalize (fix_xtts_glitches (clean_script_for_tts text)). intros fixed H.
  destruct H as [[_ ->] | [Hlong _]]; [reflexivity | lia].
Qed.

(** What a cut leaves: a text that ends a sentence. *)
Lemma cut_text_shape (fixed : str) (max_length : Z) (t : str) :
  (0 <= max_length)%Z ->
  let truncated := slice_to fixed max_length in
  let last_sentence :=
    Z.max (Z.max (rfind (Re.chr ".") truncated) (rfind (Re.chr "!") truncated))
          (rfind (Re.chr "?") truncated) in
  (PyFloat.int_gt last_sentence
                  (PyFloat.mul (PyFloat.of_int max_length) PyFloat.f0_7) = true
   /\ t = slice_to truncated (last_sentence + 1))
  \/ (PyFloat.int_gt last_sentence
                     (PyFloat.mul (PyFloat.of_int max_length) PyFloat.f0_7) = false
      /\ t = before_last_space truncated ++ u "...") ->
  exists a c,
    t = a ++ [c] /\ In c [Re.chr "."; Re.chr "!"; Re.chr "?"]
    /\ ((exists rest, fixed = t ++ rest)
        \/ (exists b rest, t = b ++ u "..." /\ fixed = b ++ rest)).
Proof.
  intros Hmax. cbv zeta.
  set (truncated := slice_to fixed max_length).
  destruct (slice_to_prefix fixed max_length) as [rest0 Hpre]. fold truncated in Hpre.
  intros [[Hs ->] | [_ ->]].
  - set (last := Z.max (Z.max (rfind (Re.chr ".") truncated) (rfind (Re.chr "!") truncated))
                       (rfind (Re.chr "?") truncated)) in *.
    assert (Hfound : exists c, In c [Re.chr "."; Re.chr "!"; Re.chr "?"]
                               /\ last = rfind c truncated).
    { unfold last.
      destruct (Z.max_spec (Z.max (rfind (Re.chr ".") truncated) (rfind (Re.chr "!") truncated))
                           (rfind (Re.chr "?") truncated)) as [[_ E] | [_ E]].
      - exists (Re.chr "?"). split; [simpl; tauto | exact E].
      - rewrite E.
        destruct (Z.max_spec (rfind (Re.chr ".") truncated) (rfind (Re.chr "!") truncated))
          as [[_ E'] | [_ E']]; rewrite E'.
        + exists (Re.chr "!"). split; [simpl; tauto | reflexivity].
        + exists (Re.chr "."). split; [simpl; tauto | reflexivity]. }
    destruct Hfound as (c & Hc & Hlast).
    pose proof (product_positive max_length last Hmax Hs) as Hpos.
    destruct (@rfind_found c truncated ltac:(lia)) as (a & b & Ht & Ha).
    exists a, c.
    assert (E : slice_to truncated (last + 1) = a ++ [c]).
    { rewrite Hlast, <- Ha, Ht.
      replace (len a + 1)%Z with (len (a ++ [c]))
        by (unfold len; rewrite length_app; simpl; lia).
      change (a ++ c :: b) with (a ++ [c] ++ b). rewrite app_assoc. apply slice_to_app. }
    split; [exact E|]. split; [exact Hc|].
    left. rewrite E. exists (b ++ rest0). rewrite Hpre, Ht.
    rewrite <- !app_assoc. reflexivity.
  - exists (before_last_space truncated ++ firstn 2 (u "...")), (Re.chr ".").
    split; [rewrite <- app_assoc; reflexivity|].
    split; [simpl; tauto|].
    right. destruct (before_last_space_prefix truncated) as [rest1 E].
    exists (before_last_space truncated), (rest1 ++ rest0).
    split; [reflexivity|]. rewrite Hpre at 1. rewrite E at 1.
    now rewrite <- app_assoc.
Qed.

(** X16.  When [sanitize_segment_text] cuts a text that is longer than
    [max_length], what it returns ends with a full stop, an
    exclamation mark or a question mark: it is the start of the text
    up to such a mark, or a start of the text followed by three
    dots. *)
Theorem cut_text_ends_a_sentence (text : str) (max_length : Z) (t : str) :
  (0 <= max_length)%Z ->
  sanitize_segment_text_with text max_length = Some t ->
  (max_length < len (fix_xtts_glitches (clean_script_for_tts text)))%Z ->
  exists a c,
    t = a ++ [c] /\ In c [Re.chr "."; Re.chr "!"; Re.chr "?"]
    /\ ((exists rest, fix_xtts_glitches (clean_script_for_tts text) = t ++ rest)
        \/ (exists b rest, t = b ++ u "..."
                           /\ fix_xtts_glitches (clean_script_for_tts text) = b ++ rest)).
Proof.
  intros Hmax H Hlong. apply sanitize_cases in H as (_ & _ & H). cbv zeta in H.
  revert H Hlong. generalize (fix_xtts_glitches (clean_script_for_tts text)).
  intros fixed H Hlong.
  destruct H as [[Hfits _] | [_ H]]; [lia|].
  exact (@cut_text_shape fixed max_length t Hmax H).
Qed.

(** X17.  A text of fewer than ten characters is never accepted. *)
Theorem short_text_is_rejected (text : str) (max_length : Z) :
  (len text < 10)%Z -> sanitize_segment_text_with text max_length = None.
Proof.
  intros Hshort.
  destruct (sanitize_segment_text_with text max_length) as [t|] eqn:E; [|reflexivity].
  apply sanitize_cases in E as (_ & Hlen & _). cbv zeta in Hlen.
  pose proof (length_strip (clean_script_for_tts text)) as Hstrip.
  pose proof (clean_length text) as Hclean.
  revert Hlen Hstrip Hclean. generalize (clean_script_for_tts text). intros cleaned.
  unfold len in *. lia.
Qed.

Lemma sanitized_trimmed (text : str) (max_length : Z) (t : str) :
  (0 <= max_length)%Z ->
  sanitize_segment_text_with text max_length = Some t ->
  strip t = t.
Proof.
  intros Hmax H.
  apply sanitize_cases in H as (_ & _ & Hcases). cbv zeta in Hcases.
  pose proof (fixed_text_is_trimmed (clean_script_for_tts text)) as Htrim.
  revert Hcases Htrim. generalize (fix_xtts_glitches (clean_script_for_tts text)).
  intros fixed Hcases Htrim.
  destruct Hcases as [[_ ->] | [Hlong Hcut]]; [exact Htrim|].
  assert (Hfixed : starts_nonws fixed).
  { destruct (trimmed_cases _ Htrim) as [E | [Hs _]]; [|exact Hs].
    rewrite E in Hlong. unfold len in Hlong. simpl in Hlong. lia. }
  destruct (@cut_text_shape fixed max_length t Hmax Hcut) as (a & c & Et & Hc & Hpre).
  assert (Hend : ends_nonws t).
  { exists a, c. split; [exact Et|].
    destruct Hc as [<- | [<- | [<- | []]]]; reflexivity. }
  apply strip_trimmed; [|exact Hend].
  destruct Hpre as [[rest E] | (b & rest & Eb & E)].
  - eapply prefix_starts; [exact Hfixed | exact E | now apply ends_nonws_nonempty].
  - destruct b as [|x b].
    + rewrite Eb. exists (Re.chr "."), (u ".."). split; reflexivity.
    + rewrite Eb. destruct Hfixed as (c0 & t0 & E0 & Hc0).
      rewrite E0 in E. injection E as <- _. now exists c0, (b ++ u "...").
Qed.

(** X18.  A text that [sanitize_segment_text] accepts has no white
    space at its start or at its end. *)
Theorem accepted_text_is_trimmed (text : str) (max_length : Z) (t : str) :
  (0 <= max_length)%Z ->
  sanitize_segment_text_with text max_length = Some t ->
  strip t = t.
Proof. apply sanitized_trimmed. Qed.

End SanitizeMore.

Section SplitMore.
Context {U : UnicodeDB} {T : Re.Templates}.
Import Models TtsEngine StrFacts ChunkerFacts TrimFacts TextNormalizer.

Lemma safe_limit_max (lang : str) : (safe_limit_of (char_limit lang) <= 175)%Z.
Proof. destruct (safe_limit_cases lang) as [-> | [-> | ->]]; lia. Qed.

Lemma split_long_text_trimmed fuel text max_chars chunks :
  (1 <= max_chars)%Z -> text <> [] -> strip text = text ->
  _split_long_text fuel text max_chars = Some chunks ->
  Forall (fun chunk => chunk <> [] /\ strip chunk = chunk) chunks /\ chunks <> [].
Proof.
  intros Hmax Hne Htrim Hrun. pose proof Hrun as Hsound.
  apply split_long_text_sound in Hsound as [_ Hsound].
  split.
  - unfold _split_long_text in Hrun.
    destruct (len text <=? max_chars)%Z.
    + injection Hrun as <-. constructor; [now split | constructor].
    + eapply split_loop_trimmed; [exact Hmax | apply strip_strip | constructor | exact Hrun].
  - intros ->. simpl in Hsound.
    destruct (trimmed_cases _ Htrim) as [E | [Hs _]]; [contradiction|].
    apply starts_nonws_nonws in Hs. congruence.
Qed.

Lemma split_cases fuel self segment parts :
  _split_segment_if_needed fuel self segment = Some (Ok parts) ->
  parts = [segment]
  \/ exists sanitized normalized chunks,
       sanitize_segment_text (text segment) = Some sanitized
       /\ sanitized <> []
       /\ normalized_text self sanitized = Ok normalized
       /\ (char_limit (language self) < len normalized)%Z
       /\ _split_long_text fuel sanitized (safe_limit_of (char_limit (language self)))
          = Some chunks
       /\ parts = map (fun chunk => new_segment (speaker segment) chunk) chunks.
Proof.
  unfold _split_segment_if_needed.
  destruct (sanitize_segment_text (text segment)) as [[|c sanitized]|] eqn:Es;
    [intros H; injection H as <-; now left | | intros H; injection H as <-; now left].
  destruct (normalized_text self (c :: sanitized)) as [normalized|] eqn:En; [|discriminate].
  cbv zeta.
  destruct (Z.leb_spec (len normalized) (char_limit (language self))) as [Hfits | Hlong];
    [intros H; injection H as <-; now left|].
  destruct (_split_long_text fuel (c :: sanitized) _) as [chunks|] eqn:Ec; [|discriminate].
  intros H; injection H as <-. right. exists (c :: sanitized), normalized, chunks.
  repeat split; try assumption; try reflexivity. discriminate.
Qed.

Lemma split_parts fuel self segment parts :
  _split_segment_if_needed fuel self segment = Some (Ok parts) ->
  parts = [segment]
  \/ (parts <> []
      /\ Forall (part_of segment (safe_limit_of (char_limit (language self)))) parts).
Proof.
  intros H. apply split_cases in H
    as [-> | (sanitized & normalized & chunks & Hs & Hne & Hn & Hlong & Hc & ->)];
    [now left|].
  right.
  assert (Htrim : strip sanitized = sanitized).
  { apply (sanitized_trimmed (text segment) 500); [lia | exact Hs]. }
  pose proof (safe_limit_min (language self)) as Hmin.
  destruct (split_long_text_trimmed _ _ _ _ Hmin Hne Htrim Hc) as [Hall Hsome].
  apply split_long_text_sound in Hc as [Hbound _].
  split; [destruct chunks; [contradiction | discriminate]|].
  apply Forall_map. rewrite Forall_forall in *.
  intros chunk Hin. destruct (Hall chunk Hin) as [H1 H2].
  unfold part_of. simpl. repeat split; auto.
Qed.

(** X19.  When [_split_segment_if_needed] does not hand back the
    segment itself, it hands back one part or more, and each part has
    the speaker of the segment, a text that is not empty, has no
    white space around it and is no longer than the safe limit,
    [int(max_chars * 0.7)] for the limit of the language, which is
    175 characters at most, and no audio yet. *)
Theorem parts_fit_the_safe_limit
        (fuel : nat) (self : TTSEngine) (segment : Segment) (parts : list Segment) :
  _split_segment_if_needed fuel self segment = Some (Ok parts) ->
  parts = [segment]
  \/ (parts <> []
      /\ Forall (part_of segment (safe_limit_of (char_limit (language self)))) parts
      /\ (safe_limit_of (char_limit (language self)) <= 175)%Z).
Proof.
  intros H. apply split_parts in H as [-> | [H1 H2]]; [now left|].
  right. split; [exact H1|]. split; [exact H2 | apply safe_limit_max].
Qed.

(** With fuel for the longest text the sanitizer lets through, the
    split of a segment ends: in a list, or in the exception of the
    normaliser. *)
Lemma split_returns fuel self segment :
  503 <= fuel ->
  (exists parts, _split_segment_if_needed fuel self segment = Some (Ok parts))
  \/ (_split_segment_if_needed fuel self segment = Some Err
      /\ exists sanitized,
           sanitize_segment_text (text segment) = Some sanitized
           /\ normalized_text self sanitized = Err).
Proof.
  intros Hfuel. unfold _split_segment_if_needed.
  destruct (sanitize_segment_text (text segment)) as [[|c sanitized]|] eqn:Es;
    [left; now exists [segment] | | left; now exists [segment]].
  destruct (normalized_text self (c :: sanitized)) as [normalized|] eqn:En;
    [|right; split; [reflexivity | now exists (c :: sanitized)]].
  left. cbv zeta.
  destruct (len normalized <=? char_limit (language self))%Z;
    [now exists [segment]|].
  pose proof (@sanitized_length U (text segment) 500 (c :: sanitized)
                ltac:(lia) Es) as Hlen.
  destruct (@split_long_text_returns U (c :: sanitized)
              (safe_limit_of (char_limit (language self)))
              (safe_limit_min (language self))) as [chunks Hchunks].
  rewrite Hchunks; [eexists; reflexivity|]. unfold len in Hlen. lia.
Qed.

(** X20.  The pre-processing of [synthesize_script] ends for every
    script and every engine.  It ends in an exception only when the
    normalisation of the sanitized text of one of the segments
    raises.  Otherwise it loses no segment: what it hands on is,
    segment by segment and in the order of the script, one part or
    more with the speaker of that segment. *)
Theorem preprocessing_keeps_every_segment
        (fuel : nat) (self : TTSEngine) (segments : list Segment) :
  503 <= fuel ->
  (exists processed parts,
     processed_segments fuel self segments = Some (Ok processed)
     /\ processed = concat parts
     /\ Forall2 (fun segment part =>
                   part <> [] /\ Forall (fun p => speaker p = speaker segment) part)
                segments parts)
  \/ (processed_segments fuel self segments = Some Err
      /\ exists segment sanitized,
           In segment segments
           /\ sanitize_segment_text (text segment) = Some sanitized
           /\ normalized_text self sanitized = Err).
Proof.
  intros Hfuel. induction segments as [|segment segments IH].
  - left. exists [], []. repeat split. constructor.
  - cbn [processed_segments].
    destruct (@split_returns fuel self segment Hfuel)
      as [[part Hpart] | [Hraises (sanitized & Hs & Hn)]].
    + rewrite Hpart.
      destruct IH as [(processed & parts & E & Ec & HF)
                     | [E (segment' & sanitized & Hin & Hs & Hn)]]; rewrite E.
      * left. exists (part ++ processed), (part :: parts).
        split; [reflexivity|]. split; [simpl; now rewrite Ec|].
        constructor; [|exact HF].
        apply split_parts in Hpart as [-> | [Hne Hall]].
        -- split; [discriminate|]. constructor; [reflexivity | constructor].
        -- split; [exact Hne|]. eapply Forall_impl; [|exact Hall].
           intros p Hp. apply Hp.
      * right. split; [reflexivity|]. exists segment', sanitized.
        split; [now right|]. now split.
    + rewrite Hraises. right. split; [reflexivity|]. exists segment, sanitized.
      split; [now left|]. now split.
Qed.

End SplitMore.

Module RunFacts.
Import Re ReFacts ScanFacts CleanFacts.

Section Facts.
Context {U : UnicodeDB}.

(** [rep_go_run] for a body that needs the groups captured so far. *)
Lemma rep_go_run_caps (body : mstate -> list mstate) (ok : char -> bool)
      (cs : list (nat * str)) greedy :
  (forall st c t, caps st = cs -> rest st = c :: t -> ok c = true ->
                  In (moved st [c] t) (body st)) ->
  forall run fuel lo hi st t,
    caps st = cs ->
    rest st = run ++ t -> forallb ok run = true ->
    lo <= length run ->
    match hi with Some h => length run <= h | None => True end ->
    length run < fuel ->
    In (moved st run t) (rep_go body greedy fuel lo hi st).
Proof.
  intros Hbody. induction run as [|c run IH]; intros fuel lo hi st t Hcs Hrest Hok Hlo Hhi Hfuel.
  - destruct fuel as [|fuel]; [simpl in Hfuel; lia|].
    assert (lo = 0) by (simpl in Hlo; lia). subst lo.
    assert (Hst : moved st [] t = st).
    { destruct st as [p r cs0]. unfold moved, prev_after. simpl in *. now subst r. }
    rewrite Hst. cbn [rep_go]. change (0 =? 0) with true. cbv iota.
    destruct greedy; apply in_or_app; [right | left]; now left.
  - destruct fuel as [|fuel]; [simpl in Hfuel; lia|].
    simpl in Hok. apply andb_true_iff in Hok as [Hc Hok].
    assert (Hflat :
      In (moved st (c :: run) t)
         (flat_map
            (fun st' =>
               if (length (rest st') <? length (rest st)) || (0 <? lo)
               then rep_go body greedy fuel (pred lo) (option_map pred hi) st'
               else [])
            (body st))).
    { apply in_flat_map. exists (moved st [c] (run ++ t)).
      split; [apply Hbody; [exact Hcs | exact Hrest | exact Hc]|].
      assert (Hshort : (length (rest (moved st [c] (run ++ t))) <? length (rest st)) = true).
      { apply Nat.ltb_lt. rewrite Hrest. simpl. lia. }
      rewrite Hshort. simpl orb. cbv iota.
      replace (moved st (c :: run) t) with (moved (moved st [c] (run ++ t)) run t)
        by reflexivity.
      apply IH; [exact Hcs | reflexivity | exact Hok | simpl in Hlo; lia | | simpl in Hfuel; lia].
      destruct hi as [h|]; simpl in *; [lia | exact I]. }
    assert (Hagain :
      In (moved st (c :: run) t)
         (match hi with
          | Some 0 => []
          | _ => flat_map
                   (fun st' =>
                      if (length (rest st') <? length (rest st)) || (0 <? lo)
                      then rep_go body greedy fuel (pred lo) (option_map pred hi) st'
                      else [])
                   (body st)
          end)).
    { destruct hi as [[|h]|]; [simpl in Hhi; lia | exact Hflat | exact Hflat]. }
    cbn [rep_go]. destruct greedy; apply in_or_app; [left | right]; exact Hagain.
Qed.

(** A class, some number of times, goes over a run of its characters. *)
Lemma class_run neg items lo hi greedy st run t :
  rest st = run ++ t ->
  forallb (fun c => xorb neg (set_match no_flags items c)) run = true ->
  lo <= length run ->
  match hi with Some h => length run <= h | None => True end ->
  In (moved st run t) (rmatch no_flags (Rep lo hi greedy (CSet neg items)) st).
Proof.
  intros Hrest Hok Hlo Hhi. cbn [rmatch].
  apply rep_go_run_caps
    with (ok := fun c => xorb neg (set_match no_flags items c)) (cs := caps st);
    try assumption; try reflexivity.
  - intros st0 c t0 _ Hr Hc. apply one_moved; assumption.
  - rewrite Hrest, length_app. lia.
Qed.

Lemma forallb_same (f g : char -> bool) (l : str) :
  (forall c, f c = g c) -> forallb f l = forallb g l.
Proof. intros H. induction l as [|c l IH]; simpl; [reflexivity|]. now rewrite H, IH. Qed.

Lemma solid_class w :
  solid w = true ->
  forallb (fun c => xorb true (set_match no_flags [CSpace] c)) w = true.
Proof.
  unfold solid. intros H.
  rewrite (forallb_same _ (fun c => negb (isspace c)) w); [exact H|].
  intros c. unfold set_match. cbn [existsb ignorecase no_flags item_match].
  now destruct (isspace c).
Qed.

Lemma blank_class w :
  blank w = true ->
  forallb (fun c => xorb false (set_match no_flags [CSpace] c)) w = true /\ 1 <= length w.
Proof.
  unfold blank. destruct w as [|c w]; [discriminate|]. intros H. split; [|simpl; lia].
  rewrite (forallb_same _ isspace (c :: w)); [exact H|].
  intros x. unfold set_match. cbn [existsb ignorecase no_flags item_match].
  now destruct (isspace x).
Qed.

Lemma blank_run st w t :
  rest st = w ++ t -> blank w = true ->
  In (moved st w t) (rmatch no_flags (Rep 1 None true (CSet false [CSpace])) st).
Proof.
  intros Hr Hb. apply blank_class in Hb as [Hb Hl].
  apply class_run; [exact Hr | exact Hb | exact Hl | exact I].
Qed.

Lemma prev_after_snoc p w c : prev_after p (w ++ [c]) = Some c.
Proof. unfold prev_after. now rewrite fold_left_app. Qed.

Lemma prev_after_cons p x w : exists c, prev_after p (x :: w) = Some c.
Proof.
  revert p x. induction w as [|y w IH]; intros p x; [now exists x|].
  destruct (IH (Some x) y) as [c E]. exists c. exact E.
Qed.

Lemma prefix_match_self (g r : str) :
  prefix_match no_flags g (g ++ r)
  = Some (match g with [] => None | _ => prev_after None g end, r).
Proof.
  induction g as [|x g IH]; [reflexivity|].
  cbn [prefix_match app]. unfold same_char. simpl ignorecase. cbv iota.
  rewrite N.eqb_refl, IH. destruct g as [|y g]; [reflexivity|].
  destruct (prev_after_cons None y g) as [c E]. rewrite E.
  change (prev_after None (x :: y :: g)) with (prev_after None (y :: g)).
  now rewrite E.
Qed.

(** A backreference goes over the text of its group. *)
Lemma backref_run n st g t :
  cap_lookup n (caps st) = Some g -> g <> [] -> rest st = g ++ t ->
  In (moved st g t) (rmatch no_flags (Backref n) st).
Proof.
  intros Hcap Hg Hrest. cbn [rmatch]. rewrite Hcap, Hrest, prefix_match_self.
  destruct g as [|x g]; [contradiction|].
  destruct (prev_after_cons None x g) as [c E]. rewrite E.
  left. unfold moved. f_equal. symmetry. exact E.
Qed.

Lemma seq_in fl a b st st1 st2 :
  In st1 (rmatch fl a st) -> In st2 (rmatch fl b st1) -> In st2 (rmatch fl (Seq a b) st).
Proof. intros H1 H2. cbn [rmatch]. apply in_flat_map. now exists st1. Qed.

Lemma group_in fl n a st st1 :
  In st1 (rmatch fl a st) -> In (set_cap n st st1) (rmatch fl (Group n a) st).
Proof. intros H. cbn [rmatch]. now apply in_map. Qed.

Lemma set_cap_moved n st run t :
  rest st = run ++ t ->
  set_cap n st (moved st run t)
  = {| prev := prev_after (prev st) run; rest := t; caps := (n, run) :: caps st |}.
Proof.
  intros Hr. unfold set_cap. simpl.
  rewrite (consumed_prefix st (moved st run t) run Hr). reflexivity.
Qed.

End Facts.
End RunFacts.

Section DetectorMore.
Context {U : UnicodeDB}.
Import Re ReFacts ScanFacts CleanFacts RunFacts TextNormalizer.

Lemma compile_character_run :
  compile "(.)\1{5,}" = Seq (Group 1 Dot) (Rep 5 None true (Backref 1)).
Proof. vm_compute. reflexivity. Qed.

Lemma character_run_found (before after : str) (c : char) :
  c <> LF ->
  search no_flags (compile "(.)\1{5,}") (before ++ repeat c 6 ++ after) = true.
Proof.
  intros Hc. rewrite compile_character_run.
  set (st0 := {| prev := prev_after None before; rest := repeat c 6 ++ after; caps := [] |}).
  set (st1 := {| prev := Some c; rest := repeat c 5 ++ after; caps := [(1, [c])] |}).
  apply search_at with (st' := moved st1 (repeat c 5) after); [|simpl; lia].
  fold st0. apply seq_in with (st1 := st1).
  - assert (E : st1 = set_cap 1 st0 (moved st0 [c] (repeat c 5 ++ after))).
    { rewrite set_cap_moved by reflexivity. reflexivity. }
    rewrite E. apply group_in. cbn [rmatch]. apply one_moved; [reflexivity|].
    simpl. apply N.eqb_neq in Hc. now rewrite Hc.
  - cbn [rmatch].
    apply rep_go_run_caps with (ok := fun x => (x =? c)%N) (cs := [(1, [c])]).
    + intros st x t Hcs Hr Hx. apply N.eqb_eq in Hx. subst x.
      apply (backref_run 1 st [c] t); [rewrite Hcs; reflexivity | discriminate | exact Hr].
    + reflexivity.
    + reflexivity.
    + simpl. now rewrite N.eqb_refl.
    + simpl. lia.
    + exact I.
    + simpl. lia.
Qed.

(** X21.  A text is taken for an artifact when, in lower case, it
    holds the same character six times in a row, unless the
    character is a line break. *)
Theorem character_run_is_an_artifact (text before after : str) (c : char) :
  str_lower text = before ++ repeat c 6 ++ after -> c <> LF ->
  detect_repetition_artifacts text = true.
Proof.
  intros Hl Hc. unfold detect_repetition_artifacts, detect_repetition_artifacts_with.
  cbv zeta. rewrite Hl, (character_run_found before after c Hc). reflexivity.
Qed.

End DetectorMore.

Module SyllableFacts.
Import Re ReFacts ScanFacts CleanFacts RunFacts.

Section Facts.
Context {U : UnicodeDB}.

Lemma moved_moved st a b t1 t2 : moved (moved st a t1) b t2 = moved st (a ++ b) t2.
Proof. unfold moved, prev_after. simpl. now rewrite fold_left_app. Qed.

Lemma moved_nil st : moved st [] (rest st) = st.
Proof. now destruct st. Qed.

(** One turn of a repetition. *)
Lemma rep_go_once (body : mstate -> list mstate) greedy fuel lo hi st st1 :
  In st1 (body st) -> length (rest st1) < length (rest st) ->
  lo <= 1 -> hi <> Some 0 -> 2 <= fuel ->
  In st1 (rep_go body greedy fuel lo hi st).
Proof.
  intros Hin Hlen Hlo Hhi Hfuel.
  destruct fuel as [|[|fuel]]; [lia | lia |].
  assert (Hstop : In st1 (rep_go body greedy (S fuel) (pred lo) (option_map pred hi) st1)).
  { cbn [rep_go]. assert (E : (pred lo =? 0) = true) by (apply Nat.eqb_eq; lia).
    rewrite E. destruct greedy; apply in_or_app; [right | left]; now left. }
  assert (Hflat :
    In st1 (flat_map
              (fun st' =>
                 if (length (rest st') <? length (rest st)) || (0 <? lo)
                 then rep_go body greedy (S fuel) (pred lo) (option_map pred hi) st'
                 else [])
              (body st))).
  { apply in_flat_map. exists st1. split; [exact Hin|].
    apply Nat.ltb_lt in Hlen. rewrite Hlen. exact Hstop. }
  cbn [rep_go].
  assert (Hagain :
    In st1 (match hi with
            | Some 0 => []
            | _ => flat_map
                     (fun st' =>
                        if (length (rest st') <? length (rest st)) || (0 <? lo)
                        then rep_go body greedy (S fuel) (pred lo) (option_map pred hi) st'
                        else [])
                     (body st)
            end)).
  { destruct hi as [[|h]|]; [contradiction | exact Hflat | exact Hflat]. }
  destruct greedy; apply in_or_app; [left | right]; exact Hagain.
Qed.

(** No turn of a repetition that may be left out. *)
Lemma rep_go_none (body : mstate -> list mstate) greedy fuel hi st :
  1 <= fuel -> In st (rep_go body greedy fuel 0 hi st).
Proof.
  intros Hfuel. destruct fuel as [|fuel]; [lia|]. cbn [rep_go].
  change (0 =? 0) with true. cbv iota.
  destruct greedy; apply in_or_app; [right | left]; now left.
Qed.

Lemma rep_once fl a lo hi greedy st st1 :
  In st1 (rmatch fl a st) -> length (rest st1) < length (rest st) ->
  lo <= 1 -> hi <> Some 0 ->
  In st1 (rmatch fl (Rep lo hi greedy a) st).
Proof.
  intros Hin Hlen Hlo Hhi. cbn [rmatch].
  apply rep_go_once; try assumption. lia.
Qed.

Lemma rep_none fl a hi greedy st : In st (rmatch fl (Rep 0 hi greedy a) st).
Proof. cbn [rmatch]. apply rep_go_none. lia. Qed.

Lemma solid_run n st w t :
  rest st = w ++ t -> solid w = true -> length w = n ->
  In (moved st w t) (rmatch no_flags (Rep n (Some n) true (CSet true [CSpace])) st).
Proof.
  intros Hr Hs Hl. apply class_run; [exact Hr | now apply solid_class | lia | lia].
Qed.

(** The group of the syllable pattern takes a unit. *)
Lemma unit_group n unit st t :
  1 <= n -> syllable_unit n unit -> rest st = unit ++ t ->
  In {| prev := prev_after (prev st) unit; rest := t; caps := (1, unit) :: caps st |}
     (rmatch no_flags
             (Group 1 (Seq (Rep n (Some n) true (CSet true [CSpace]))
                           (Rep 0 (Some 1) true
                                (Seq (Rep 1 None true (CSet false [CSpace]))
                                     (Rep n (Some n) true (CSet true [CSpace]))))))
             st).
Proof.
  intros Hn Hunit Hrest.
  match goal with
  | |- In ?x _ =>
    replace x with (set_cap 1 st (moved st unit t))
      by (apply set_cap_moved; exact Hrest)
  end.
  apply group_in.
  destruct Hunit as [[Hl Hs] | (w1 & b & w2 & -> & Hl1 & Hl2 & Hs1 & Hs2 & Hb)].
  - apply seq_in with (st1 := moved st unit t).
    + now apply solid_run.
    + apply rep_none.
  - rewrite <- !app_assoc in Hrest.
    apply seq_in with (st1 := moved st w1 (b ++ w2 ++ t)).
    + now apply solid_run.
    + apply rep_once.
      * apply seq_in with (st1 := moved (moved st w1 (b ++ w2 ++ t)) b (w2 ++ t)).
        -- now apply blank_run.
        -- rewrite <- (moved_moved st w1 (b ++ w2) (b ++ w2 ++ t) t).
           rewrite <- (moved_moved (moved st w1 (b ++ w2 ++ t)) b w2 (w2 ++ t) t).
           now apply solid_run.
      * simpl. rewrite !length_app. destruct b; [discriminate | simpl; lia].
      * lia.
      * discriminate.
Qed.

Lemma syllable_unit_nonempty n unit : 1 <= n -> syllable_unit n unit -> unit <> [].
Proof.
  intros Hn [[Hl _] | (w1 & b & w2 & -> & Hl1 & _)] E.
  - subst unit. simpl in Hl. lia.
  - destruct w1; [simpl in Hl1; lia | discriminate].
Qed.

(** The syllable pattern finds a unit that comes three times, with
    white space between. *)
Lemma syllable_found n before unit b1 b2 after :
  1 <= n -> syllable_unit n unit -> blank b1 = true -> blank b2 = true ->
  search no_flags (syllable_regex n)
         (before ++ unit ++ b1 ++ unit ++ b2 ++ unit ++ after) = true.
Proof.
  intros Hn Hunit Hb1 Hb2.
  pose proof (syllable_unit_nonempty n unit Hn Hunit) as Hne.
  set (st0 := {| prev := prev_after None before;
                 rest := unit ++ b1 ++ unit ++ b2 ++ unit ++ after; caps := [] |}).
  set (st1 := {| prev := prev_after (prev st0) unit;
                 rest := b1 ++ unit ++ b2 ++ unit ++ after; caps := [(1, unit)] |}).
  set (st2 := moved st1 b1 (unit ++ b2 ++ unit ++ after)).
  set (st3 := moved st2 unit (b2 ++ unit ++ after)).
  set (st4 := moved st3 b2 (unit ++ after)).
  set (st5 := moved st4 unit after).
  apply search_at with (st' := st5).
  - fold st0. unfold syllable_regex. cbv zeta.
    apply seq_in with (st1 := st1); [apply (unit_group n unit st0); auto|].
    apply seq_in with (st1 := st2); [now apply blank_run|].
    apply seq_in with (st1 := st3); [apply backref_run; auto|].
    apply seq_in with (st1 := st4); [now apply blank_run|].
    apply backref_run; auto.
  - simpl. rewrite !length_app.
    destruct unit; [contradiction | simpl; lia].
Qed.

End Facts.
End SyllableFacts.

Section SyllableCheck.
Context {U : UnicodeDB}.
Import Re SyllableFacts TextNormalizer.

Lemma syllable_pattern_compiles n :
  2 <= n <= 6 -> syllable_pattern n = syllable_regex n.
Proof.
  intros Hn.
  assert (H : n = 2 \/ n = 3 \/ n = 4 \/ n = 5 \/ n = 6) by lia.
  destruct H as [-> | [-> | [-> | [-> | ->]]]]; vm_compute; reflexivity.
Qed.

(** X22.  A text is taken for an artifact when, in lower case, it
    holds three times in a row, with white space between, the same
    word of two to six characters, or the same two words of equal
    length, two to six characters each. *)
Theorem repeated_unit_is_an_artifact
        (text before unit b1 b2 after : str) (n : nat) :
  str_lower text = before ++ unit ++ b1 ++ unit ++ b2 ++ unit ++ after ->
  2 <= n <= 6 -> syllable_unit n unit -> blank b1 = true -> blank b2 = true ->
  detect_repetition_artifacts text = true.
Proof.
  intros Hl Hn Hunit Hb1 Hb2.
  unfold detect_repetition_artifacts, detect_repetition_artifacts_with. cbv zeta.
  destruct (search no_flags (compile "(.)\1{5,}") (str_lower text)); [reflexivity|].
  match goal with |- (if ?c then _ else _) = _ => destruct c end; [reflexivity|].
  assert (Hs : existsb (fun pattern_len =>
                          search no_flags (syllable_pattern pattern_len) (str_lower text))
                       (List.seq 2 5) = true).
  { apply existsb_exists. exists n. split; [apply in_seq; lia|].
    rewrite (syllable_pattern_compiles n Hn), Hl.
    apply syllable_found; [lia | assumption..]. }
  rewrite Hs. reflexivity.
Qed.

End SyllableCheck.

Module SqueezeFacts.
Import Re ReFacts ScanFacts CleanFacts RunFacts.

Lemma squeeze_spaces b s c :
  In c (squeeze_from b s) -> isspace c = true -> c = SP.
Proof.
  revert b. induction s as [|x s IH]; intros b; simpl; [intros []|].
  destruct (isspace x) eqn:E.
  - destruct b; [apply IH|]. intros [<- | H] Hc; [reflexivity | exact (IH true H Hc)].
  - intros [<- | H] Hc; [congruence | exact (IH false H Hc)].
Qed.

Lemma squeeze_single s : forall b,
  (forall a r, squeeze_from b s <> a ++ SP :: SP :: r)
  /\ (b = true -> forall r, squeeze_from b s <> SP :: r).
Proof.
  induction s as [|x s IH]; intros b; simpl.
  - split; [intros [|? ?] r; discriminate | intros _ r; discriminate].
  - destruct (isspace x) eqn:E.
    + destruct b.
      * apply IH.
      * destruct (IH true) as [IH1 IH2]. split; [|discriminate].
        intros [|y a] r H; simpl in H.
        -- injection H as H. exact (IH2 eq_refl r H).
        -- injection H as _ H. exact (IH1 a r H).
    + destruct (IH false) as [IH1 _]. split.
      * intros [|y a] r H; simpl in H.
        -- injection H as Hx _. subst x. discriminate.
        -- injection H as _ H. exact (IH1 a r H).
      * intros _ r H. injection H as Hx _. subst x. discriminate.
Qed.

Lemma squeeze_run run t :
  forallb isspace run = true -> squeeze_from true (run ++ t) = squeeze_from true t.
Proof.
  induction run as [|c run IH]; simpl; [reflexivity|].
  intros H. apply andb_true_iff in H as [Hc H]. rewrite Hc. now apply IH.
Qed.

Lemma squeeze_after t :
  match t with [] => True | c :: _ => isspace c = false end ->
  squeeze_from true t = squeeze_from false t.
Proof. destruct t as [|c t]; [reflexivity|]. simpl. now intros ->. Qed.

(** A text is a run of white space followed by a text that does not
    start with white space. *)
Lemma blank_split s :
  exists run t,
    s = run ++ t /\ forallb isspace run = true
    /\ match t with [] => True | c :: _ => isspace c = false end.
Proof.
  induction s as [|c s (run & t & -> & Hr & Ht)].
  - exists [], []. repeat split.
  - destruct (isspace c) eqn:E.
    + exists (c :: run), t. simpl. rewrite E. repeat split; assumption.
    + exists [], (c :: run ++ t). repeat split. exact E.
Qed.

Section Facts.
Context {U : UnicodeDB}.

(** The greedy repetition of one class first goes over all of the
    run ahead. *)
Lemma rep_go_head (ok : char -> bool) :
  forall run fuel lo st t,
    rest st = run ++ t -> forallb ok run = true ->
    match t with [] => True | c :: _ => ok c = false end ->
    lo <= length run -> length run < fuel ->
    exists tl, rep_go (fun st => one st ok) true fuel lo None st = moved st run t :: tl.
Proof.
  induction run as [|c run IH]; intros fuel lo st t Hrest Hok Ht Hlo Hfuel.
  - destruct fuel as [|fuel]; [simpl in Hfuel; lia|].
    assert (lo = 0) by (simpl in Hlo; lia). subst lo.
    cbn [rep_go]. change (0 =? 0) with true. cbv iota.
    assert (Hone : one st ok = []).
    { unfold one. simpl in Hrest. rewrite Hrest. destruct t as [|x t]; [reflexivity|].
      now rewrite Ht. }
    rewrite Hone. simpl. exists []. f_equal.
    destruct st as [p r cs]. unfold moved, prev_after. simpl in *. now subst r.
  - destruct fuel as [|fuel]; [simpl in Hfuel; lia|].
    simpl in Hok. apply andb_true_iff in Hok as [Hc Hok].
    cbn [rep_go].
    assert (Hone : one st ok = [moved st [c] (run ++ t)]).
    { unfold one. rewrite Hrest. simpl. now rewrite Hc. }
    rewrite Hone. cbn [flat_map]. cbn [rest moved].
    assert (Hshort : (length (run ++ t) <? length (rest st)) = true).
    { apply Nat.ltb_lt. rewrite Hrest. simpl. lia. }
    rewrite Hshort. simpl orb. cbv iota.
    destruct (IH fuel (pred lo) (moved st [c] (run ++ t)) t eq_refl Hok Ht
                 ltac:(simpl in Hlo; lia) ltac:(simpl in Hfuel; lia)) as [tl E].
    cbn [option_map]. rewrite E, SyllableFacts.moved_moved. simpl. eexists. reflexivity.
Qed.

Lemma rep_go_stuck (body : mstate -> list mstate) greedy fuel lo hi st :
  body st = [] -> 1 <= lo -> rep_go body greedy fuel lo hi st = [].
Proof.
  intros Hb Hlo. destruct fuel as [|fuel]; [reflexivity|]. cbn [rep_go]. rewrite Hb.
  assert (E : (lo =? 0) = false) by (apply Nat.eqb_neq; lia). rewrite E.
  destruct greedy, hi as [[|h]|]; reflexivity.
Qed.

Lemma compile_blanks : compile "\s+" = Rep 1 None true (CSet false [CSpace]).
Proof. vm_compute. reflexivity. Qed.

Lemma blank_class_is_space c :
  xorb false (set_match no_flags [CSpace] c) = isspace c.
Proof.
  unfold set_match. cbn [existsb ignorecase no_flags item_match]. now destruct (isspace c).
Qed.

(** Where a text starts with white space, [\s+] matches all of the
    white space; elsewhere it does not match. *)
Lemma blanks_match_here p s adv :
  forall run t,
    s = run ++ t -> forallb isspace run = true ->
    match t with [] => True | c :: _ => isspace c = false end ->
    match_here no_flags (Rep 1 None true (CSet false [CSpace])) p s adv
    = match run with
      | [] => None
      | _ => Some (moved {| prev := p; rest := s; caps := [] |} run t)
      end.
Proof.
  intros run t Hs Hrun Ht. unfold match_here. cbv zeta. cbn [rmatch].
  set (st := {| prev := p; rest := s; caps := [] |}).
  set (ok := fun c => xorb false (set_match no_flags [CSpace] c)).
  destruct run as [|c run].
  - rewrite rep_go_stuck; [reflexivity | | lia].
    unfold one. simpl. simpl in Hs. subst s. destruct t as [|x t]; [reflexivity|].
    unfold ok. now rewrite blank_class_is_space, Ht.
  - destruct (rep_go_head ok (c :: run) (S (1 + length (rest st))) 1 st t) as [tl E].
    + exact Hs.
    + rewrite (forallb_same ok isspace (c :: run)); [exact Hrun|].
      intros x. apply blank_class_is_space.
    + destruct t as [|x t]; [exact I|]. unfold ok. now rewrite blank_class_is_space.
    + simpl. lia.
    + simpl. rewrite Hs, length_app. simpl. lia.
    + fold ok. rewrite E. cbn [filter].
      assert (Hk : (length (rest (moved st (c :: run) t)) <? length s) = true).
      { apply Nat.ltb_lt. rewrite Hs, length_app. simpl. lia. }
      rewrite Hk, orb_true_r. reflexivity.
Qed.

(** Substituting a space for [\s+] squeezes the white space. *)
Lemma scan_blanks fuel :
  forall p s pos adv,
    2 * length s + 2 <= fuel ->
    flat_map (render (fun _ => u " "))
             (scan fuel no_flags (Rep 1 None true (CSet false [CSpace])) p s pos adv)
    = squeeze_from false s.
Proof.
  induction fuel as [|fuel IH]; intros p s pos adv Hf; [lia|].
  destruct (blank_split s) as (run & t & Hs & Hrun & Ht).
  cbn [scan]. rewrite (blanks_match_here p s adv run t Hs Hrun Ht).
  destruct run as [|c run].
  - simpl in Hs. subst s. destruct t as [|x t]; [reflexivity|].
    cbn [flat_map render squeeze_from]. rewrite Ht. simpl. f_equal.
    apply IH. simpl in Hf. lia.
  - cbn [rest moved].
    assert (Hn : length s - length t = length (c :: run))
      by (rewrite Hs, length_app; lia).
    rewrite Hn. cbn [length Nat.eqb flat_map render].
    rewrite IH by (rewrite Hs, length_app in Hf; simpl in Hf; lia).
    rewrite Hs. cbn [app squeeze_from]. simpl in Hrun.
    apply andb_true_iff in Hrun as [Hc Hrun]. rewrite Hc.
    rewrite (squeeze_run run t Hrun), (squeeze_after t Ht). reflexivity.
Qed.

Lemma sub_blanks s :
  sub no_flags (compile "\s+") (fun _ => u " ") s = squeeze_from false s.
Proof. rewrite compile_blanks. unfold sub, pieces. apply scan_blanks. lia. Qed.

End Facts.
End SqueezeFacts.

Section NormalizerMore.
Context {U : UnicodeDB} {T : Re.Templates}.
Import Re SqueezeFacts TextNormalizer.

Lemma normalized_is_squeezed pronunciations text out :
  normalize_with pronunciations text = Ok out ->
  exists result,
    substitute_all pronunciations (sorted_terms pronunciations) text = Ok result
    /\ out = squeeze_from false result.
Proof.
  unfold normalize_with.
  destruct (substitute_all pronunciations (sorted_terms pronunciations) text)
    as [result|]; [|discriminate].
  intros H. injection H as <-. exists result. split; [reflexivity | apply sub_blanks].
Qed.

Lemma dict_get_in (d : dict str) k p : dict_get d k = Some p -> exists k', In (k', p) d.
Proof.
  induction d as [|[k0 p0] d IH]; simpl; [discriminate|].
  destruct (str_beq k0 k).
  - intros H. injection H as <-. exists k0. now left.
  - intros H. destruct (IH H) as [k' Hin]. exists k'. now right.
Qed.

Lemma shipped_tables_hold_no_template language k (p : str) :
  dict_get (pronunciations_for language) k = Some p ->
  existsb (N.eqb backslash) p = false.
Proof.
  intros H. apply dict_get_in in H as [k' Hin].
  assert (Hall : forallb (fun kp : str * str => negb (existsb (N.eqb backslash) (snd kp)))
                         (pronunciations_for language) = true).
  { unfold pronunciations_for. destruct (str_beq language (u "pl"));
      vm_compute; reflexivity. }
  rewrite forallb_forall in Hall. specialize (Hall _ Hin). simpl in Hall.
  now apply negb_true_iff in Hall.
Qed.

(** X23.  In a text that [normalize_text_for_tts] returns, the only
    white space is the space, and no two spaces stand side by side:
    tabs and line breaks of the input have become spaces.  This
    holds for every language and every state of the tables.  On the
    tables as the module defines them the function returns for every
    text: none of their pronunciations is a template. *)
Theorem normalized_text_is_single_spaced (g : tables) (text language out : str) :
  normalize_text_for_tts_in g text language = Ok out ->
  (forall c, In c out -> isspace c = true -> c = SP)
  /\ (forall a r, out <> a ++ SP :: SP :: r)
  /\ normalize_text_for_tts text language
     = normalize_text_for_tts_in initial_tables text language
  /\ exists shipped, normalize_text_for_tts text language = Ok shipped.
Proof.
  unfold normalize_text_for_tts_in. intros H.
  apply normalized_is_squeezed in H as (result & _ & ->).
  split; [|split; [|split]].
  - intros c. apply squeeze_spaces.
  - apply squeeze_single.
  - reflexivity.
  - unfold normalize_text_for_tts, normalize_with.
    destruct (substitute_all_returns (pronunciations_for language)
                (sorted_terms (pronunciations_for language))
                (shipped_tables_hold_no_template language) text) as [shipped ->].
    eexists. reflexivity.
Qed.

End NormalizerMore.

Module ParseFacts.
Import Re ReFacts ScanFacts CleanFacts RunFacts StrFacts TrimFacts.

Section Facts.
Context {U : UnicodeDB}.

(** A match of a scan is found at some place of the subject. *)
Lemma scan_hit_at fl r fuel :
  forall p s pos adv m,
    In (Hit m) (scan fuel fl r p s pos adv) ->
    exists a p0 s0 st',
      s = a ++ s0 /\ In st' (rmatch fl r {| prev := p0; rest := s0; caps := [] |}).
Proof.
  induction fuel as [|fuel IH]; intros p s pos adv m; simpl; [intros []|].
  destruct (match_here fl r p s adv) as [st'|] eqn:E.
  - pose proof E as E1. apply match_here_text in E1 as [Hs _].
    pose proof E as E2. apply match_here_spec in E2 as [Hin _].
    intros [H|H].
    + exists [], p, s, st'. split; [reflexivity | exact Hin].
    + destruct (length s - length (rest st') =? 0).
      * apply IH in H. exact H.
      * apply IH in H as (a & p0 & s0 & st0 & Ha & H0).
        exists (firstn (length s - length (rest st')) s ++ a), p0, s0, st0.
        split; [|exact H0]. rewrite <- app_assoc, <- Ha. exact Hs.
  - destruct s as [|c t]; [intros []|].
    intros [H|H]; [discriminate|].
    apply IH in H as (a & p0 & s0 & st0 & Ha & H0).
    exists (c :: a), p0, s0, st0. split; [simpl; now rewrite Ha | exact H0].
Qed.

(** A pattern of which every match has a certain character ahead
    finds nothing in a text without that character. *)
Lemma nothing_found fl r x s :
  (forall st st', In st' (rmatch fl r st) -> In x (rest st)) ->
  ~ In x s -> finditer fl r s = [].
Proof.
  intros Hneeds Hs. destruct (finditer fl r s) as [|m l] eqn:E; [reflexivity|].
  exfalso. assert (Hm : In m (finditer fl r s)) by (rewrite E; now left).
  unfold finditer, pieces in Hm. rewrite in_hits in Hm.
  apply scan_hit_at in Hm as (a & p0 & s0 & st' & Ha & Hin).
  apply Hneeds in Hin. simpl in Hin. apply Hs. rewrite Ha. apply in_or_app. now right.
Qed.

Lemma lit_ahead x st st' :
  In st' (rmatch no_flags (Lit x) st) -> exists t, rest st = x :: t.
Proof.
  cbn [rmatch]. unfold one. destruct (rest st) as [|c t]; [intros []|].
  unfold lit_match. simpl. destruct (N.eqb_spec c x) as [->|]; [now exists t | intros []].
Qed.

Lemma seq_ahead fl a b x :
  (forall st st', In st' (rmatch fl a st) -> In x (rest st)) ->
  forall st st', In st' (rmatch fl (Seq a b) st) -> In x (rest st).
Proof.
  intros Ha st st' H. cbn [rmatch] in H. apply in_flat_map in H as (st1 & H1 & _).
  now apply Ha in H1.
Qed.

Lemma lit_needed x st st' : In st' (rmatch no_flags (Lit x) st) -> In x (rest st).
Proof. intros H. apply lit_ahead in H as [t ->]. now left. Qed.

Lemma run_needed x lo hi greedy st st' :
  1 <= lo -> In st' (rmatch no_flags (Rep lo hi greedy (Lit x)) st) -> In x (rest st).
Proof. intros Hlo H. apply run_starts in H as [t ->]; [now left | exact Hlo]. Qed.

Lemma no_bold_tag s :
  ~ In 42%N s -> TextNormalizer.remove no_flags "\*\*\[.*?\]\*\*" s = s.
Proof.
  intros Hs. apply finditer_nil_sub. apply nothing_found with (x := 42%N); [|exact Hs].
  change (compile "\*\*\[.*?\]\*\*")
    with (Seq (Lit 42%N)
              (Seq (Lit 42%N)
                   (Seq (Lit 91%N)
                        (Seq (Rep 0 None false Dot)
                             (Seq (Lit 93%N) (Seq (Lit 42%N) (Lit 42%N))))))).
  apply seq_ahead. apply lit_needed.
Qed.

Lemma no_bold s : ~ In 42%N s -> TextNormalizer.remove no_flags "\*\*" s = s.
Proof.
  intros Hs. apply finditer_nil_sub. apply nothing_found with (x := 42%N); [|exact Hs].
  change (compile "\*\*") with (Seq (Lit 42%N) (Lit 42%N)).
  apply seq_ahead. apply lit_needed.
Qed.

Lemma no_leading_stars s : ~ In 42%N s -> TextNormalizer.remove no_flags "^\*+\s*" s = s.
Proof.
  intros Hs. apply finditer_nil_sub. apply nothing_found with (x := 42%N); [|exact Hs].
  change (compile "^\*+\s*")
    with (Seq Bol (Seq (Rep 1 None true (Lit 42%N))
                       (Rep 0 None true (CSet false [CSpace])))).
  intros st st' H. cbn [rmatch] in H. apply in_flat_map in H as (st1 & H1 & H2).
  destruct (at_bol no_flags st); [|destruct H1]. destruct H1 as [<-|[]].
  apply in_flat_map in H2 as (st2 & H2 & _).
  apply (run_needed 42%N 1 None true st st2); [lia | exact H2].
Qed.

Lemma no_trailing_stars s : ~ In 42%N s -> TextNormalizer.remove no_flags "\s*\*+$" s = s.
Proof.
  intros Hs. apply finditer_nil_sub. apply nothing_found with (x := 42%N); [|exact Hs].
  change (compile "\s*\*+$")
    with (Seq (Rep 0 None true (CSet false [CSpace]))
              (Seq (Rep 1 None true (Lit 42%N)) Eol)).
  intros st st' H. change (rmatch no_flags (Seq ?a ?b) st) with
      (flat_map (rmatch no_flags b) (rmatch no_flags a st)) in H.
  apply in_flat_map in H as (st1 & H1 & H2).
  apply rmatch_reaches in H1 as (pre & Hp & _). rewrite Hp. apply in_or_app. right.
  change (rmatch no_flags (Seq ?a ?b) st1) with
      (flat_map (rmatch no_flags b) (rmatch no_flags a st1)) in H2.
  apply in_flat_map in H2 as (st2 & H2 & _).
  apply (run_needed 42%N 1 None true st1 st2); [lia | exact H2].
Qed.

Lemma starts_app s x : starts_nonws s -> starts_nonws (s ++ x).
Proof. intros (c & t & -> & Hc). now exists c, (t ++ x). Qed.

(** The cleanup leaves a plain text as it is. *)
Lemma plain_text_is_clean t sep :
  plain_text t -> sep = [] \/ sep = [LF; LF] ->
  ScriptGenerator.clean_match_text (t ++ sep) = t.
Proof.
  intros (Htrim & Hlen & _ & Hstar & Hverb) Hsep.
  change (chr "*") with 42%N in Hstar.
  assert (Hstrip : strip (t ++ sep) = t).
  { destruct Hsep as [-> | ->]; [now rewrite app_nil_r|].
    destruct (trimmed_cases t Htrim) as [-> | [Hs (a & c & -> & Hc)]];
      [unfold len in Hlen; simpl in Hlen; lia|].
    unfold strip. rewrite lstrip_starts by (apply starts_app; exact Hs).
    unfold rstrip. rewrite !rev_app_distr. simpl. rewrite Hc. simpl.
    now rewrite rev_involutive. }
  unfold ScriptGenerator.clean_match_text. cbv zeta. rewrite Hstrip.
  rewrite (no_bold_tag t Hstar), Htrim, (no_bold t Hstar), Htrim,
          (no_leading_stars t Hstar), Htrim, (no_trailing_stars t Hstar), Htrim.
  apply finditer_nil_sub. unfold search in Hverb.
  destruct (finditer no_flags _ t); [reflexivity | discriminate].
Qed.

End Facts.
End ParseFacts.

Module HeadFacts.
Import Re ReFacts ScanFacts CleanFacts RunFacts SyllableFacts SqueezeFacts.

Section Facts.
Context {U : UnicodeDB}.

Lemma first_seq fl a b st st1 st2 :
  first_is (rmatch fl a st) st1 -> first_is (rmatch fl b st1) st2 ->
  first_is (rmatch fl (Seq a b) st) st2.
Proof.
  intros [t1 E1] [t2 E2]. cbn [rmatch]. rewrite E1. cbn [flat_map]. rewrite E2.
  eexists. reflexivity.
Qed.

Lemma first_lit x st t :
  rest st = x :: t -> first_is (rmatch DOTALL (Lit x) st) (moved st [x] t).
Proof.
  intros Hr. cbn [rmatch]. unfold one. rewrite Hr. unfold lit_match.
  cbn [ignorecase DOTALL]. rewrite N.eqb_refl. exists []. reflexivity.
Qed.

Lemma lit_fails x st c t :
  rest st = c :: t -> c <> x -> rmatch DOTALL (Lit x) st = [].
Proof.
  intros Hr Hc. cbn [rmatch]. unfold one. rewrite Hr. unfold lit_match.
  cbn [ignorecase DOTALL]. apply N.eqb_neq in Hc. now rewrite Hc.
Qed.

Lemma lit_fails_at_end x st : rest st = [] -> rmatch DOTALL (Lit x) st = [].
Proof. intros Hr. cbn [rmatch]. unfold one. now rewrite Hr. Qed.

Lemma first_lits w : forall st t,
  w <> [] -> rest st = w ++ t -> first_is (rmatch DOTALL (lits w) st) (moved st w t).
Proof.
  induction w as [|c w IH]; intros st t Hw Hr; [contradiction|].
  destruct w as [|c2 w].
  - cbn [lits]. now apply first_lit.
  - change (lits (c :: c2 :: w)) with (Seq (Lit c) (lits (c2 :: w))).
    apply first_seq with (st1 := moved st [c] ((c2 :: w) ++ t)).
    + now apply first_lit.
    + replace (moved st (c :: c2 :: w) t)
        with (moved (moved st [c] ((c2 :: w) ++ t)) (c2 :: w) t) by reflexivity.
      apply IH; [discriminate | reflexivity].
Qed.

Lemma lits_fail x w st c t :
  rest st = c :: t -> c <> x -> rmatch DOTALL (lits (x :: w)) st = [].
Proof.
  intros Hr Hc. destruct w as [|y w].
  - cbn [lits]. now apply (lit_fails x st c t).
  - change (lits (x :: y :: w)) with (Seq (Lit x) (lits (y :: w))).
    cbn [rmatch]. change (one st (lit_match DOTALL x)) with (rmatch DOTALL (Lit x) st).
    now rewrite (lit_fails x st c t Hr Hc).
Qed.

Lemma first_alt_l fl a b st x :
  first_is (rmatch fl a st) x -> first_is (rmatch fl (Alt a b) st) x.
Proof. intros [tl E]. cbn [rmatch]. rewrite E. eexists. reflexivity. Qed.

Lemma first_alt_r fl a b st x :
  rmatch fl a st = [] -> first_is (rmatch fl b st) x ->
  first_is (rmatch fl (Alt a b) st) x.
Proof. intros Ea [tl E]. cbn [rmatch]. rewrite Ea, E. eexists. reflexivity. Qed.

Lemma first_group fl n a st st1 :
  first_is (rmatch fl a st) st1 ->
  first_is (rmatch fl (Group n a) st) (set_cap n st st1).
Proof. intros [tl E]. cbn [rmatch]. rewrite E. eexists. reflexivity. Qed.

(** The name of a tag. *)
Lemma first_name sp st t :
  rest st = tag_name sp ++ t ->
  first_is (rmatch DOTALL (Alt (lits (u "HOST")) (lits (u "CO-HOST"))) st)
           (moved st (tag_name sp) t).
Proof.
  intros Hr. destruct sp.
  - apply first_alt_l. apply first_lits; [discriminate | exact Hr].
  - apply first_alt_r.
    + apply (lits_fail 72%N _ st 67%N (skipn 1 (u "CO-HOST") ++ t)); [exact Hr | discriminate].
    + apply first_lits; [discriminate | exact Hr].
Qed.

Lemma same_state st : {| prev := prev st; rest := rest st; caps := caps st |} = st.
Proof. now destruct st. Qed.

(** The lookahead of the pattern holds before a tag and at the end
    of the text, and fails before any other character. *)
Lemma ahead_at_tag sp st t :
  rest st = [91%N] ++ tag_name sp ++ [93%N] ++ t ->
  rmatch DOTALL
         (Ahead (Alt (Seq (Lit 91%N)
                          (Seq (Alt (lits (u "HOST")) (lits (u "CO-HOST"))) (Lit 93%N)))
                     Eol)) st
  = [st].
Proof.
  intros Hr.
  assert (H : first_is
                (rmatch DOTALL
                        (Alt (Seq (Lit 91%N)
                                  (Seq (Alt (lits (u "HOST")) (lits (u "CO-HOST")))
                                       (Lit 93%N)))
                             Eol) st)
                (moved (moved (moved st [91%N] (tag_name sp ++ [93%N] ++ t))
                              (tag_name sp) ([93%N] ++ t))
                       [93%N] t)).
  { apply first_alt_l.
    apply first_seq with (st1 := moved st [91%N] (tag_name sp ++ [93%N] ++ t));
      [now apply first_lit|].
    apply first_seq
      with (st1 := moved (moved st [91%N] (tag_name sp ++ [93%N] ++ t))
                         (tag_name sp) ([93%N] ++ t)).
    - now apply first_name.
    - now apply first_lit. }
  destruct H as [tl E].
  change (rmatch DOTALL (Ahead ?a) st)
    with (match rmatch DOTALL a st with
          | [] => []
          | st1 :: _ => [{| prev := prev st; rest := rest st; caps := caps st1 |}]
          end).
  rewrite E. cbn [caps moved]. now rewrite same_state.
Qed.

Lemma ahead_at_end st :
  rest st = [] ->
  rmatch DOTALL
         (Ahead (Alt (Seq (Lit 91%N)
                          (Seq (Alt (lits (u "HOST")) (lits (u "CO-HOST"))) (Lit 93%N)))
                     Eol)) st
  = [st].
Proof.
  intros Hr. destruct st as [p r cs]. simpl in Hr. subst r. reflexivity.
Qed.

Lemma ahead_fails st c t :
  rest st = c :: t -> c <> 91%N -> (c = LF -> t <> []) ->
  rmatch DOTALL
         (Ahead (Alt (Seq (Lit 91%N)
                          (Seq (Alt (lits (u "HOST")) (lits (u "CO-HOST"))) (Lit 93%N)))
                     Eol)) st
  = [].
Proof.
  intros Hr Hc Hlf.
  change (rmatch DOTALL (Ahead (Alt (Seq (Lit 91%N) ?b) Eol)) st)
    with (match flat_map (rmatch DOTALL b) (rmatch DOTALL (Lit 91%N) st)
                ++ (if at_eol DOTALL st then [st] else []) with
          | [] => []
          | st1 :: _ => [{| prev := prev st; rest := rest st; caps := caps st1 |}]
          end).
  rewrite (lit_fails 91%N st c t Hr Hc).
  assert (E : at_eol DOTALL st = false).
  { unfold at_eol. rewrite Hr. cbn [multiline DOTALL orb].
    destruct (N.eqb_spec c LF) as [E|E]; [|reflexivity].
    destruct t; [now specialize (Hlf E) | reflexivity]. }
  rewrite E. reflexivity.
Qed.

(** A lazy repetition of the dot stops at the first place where
    what follows matches. *)
Lemma lazy_dot_first (cont : mstate -> list mstate) y :
  forall run fuel st t,
    rest st = run ++ t ->
    (forall pre post, run = pre ++ post -> post <> [] ->
                      cont (moved st pre (post ++ t)) = []) ->
    first_is (cont (moved st run t)) y ->
    length run < fuel ->
    first_is (flat_map cont (rep_go (rmatch DOTALL Dot) false fuel 0 None st)) y.
Proof.
  induction run as [|c run IH]; intros fuel st t Hr Hfail Hlast Hfuel.
  - destruct fuel as [|fuel]; [simpl in Hfuel; lia|].
    cbn [rep_go]. change (0 =? 0) with true. cbv iota. cbn [app flat_map].
    assert (E : moved st [] t = st).
    { destruct st as [p r cs]. unfold moved, prev_after. simpl in *. now subst r. }
    rewrite E in Hlast. destruct Hlast as [tl ->]. eexists. reflexivity.
  - destruct fuel as [|fuel]; [simpl in Hfuel; lia|].
    cbn [rep_go]. change (0 =? 0) with true. cbv iota. cbn [app flat_map].
    assert (E0 : cont st = []).
    { specialize (Hfail [] (c :: run) eq_refl ltac:(discriminate)).
      assert (E : moved st [] ((c :: run) ++ t) = st).
      { destruct st as [p r cs]. unfold moved, prev_after. simpl in *. now subst r. }
      now rewrite E in Hfail. }
    rewrite E0. cbn [app].
    assert (Hdot : rmatch DOTALL Dot st = [moved st [c] (run ++ t)]).
    { cbn [rmatch]. unfold one. rewrite Hr. reflexivity. }
    rewrite Hdot. cbn [flat_map].
    assert (Hshort : (length (rest (moved st [c] (run ++ t))) <? length (rest st)) = true).
    { apply Nat.ltb_lt. rewrite Hr. simpl. lia. }
    rewrite Hshort. cbn [orb pred option_map]. rewrite app_nil_r.
    apply (IH fuel (moved st [c] (run ++ t)) t).
    + reflexivity.
    + intros pre post Hrun Hpost. rewrite moved_moved.
      apply (Hfail (c :: pre) post); [simpl; now rewrite Hrun | exact Hpost].
    + now rewrite moved_moved.
    + simpl in Hfuel. lia.
Qed.

Lemma flat_map_map {A B C} (f : B -> list C) (g : A -> B) (l : list A) :
  flat_map f (map g l) = flat_map (fun x => f (g x)) l.
Proof. induction l as [|x l IH]; simpl; [reflexivity|]. now rewrite IH. Qed.

(** The group of a lazy text and the lookahead after it. *)
Lemma first_text n ahead st run t y :
  run <> [] -> rest st = run ++ t ->
  (forall pre post, run = pre ++ post -> pre <> [] -> post <> [] ->
                    rmatch DOTALL ahead (set_cap n st (moved st pre (post ++ t))) = []) ->
  first_is (rmatch DOTALL ahead (set_cap n st (moved st run t))) y ->
  first_is (rmatch DOTALL (Seq (Group n (Rep 1 None false Dot)) ahead) st) y.
Proof.
  intros Hrun Hr Hfail Hlast.
  destruct run as [|c run]; [contradiction|].
  change (rmatch DOTALL (Seq (Group n (Rep 1 None false Dot)) ahead) st)
    with (flat_map (rmatch DOTALL ahead)
                   (map (set_cap n st)
                        (rep_go (rmatch DOTALL Dot) false
                                (S (1 + length (rest st))) 1 None st))).
  rewrite flat_map_map. cbn [rep_go]. change (1 =? 0) with false. cbv iota. cbn [app].
  assert (Hdot : rmatch DOTALL Dot st = [moved st [c] (run ++ t)]).
  { cbn [rmatch]. unfold one. rewrite Hr. reflexivity. }
  rewrite Hdot. cbn [flat_map].
  assert (Hshort : (length (rest (moved st [c] (run ++ t))) <? length (rest st)) = true).
  { apply Nat.ltb_lt. rewrite Hr. simpl. lia. }
  rewrite Hshort. cbn [orb pred option_map]. rewrite app_nil_r.
  assert (Hcap : forall pre s1,
             set_cap n st (moved (moved st [c] (run ++ t)) pre s1)
             = set_cap n st (moved st (c :: pre) s1)).
  { intros pre s1. now rewrite moved_moved. }
  apply (lazy_dot_first (fun x => rmatch DOTALL ahead (set_cap n st x)) y run
                        (1 + length (rest st)) (moved st [c] (run ++ t)) t).
  - reflexivity.
  - intros pre post Hp Hpost. rewrite Hcap.
    apply (Hfail (c :: pre) post); [simpl; now rewrite Hp | discriminate | exact Hpost].
  - now rewrite Hcap.
  - rewrite Hr. simpl. rewrite length_app. lia.
Qed.

End Facts.
End HeadFacts.

Module RoundTripFacts.
Import Re ReFacts ScanFacts CleanFacts RunFacts SyllableFacts SqueezeFacts.
Import StrFacts TrimFacts ParseFacts HeadFacts.
Import Models ScriptGenerator.

Section Facts.
Context {U : UnicodeDB}.

Lemma bracket_pattern_compiles : bracket_pattern = bracket_regex.
Proof. vm_compute. reflexivity. Qed.

Lemma match_here_first fl r p s st' :
  first_is (rmatch fl r {| prev := p; rest := s; caps := [] |}) st' ->
  match_here fl r p s false = Some st'.
Proof. intros [tl E]. unfold match_here. cbv zeta. rewrite E. reflexivity. Qed.

Lemma plain_text_ends t : plain_text t -> starts_nonws t /\ ends_nonws t.
Proof.
  intros (Htrim & Hlen & _). destruct (trimmed_cases t Htrim) as [-> | H]; [|exact H].
  unfold len in Hlen. simpl in Hlen. lia.
Qed.

(** The pattern takes a line: its tag, and its text up to the next
    tag or the end. *)
Lemma line_match sp t sep tail p :
  plain_text t -> follows sep tail ->
  exists st',
    first_is (rmatch DOTALL bracket_regex
                     {| prev := p;
                        rest := [91%N] ++ tag_name sp ++ [93%N] ++ [SP] ++ t ++ sep ++ tail;
                        caps := [] |}) st'
    /\ rest st' = tail
    /\ caps st' = [(2, t ++ sep); (1, tag_name sp)].
Proof.
  intros Hplain Hfollows.
  destruct (plain_text_ends t Hplain) as [Hstart Hend].
  destruct Hplain as (Htrim & Hlen & Hbracket & _).
  change (chr "[") with 91%N in Hbracket.
  set (st0 := {| prev := p;
                 rest := [91%N] ++ tag_name sp ++ [93%N] ++ [SP] ++ t ++ sep ++ tail;
                 caps := [] |}).
  set (sta := moved st0 [91%N] (tag_name sp ++ [93%N] ++ [SP] ++ t ++ sep ++ tail)).
  set (stb := set_cap 1 sta (moved sta (tag_name sp) ([93%N] ++ [SP] ++ t ++ sep ++ tail))).
  set (stc := moved stb [93%N] ([SP] ++ t ++ sep ++ tail)).
  set (std := moved stc [SP] (t ++ sep ++ tail)).
  set (ste := set_cap 2 std (moved std (t ++ sep) tail)).
  assert (Hcapb : caps stb = [(1, tag_name sp)]).
  { unfold stb. rewrite set_cap_moved by reflexivity. reflexivity. }
  assert (Hrestd : rest std = (t ++ sep) ++ tail)
    by (unfold std; simpl; now rewrite app_assoc).
  exists ste. split; [|split].
  - unfold bracket_regex. cbv zeta.
    apply first_seq with (st1 := sta); [now apply first_lit|].
    apply first_seq with (st1 := stb); [apply first_group; now apply first_name|].
    apply first_seq with (st1 := stc);
      [apply first_lit; unfold stb; rewrite set_cap_moved by reflexivity; reflexivity|].
    apply first_seq with (st1 := std).
    + cbn [rmatch].
      destruct (rep_go_head (fun c => xorb false (set_match DOTALL [CSpace] c)) [SP]
                            (S (0 + length (rest stc))) 0 stc (t ++ sep ++ tail))
        as [tl E].
      * reflexivity.
      * reflexivity.
      * destruct Hstart as (c & t' & -> & Hc). cbn [app].
        unfold set_match. cbn [existsb ignorecase DOTALL item_match]. now rewrite Hc.
      * simpl. lia.
      * simpl. lia.
      * exists tl. exact E.
    + apply (first_text 2 _ std (t ++ sep) tail ste).
      * destruct Hstart as (c & t' & -> & _). discriminate.
      * exact Hrestd.
      * intros pre post Hsplit Hpre Hpost.
        destruct post as [|c post]; [contradiction|].
        apply (ahead_fails _ c (post ++ tail)).
        -- rewrite set_cap_moved by (rewrite Hrestd, Hsplit, <- app_assoc; reflexivity).
           reflexivity.
        -- intros ->. assert (Hin : In 91%N (t ++ sep)).
           { rewrite Hsplit. apply in_or_app. right. now left. }
           apply in_app_or in Hin as [Hin | Hin]; [now apply Hbracket|].
           destruct Hfollows as [[-> _] | [-> _]]; simpl in Hin;
             [exact Hin | destruct Hin as [E | [E | []]]; discriminate].
        -- intros -> Hnil. apply app_eq_nil in Hnil as [-> ->].
           destruct Hfollows as [[-> _] | [_ (sp' & more & E)]]; [|discriminate].
           rewrite app_nil_r in Hsplit. destruct Hend as (a & c & E & Hc).
           rewrite E in Hsplit. apply app_inj_tail in Hsplit as [_ ->]. discriminate.
      * unfold ste. destruct Hfollows as [[_ ->] | [_ (sp' & more & ->)]].
        -- rewrite ahead_at_end; [eexists; reflexivity|].
           rewrite set_cap_moved by (rewrite Hrestd; reflexivity). reflexivity.
        -- rewrite (ahead_at_tag sp' _ more); [eexists; reflexivity|].
           rewrite set_cap_moved by (rewrite Hrestd; reflexivity). reflexivity.
  - unfold ste. rewrite set_cap_moved by exact Hrestd. reflexivity.
  - unfold ste. rewrite set_cap_moved by exact Hrestd. cbn [caps].
    f_equal. exact Hcapb.
Qed.

Lemma scan_nothing fuel p pos adv : scan fuel DOTALL bracket_regex p [] pos adv = [].
Proof. destruct fuel; reflexivity. Qed.

Lemma speaker_of_tag sp :
  (if str_beq (tag_name sp) (u "HOST") then HOST else CO_HOST) = sp.
Proof. now destruct sp. Qed.

Lemma segment_of_line sp t sep rest_matches :
  plain_text t -> sep = [] \/ sep = [LF; LF] ->
  segments_of_matches ((tag_name sp, t ++ sep) :: rest_matches)
  = new_segment sp t :: segments_of_matches rest_matches.
Proof.
  intros Hplain Hsep. unfold segments_of_matches. cbn [flat_map].
  rewrite (plain_text_is_clean t sep Hplain Hsep), speaker_of_tag.
  destruct Hplain as (_ & Hlen & _).
  assert (E : (10 <? len t)%Z = true) by now apply Z.ltb_lt.
  rewrite E. destruct t; [unfold len in Hlen; simpl in Hlen; lia | reflexivity].
Qed.

Lemma script_line_starts segment more :
  exists sp tl, script_line segment ++ more = [91%N] ++ tag_name sp ++ [93%N] ++ tl.
Proof.
  exists (speaker segment), ([SP] ++ text segment ++ more).
  unfold script_line. now rewrite <- !app_assoc.
Qed.

(** The scan of a rendered script finds its lines one by one. *)
Lemma scan_script segments :
  forall fuel p pos,
    Forall (fun segment => plain_text (text segment)) segments ->
    length (join [LF; LF] (map script_line segments)) < fuel ->
    let found := hits (scan fuel DOTALL bracket_regex p
                            (join [LF; LF] (map script_line segments)) pos false) in
    segments_of_matches (map (fun m => (group m 1, group m 2)) found)
    = map (fun segment => new_segment (speaker segment) (text segment)) segments
    /\ (segments <> [] -> found <> []).
Proof.
  induction segments as [|segment segments IH]; intros fuel p pos Hplain Hfuel; cbv zeta.
  - cbn [map join]. rewrite scan_nothing. split; [reflexivity | congruence].
  - apply Forall_cons_iff in Hplain as [Hplain Hrest].
    set (sep := match segments with [] => [] | _ => [LF; LF] end).
    set (tail := join [LF; LF] (map script_line segments)).
    assert (Hjoin : join [LF; LF] (map script_line (segment :: segments))
                    = [91%N] ++ tag_name (speaker segment) ++ [93%N] ++ [SP]
                      ++ text segment ++ sep ++ tail).
    { unfold sep, tail, script_line. destruct segments as [|s2 segments].
      - cbn [map join]. cbn [app]. now rewrite !app_nil_r.
      - cbn [map]. cbn [join]. cbn [app]. repeat rewrite <- app_assoc. reflexivity. }
    assert (Hfollows : follows sep tail).
    { unfold sep, tail. destruct segments as [|s2 segments]; [left; now split|].
      right. split; [reflexivity|]. cbn [map].
      destruct segments as [|s3 segments].
      - cbn [join]. destruct (script_line_starts s2 []) as (sp & tl & E).
        rewrite app_nil_r in E. now exists sp, tl.
      - cbn [join]. apply script_line_starts. }
    assert (Hsep : sep = [] \/ sep = [LF; LF])
      by (unfold sep; destruct segments; [now left | now right]).
    destruct (line_match (speaker segment) (text segment) sep tail p Hplain Hfollows)
      as (st' & Hfirst & Hrest' & Hcaps).
    rewrite Hjoin in *.
    destruct fuel as [|fuel]; [lia|]. cbn [scan].
    rewrite (match_here_first _ _ _ _ _ Hfirst). rewrite Hrest'.
    set (s := [91%N] ++ tag_name (speaker segment) ++ [93%N] ++ [SP]
              ++ text segment ++ sep ++ tail) in *.
    match goal with
    | |- context [Nat.eqb ?a 0] => destruct (Nat.eqb_spec a 0) as [Hz | _]
    end.
    { exfalso. unfold s in Hz. rewrite !length_app in Hz. cbn [length] in Hz. lia. }
    cbn [hits map]. rewrite Hcaps.
    split; [|discriminate].
    refine (eq_trans (segment_of_line (speaker segment) (text segment) sep _ Hplain Hsep) _).
    f_equal.
    apply IH; [exact Hrest|].
    fold tail. unfold s in Hfuel. rewrite !length_app in Hfuel. simpl in Hfuel. lia.
Qed.

End Facts.
End RoundTripFacts.

Section RoundTrip.
Context {U : UnicodeDB}.
Import Re Models ScriptGenerator RoundTripFacts.

Lemma raw_script_lines script :
  raw_script script = join [LF; LF] (map script_line (segments script)).
Proof.
  unfold raw_script. cbv zeta. f_equal. apply map_ext.
  intros segment. unfold script_line. now destruct (speaker segment).
Qed.

(** X24.  A script written out by [raw_script] is read back by
    [_parse_script]: when the texts of the segments are plain, the
    parser gives the segments of the script, with their speakers and
    texts and in their order, as new segments without audio. *)
Theorem rendered_script_parses_back (script : PodcastScript) :
  Forall (fun segment => plain_text (text segment)) (segments script) ->
  _parse_script (raw_script script)
  = map (fun segment => new_segment (speaker segment) (text segment)) (segments script).
Proof.
  intros Hplain. rewrite raw_script_lines.
  destruct (segments script) as [|segment segments] eqn:E; [reflexivity|].
  rewrite <- E in *.
  assert (Hne : Models.segments script <> []) by (rewrite E; discriminate).
  clear E segment segments.
  destruct (scan_script (Models.segments script)
                        (2 * length (join [LF; LF] (map script_line (Models.segments script))) + 2)
                        None 0 Hplain ltac:(lia)) as [Hsegments Hfound].
  specialize (Hfound Hne).
  assert (Hfinds : found_by (bracket_pattern, no_opts)
                            (join [LF; LF] (map script_line (Models.segments script)))
                   = hits (scan (2 * length (join [LF; LF] (map script_line (Models.segments script))) + 2)
                                DOTALL bracket_regex None
                                (join [LF; LF] (map script_line (Models.segments script))) 0 false)).
  { unfold found_by. cbn [multiline no_opts]. rewrite bracket_pattern_compiles. reflexivity. }
  unfold _parse_script, chosen_matches.
  rewrite first_found_bracket by (rewrite Hfinds; exact Hfound).
  rewrite Hfinds.
  destruct (hits _) as [|m ms] eqn:Em; [congruence|].
  cbn [map]. cbn [map] in Hsegments. exact Hsegments.
Qed.

End RoundTrip.

(** ** The properties at work *)

Ltac not_among :=
  let H := fresh in
  intros H; vm_compute in H;
  repeat (destruct H as [H | H]; [discriminate H|]); exact H.

Lemma script_is_first_reply_and_continuations_witness :
  exists r initial continuations,
    accepting_scenario [ScriptGenerator.ScriptRequest (u "pl") (u "wiadomosci")]
    = ScriptGenerator.Replies r
    /\ ScriptGenerator.status_code r = 200%Z
    /\ ScriptGenerator.content r = Some initial
    /\ repeat 97%N 500 ++ [LF; LF] ++ repeat 98%N 400
       = join [LF; LF] (initial :: continuations)
    /\ Forall (fun c => (300 <= len c)%Z) continuations
    /\ continuations_replied accepting_scenario polish_generator (u "wiadomosci")
                             [ScriptGenerator.ScriptRequest (u "pl") (u "wiadomosci")]
                             initial continuations
    /\ length continuations = 1
    /\ length continuations <= 1 <= length continuations + 1
    /\ 1 <= 3.
Proof.
  destruct (script_is_first_reply_and_continuations
              accepting_scenario polish_generator (u "wiadomosci") 800 3
              (repeat 97%N 500 ++ [LF; LF] ++ repeat 98%N 400) 1
              [ScriptGenerator.ScriptRequest (u "pl") (u "wiadomosci");
               ScriptGenerator.continuation_prompt polish_generator (u "wiadomosci")
                                                   (repeat 97%N 500)])
    as (r & initial & continuations & Hr & Hstatus & Hcontent & Hscript & Hlong
        & Hreplied & _ & Hdown & Hn & Hmax & _).
  { vm_compute. reflexivity. }
  exists r, initial, continuations.
  split; [exact Hr|]. split; [exact Hstatus|]. split; [exact Hcontent|].
  split; [exact Hscript|]. split; [exact Hlong|]. split; [exact Hreplied|].
  split; [|split; [exact Hn | exact Hmax]].
  destruct continuations as [|c [|c' continuations]]; [|reflexivity|simpl in Hn; lia].
  exfalso. destruct (Hdown eq_refl) as (r' & Hr' & Hwhy).
  vm_compute in Hr'. injection Hr' as <-.
  destruct Hwhy as [Hwhy | (c & Hc & Hshort)].
  - apply Hwhy. reflexivity.
  - simpl in Hc. injection Hc as <-. vm_compute in Hshort. discriminate Hshort.
Defined.

Lemma broken_continuation_call_raises_witness :
  ScriptGenerator._generate_detailed_script
    dropped_scenario polish_generator (u "wiadomosci") []
  = (ScriptGenerator.Raises ScriptGenerator.RequestException,
     [ScriptGenerator.ScriptRequest (u "pl") (u "wiadomosci");
      ScriptGenerator.continuation_prompt polish_generator (u "wiadomosci")
                                          (u "[HOST] Witaj w podcaście!")]).
Proof.
  apply (proj1 (broken_continuation_call_raises
                  dropped_scenario polish_generator (u "wiadomosci")
                  (ok_response (u "[HOST] Witaj w podcaście!"))
                  (u "[HOST] Witaj w podcaście!")
                  eq_refl eq_refl eq_refl ltac:(vm_compute; reflexivity))).
  vm_compute. reflexivity.
Defined.

Lemma chunks_are_trimmed_and_not_empty_witness :
  exists chunks,
    TtsEngine._split_long_text 23 (u "Ala ma kota. Kot ma Ale") 10 = Some chunks
    /\ Forall (fun chunk => chunk <> [] /\ strip chunk = chunk) chunks
    /\ (strip (u "Ala ma kota. Kot ma Ale") <> [] -> chunks <> []).
Proof.
  eexists. split; [vm_compute; reflexivity|].
  apply (@chunks_are_trimmed_and_not_empty py_unicode 23 (u "Ala ma kota. Kot ma Ale") 10);
    vm_compute; (reflexivity || discriminate).
Defined.

Lemma blank_text_gives_no_chunk_witness :
  TtsEngine._split_long_text 3 (repeat SP 12) 5 = Some [].
Proof.
  apply (@blank_text_gives_no_chunk py_unicode 3 (repeat SP 12) 5);
    vm_compute; reflexivity.
Defined.


Lemma sanitized_text_is_bounded_witness :
  exists t,
    TextNormalizer.sanitize_segment_text_with (u "To jest dlugie zdanie. A potem drugie") 25
    = Some t
    /\ (len t <= 25 + 3)%Z
    /\ ((len (TextNormalizer.fix_xtts_glitches
                (TextNormalizer.clean_script_for_tts
                   (u "To jest dlugie zdanie. A potem drugie"))) <= 25)%Z ->
        t = TextNormalizer.fix_xtts_glitches
              (TextNormalizer.clean_script_for_tts
                 (u "To jest dlugie zdanie. A potem drugie"))).
Proof.
  eexists. split; [vm_compute; reflexivity|].
  apply (@sanitized_text_is_bounded py_unicode (u "To jest dlugie zdanie. A potem drugie") 25);
    vm_compute; (reflexivity || discriminate).
Defined.

Lemma cut_text_ends_a_sentence_witness :
  exists t a c,
    TextNormalizer.sanitize_segment_text_with (u "Pierwsze zdanie jest tu. Drugie tez") 30
    = Some t
    /\ t = a ++ [c] /\ In c [Re.chr "."; Re.chr "!"; Re.chr "?"]
    /\ ((exists rest,
           TextNormalizer.fix_xtts_glitches
             (TextNormalizer.clean_script_for_tts
                (u "Pierwsze zdanie jest tu. Drugie tez")) = t ++ rest)
        \/ (exists b rest,
              t = b ++ u "..."
              /\ TextNormalizer.fix_xtts_glitches
                   (TextNormalizer.clean_script_for_tts
                      (u "Pierwsze zdanie jest tu. Drugie tez")) = b ++ rest)).
Proof.
  destruct (@cut_text_ends_a_sentence
              py_unicode (u "Pierwsze zdanie jest tu. Drugie tez") 30
              (u "Pierwsze zdanie jest tu.")) as (a & c & H);
    [vm_compute; discriminate | vm_compute; reflexivity | vm_compute; reflexivity |].
  exists (u "Pierwsze zdanie jest tu."), a, c.
  split; [vm_compute; reflexivity | exact H].
Defined.

Lemma short_text_is_rejected_witness :
  TextNormalizer.sanitize_segment_text_with (u "Krotki") 250 = None.
Proof.
  apply (@short_text_is_rejected py_unicode (u "Krotki") 250). vm_compute. reflexivity.
Defined.

Lemma accepted_text_is_trimmed_witness :
  exists t,
    TextNormalizer.sanitize_segment_text_with (u "  Ala ma kota i dwa psy.  ") 250 = Some t
    /\ strip t = t.
Proof.
  eexists. split; [vm_compute; reflexivity|].
  apply (@accepted_text_is_trimmed py_unicode (u "  Ala ma kota i dwa psy.  ") 250);
    vm_compute; (reflexivity || discriminate).
Defined.

Lemma parts_fit_the_safe_limit_witness :
  exists parts,
    TtsEngine._split_segment_if_needed 300 plain_engine long_segment = Some (Ok parts)
    /\ (parts = [long_segment]
        \/ (parts <> []
            /\ Forall (part_of long_segment
                         (TtsEngine.safe_limit_of
                            (TtsEngine.char_limit (TtsEngine.language plain_engine))))
                      parts
            /\ (TtsEngine.safe_limit_of
                  (TtsEngine.char_limit (TtsEngine.language plain_engine)) <= 175)%Z)).
Proof.
  eexists. split; [vm_compute; reflexivity|].
  apply (@parts_fit_the_safe_limit py_unicode py_templates 300 plain_engine long_segment).
  vm_compute. reflexivity.
Defined.

Lemma preprocessing_keeps_every_segment_witness :
  exists processed parts,
    TtsEngine.processed_segments 503 plain_engine [long_segment] = Some (Ok processed)
    /\ processed = concat parts
    /\ Forall2 (fun segment part =>
                  part <> []
                  /\ Forall (fun p => Models.speaker p = Models.speaker segment) part)
               [long_segment] parts.
Proof.
  destruct (@preprocessing_keeps_every_segment
              py_unicode py_templates 503 plain_engine [long_segment] (le_n 503))
    as [H | [H _]]; [exact H|].
  vm_compute in H. discriminate H.
Defined.

Lemma normalized_text_is_single_spaced_witness :
  (forall c, In c (u "Nasz si aj si di dzisiaj") -> isspace c = true -> c = SP)
  /\ (forall a r, u "Nasz si aj si di dzisiaj" <> a ++ SP :: SP :: r)
  /\ TextNormalizer.normalize_text_for_tts (u "Nasz CI/CD" ++ [9%N; LF] ++ u " dzisiaj")
                                           (u "pl")
     = TextNormalizer.normalize_text_for_tts_in
         TextNormalizer.initial_tables (u "Nasz CI/CD" ++ [9%N; LF] ++ u " dzisiaj") (u "pl")
  /\ exists shipped,
       TextNormalizer.normalize_text_for_tts (u "Nasz CI/CD" ++ [9%N; LF] ++ u " dzisiaj")
                                             (u "pl") = Ok shipped.
Proof.
  apply (@normalized_text_is_single_spaced
           py_unicode py_templates TextNormalizer.initial_tables
           (u "Nasz CI/CD" ++ [9%N; LF] ++ u " dzisiaj") (u "pl")).
  vm_compute. reflexivity.
Defined.

Lemma character_run_is_an_artifact_witness :
  TextNormalizer.detect_repetition_artifacts (u "Nieeeeeee!") = true.
Proof.
  apply (@character_run_is_an_artifact py_unicode (u "Nieeeeeee!") (u "ni") (u "e!") 101%N).
  - vm_compute. reflexivity.
  - discriminate.
Defined.

Lemma repeated_unit_is_an_artifact_witness :
  TextNormalizer.detect_repetition_artifacts (u "No tak tak tak") = true.
Proof.
  apply (@repeated_unit_is_an_artifact
           py_unicode (u "No tak tak tak") (u "no ") (u "tak") (u " ") (u " ") [] 3).
  - vm_compute. reflexivity.
  - split; [apply le_S, le_n | apply le_S, le_S, le_S, le_n].
  - left. split; vm_compute; reflexivity.
  - vm_compute. reflexivity.
  - vm_compute. reflexivity.
Defined.

Lemma rendered_script_parses_back_witness :
  ScriptGenerator._parse_script (Models.raw_script sample_script)
  = map (fun segment =>
           Models.new_segment (Models.speaker segment) (Models.text segment))
        (Models.segments sample_script).
Proof.
  apply (@rendered_script_parses_back py_unicode sample_script).
  repeat apply Forall_cons; [| |apply Forall_nil];
    (split; [vm_compute; reflexivity|];
     split; [vm_compute; reflexivity|];
     split; [not_among|];
     split; [not_among | vm_compute; reflexivity]).
Defined.
